(** * ShardedChain: Merkle trie, shard manager and cross-shard proofs

    A shallow embedding of the Go packages [trie], [shard], [state],
    [proof], [global] and [sim] of the repository, followed by the
    properties proved about it.

    Conventions of the embedding.
    - A Go [[]byte] whose nil-ness the code tests ([Node.value], and the
      value handed to [Insert]) is an [option (list byte)]: [None] is the
      nil slice and [Some []] the empty non-nil slice.  A [[]byte] that the
      code only reads, hashes or compares with [bytes.Equal] (hashes, keys,
      the value of a proof) is a [list byte]; nil and empty coincide there.
    - A Go [map[byte]T] is a [gmap byte T].  [for k, v := range m] visits
      the bindings in the order of [map_to_list], about which nothing is
      known besides that it enumerates the bindings once each; wherever
      the code sorts, the model sorts.
    - A run-time panic (index out of range, nil dereference, division by
      zero) is [None], and [Panic] in the store monad of package [proof].
    - A method that updates its receiver in place returns the updated
      value; the shard manager is the list of its shards, and its lock,
      held over each whole operation, is not modelled.
    - The goroutine of [Scheduler.Start] is modelled one tick at a time,
      without its ticker and its printing.  The channel is the list of
      the transactions it buffers, of capacity 1000; no other goroutine
      sends or receives during a tick, and a send or receive that would
      wait is [None].
    - [crypto/sha256] and [hash/fnv] are implemented (FIPS 180-4, FNV-1a).
    - [float64] is the kernel's binary64 ([PrimFloat]).
    - Names are the source's, except where two fields would clash or a
      name is reserved: [Proof] is [TrieProof], [KV.Value] is [KValue] and
      [CompressedProof.Value] is [CValue]. *)

From Stdlib Require Import ZArith NArith Lia.
From Stdlib.Strings Require Import Byte.
From Stdlib Require Import Floats.
From stdpp Require Import gmap list sorting strings.

Set Warnings "-register-all,-inexact-float".

(** ** Bytes *)

#[global] Instance byte_eq_dec : EqDecision byte := Byte.byte_eq_dec.
#[global] Instance byte_countable : Countable byte :=
  inj_countable Byte.to_N Byte.of_N Byte.of_to_N.

(** [int(b)] for a byte [b]. *)
Definition int_of_byte (b : byte) : Z := Z.of_N (Byte.to_N b).

(** [byte(i)] for an int [i]: the low eight bits. *)
Definition byte_of_N (n : N) : byte :=
  match Byte.of_N (n mod 256)%N with
  | Some b => b
  | None => x00
  end.

Definition byte_of_int (i : Z) : byte := byte_of_N (Z.to_N (i mod 256)).

(** [a < b] on bytes. *)
Definition byte_lt (a b : byte) : Prop := (Byte.to_N a < Byte.to_N b)%N.
Definition byte_ltb (a b : byte) : bool := (Byte.to_N a <? Byte.to_N b)%N.

(** The bytes of an ASCII string literal, [[]byte("...")]. *)
Definition bytes_of_string (s : string) : list byte := String.list_byte_of_string s.

(** ** crypto/sha256 *)

Module sha256.

Definition mask32 : N := 0xFFFFFFFF.
Definition add32 (x y : N) : N := N.land (x + y) mask32.
Definition rotr (n x : N) : N :=
  N.lor (N.shiftr x n) (N.land (N.shiftl x (32 - n)) mask32).
Definition not32 (x : N) : N := N.lxor x mask32.

Definition Ch (x y z : N) : N := N.lxor (N.land x y) (N.land (not32 x) z).
Definition Maj (x y z : N) : N :=
  N.lxor (N.lxor (N.land x y) (N.land x z)) (N.land y z).
Definition bsig0 (x : N) : N := N.lxor (N.lxor (rotr 2 x) (rotr 13 x)) (rotr 22 x).
Definition bsig1 (x : N) : N := N.lxor (N.lxor (rotr 6 x) (rotr 11 x)) (rotr 25 x).
Definition ssig0 (x : N) : N := N.lxor (N.lxor (rotr 7 x) (rotr 18 x)) (N.shiftr x 3).
Definition ssig1 (x : N) : N := N.lxor (N.lxor (rotr 17 x) (rotr 19 x)) (N.shiftr x 10).

(** The first 64 primes. *)
Definition is_prime (p : N) : bool :=
  forallb (λ d, negb (p mod N.of_nat d =? 0)%N) (seq 2 (N.to_nat p - 2)).

Definition primes : list N :=
  Eval vm_compute in take 64 (filter (λ p, is_prime p) (N.of_nat <$> seq 2 400)).

(** The integer cube root, bit by bit from the top. *)
Definition cube_root (n : N) : N :=
  foldl (λ r b, let r' := (r + 2 ^ N.of_nat b)%N in
                if (r' * r' * r' <=? n)%N then r' else r)
        0%N (rev (seq 0 40)).

(** The round constants: the first 32 bits of the fractional parts of the
    cube roots of the first 64 primes. *)
Definition K : list N :=
  Eval vm_compute in (λ p, N.land (cube_root (p * 2 ^ 96)) mask32) <$> primes.

(** The eight working words. *)
Record digest : Type := Digest { da : N; db : N; dc : N; dd : N; de : N; df : N; dg : N; dh : N }.

(** The initial hash value: the first 32 bits of the fractional parts of
    the square roots of the first 8 primes. *)
Definition frac_sqrt (p : N) : N := N.land (N.sqrt (p * 2 ^ 64)) mask32.

Definition init : digest :=
  Eval vm_compute in
    Digest (frac_sqrt 2) (frac_sqrt 3) (frac_sqrt 5) (frac_sqrt 7)
           (frac_sqrt 11) (frac_sqrt 13) (frac_sqrt 17) (frac_sqrt 19).

(** Padding: a 1 bit, zeros up to 56 mod 64, the bit length on 8 bytes. *)
Definition be_bytes (width : nat) (n : N) : list byte :=
  (λ i, byte_of_N (N.shiftr n (8 * N.of_nat i))) <$> rev (seq 0 width).

Definition pad (msg : list byte) : list byte :=
  let len := length msg in
  let zeros := (64 - (len + 9) mod 64) mod 64 in
  msg ++ [x80] ++ replicate zeros x00 ++ be_bytes 8 (8 * N.of_nat len).

Definition word_of_bytes (bs : list byte) : N :=
  foldl (λ acc b, N.lor (N.shiftl acc 8) (Byte.to_N b)) 0%N bs.

Fixpoint words (n : nat) (bs : list byte) : list N :=
  match n with
  | O => []
  | S n' => word_of_bytes (take 4 bs) :: words n' (drop 4 bs)
  end.

(** The message schedule, kept newest word first while it is extended. *)
Fixpoint extend (n : nat) (w : list N) : list N :=
  match n with
  | O => w
  | S n' =>
      let new := add32 (add32 (ssig1 (nth 1 w 0%N)) (nth 6 w 0%N))
                       (add32 (ssig0 (nth 14 w 0%N)) (nth 15 w 0%N)) in
      extend n' (new :: w)
  end.

Definition schedule (block : list byte) : list N :=
  rev (extend 48 (rev (words 16 block))).

Definition round (s : digest) (kw : N * N) : digest :=
  let t1 := add32 (add32 (add32 (add32 (dh s) (bsig1 (de s))) (Ch (de s) (df s) (dg s))) kw.1) kw.2 in
  let t2 := add32 (bsig0 (da s)) (Maj (da s) (db s) (dc s)) in
  Digest (add32 t1 t2) (da s) (db s) (dc s) (add32 (dd s) t1) (de s) (df s) (dg s).

Definition compress (s : digest) (block : list byte) : digest :=
  let r := foldl round s (zip K (schedule block)) in
  Digest (add32 (da s) (da r)) (add32 (db s) (db r)) (add32 (dc s) (dc r)) (add32 (dd s) (dd r))
         (add32 (de s) (de r)) (add32 (df s) (df r)) (add32 (dg s) (dg r)) (add32 (dh s) (dh r)).

Fixpoint blocks (n : nat) (s : digest) (bs : list byte) : digest :=
  match n with
  | O => s
  | S n' => blocks n' (compress s (take 64 bs)) (drop 64 bs)
  end.

Definition digest_bytes (s : digest) : list byte :=
  be_bytes 4 (da s) ++ be_bytes 4 (db s) ++ be_bytes 4 (dc s) ++ be_bytes 4 (dd s) ++
  be_bytes 4 (de s) ++ be_bytes 4 (df s) ++ be_bytes 4 (dg s) ++ be_bytes 4 (dh s).

(** [h := sha256.New(); h.Write(msg); h.Sum(nil)]. *)
Definition Sum (msg : list byte) : list byte :=
  let p := pad msg in
  digest_bytes (blocks (length p / 64) init p).

End sha256.

(** Hexadecimal rendering, [hex.EncodeToString], used to state test vectors. *)
Definition hex_digit (n : N) : string :=
  match n with
  | 0 => "0" | 1 => "1" | 2 => "2" | 3 => "3" | 4 => "4" | 5 => "5" | 6 => "6" | 7 => "7"
  | 8 => "8" | 9 => "9" | 10 => "a" | 11 => "b" | 12 => "c" | 13 => "d" | 14 => "e" | _ => "f"
  end%N.

Definition hex (bs : list byte) : string :=
  foldr (λ b acc, hex_digit (Byte.to_N b / 16) +:+ hex_digit (Byte.to_N b mod 16) +:+ acc) "" bs.

(** ** package trie *)

Module trie.

(** [type Node struct { children map[byte]*Node; value []byte; hash []byte }] *)
Inductive Node : Type :=
  mkNode { children : gmap byte Node; value : option (list byte); hash : list byte }.

(** [type KV struct { Key, Value []byte }].  [Value] is built with
    [append([]byte(nil), v...)], which is nil when [v] is empty: the
    value handed on to [Insert] may therefore be nil. *)
Record KV : Type := mkKV { Key : list byte; KValue : option (list byte) }.

(** [type Proof struct { Value []byte; Steps []map[byte][]byte }] *)
Record TrieProof : Type :=
  mkProof { Value : list byte; Steps : list (gmap byte (list byte)) }.

(** [NewNode]: no children, nil value, nil hash (nothing is hashed yet). *)
Definition NewNode : Node := mkNode ∅ None [].

(** [sort.Ints] *)
Definition sortInts (ks : list Z) : list Z := merge_sort Z.le ks.

(** The bytes [computeHash] feeds to the hash: the value under tag 0 when
    it is not nil, then every child in ascending label order under tag 1. *)
Definition hashInput (n : Node) : list byte :=
  let buf := match value n with
             | Some v => [x00] ++ v
             | None => []
             end in
  let keys := sortInts (int_of_byte <$> (map_to_list (children n)).*1) in
  foldl (λ buf ki,
           let b := byte_of_int ki in
           buf ++ [x01] ++ [b] ++ from_option hash [] (children n !! b))
        buf keys.

Definition computeHash (n : Node) : Node :=
  mkNode (children n) (value n) (sha256.Sum (hashInput n)).

(** [Insert]: the child is looked up or created, updated recursively and
    stored back; the hash is recomputed on the way up. *)
Fixpoint Insert (key : list byte) (val : option (list byte)) (n : Node) : Node :=
  computeHash
    match key with
    | [] => mkNode (children n) val (hash n)
    | b :: rest =>
        let child := match children n !! b with
                     | Some c => c
                     | None => NewNode
                     end in
        mkNode (<[b := Insert rest val child]> (children n)) (value n) (hash n)
    end.

Definition RootHash (n : Node) : list byte := hash n.

(** The sibling map of one step of [GetProof]. *)
Definition siblings (b : byte) (cs : gmap byte Node) : gmap byte (list byte) :=
  map_fold (λ sb sib sibMap, if decide (sb ≠ b) then <[sb := hash sib]> sibMap else sibMap) ∅ cs.

Definition errNotFound : string := "key not found".

(** The loop of [GetProof]; [node] is [None] for the nil pointer. *)
Fixpoint getProofLoop (node : option Node) (key : list byte)
    (steps : list (gmap byte (list byte))) : TrieProof + string :=
  match key with
  | [] =>
      match node with
      | None => inr errNotFound
      | Some n =>
          match value n with
          | None => inr errNotFound
          | Some v => inl (mkProof v steps)
          end
      end
  | b :: rest =>
      match node with
      | None => inr errNotFound
      | Some n => getProofLoop (children n !! b) rest (steps ++ [siblings b (children n)])
      end
  end.

Definition GetProof (n : Node) (key : list byte) : TrieProof + string :=
  getProofLoop (Some n) key [].

(** One iteration of the climb of [VerifyProof] at a depth whose key byte
    is [kb]. *)
Definition verifyStep (kb : byte) (sibMap : gmap byte (list byte)) (current : list byte) : list byte :=
  let set : gset Z := {[ int_of_byte kb ]} ∪ list_to_set (int_of_byte <$> (map_to_list sibMap).*1) in
  let ks := sortInts (elements set) in
  sha256.Sum
    (foldl (λ buf ki,
              let b := byte_of_int ki in
              buf ++ [x01] ++ [b] ++
                (if decide (b = kb) then current else default [] (sibMap !! b)))
           [] ks).

(** [for i := n - 1; i >= 0; i--]; [proof.Steps[i]] panics out of range. *)
Fixpoint climb (key : list byte) (steps : list (gmap byte (list byte)))
    (n : nat) (current : list byte) : option (list byte) :=
  match n with
  | O => Some current
  | S i =>
      match steps !! i, key !! i with
      | Some sibMap, Some kb => climb key steps i (verifyStep kb sibMap current)
      | _, _ => None
      end
  end.

Definition VerifyProof (rootHash key : list byte) (proof : TrieProof) : option bool :=
  current ← climb key (Steps proof) (length key) (sha256.Sum ([x00] ++ Value proof));
  Some (bool_decide (current = rootHash)).

(** [append([]byte(nil), v...)] *)
Definition copyBytes (v : list byte) : option (list byte) :=
  match v with
  | [] => None
  | _ => Some v
  end.

(** [walk] of [Traverse]. *)
Fixpoint walk (node : Node) (prefix : list byte) {struct node} : list KV :=
  match node with
  | mkNode cs v _ =>
      match v with
      | Some x => [mkKV prefix (copyBytes x)]
      | None => []
      end ++
      map_fold (λ b child acc, walk child (prefix ++ [b]) ++ acc) [] cs
  end.

Definition Traverse (n : Node) : list KV := walk n [].

End trie.

(** ** package shard *)

Module shard.
Import trie.

(** Go's [int] is 64 bits wide; [++] wraps around. *)
Definition wrap64 (z : Z) : Z := (z + 2 ^ 63) mod 2 ^ 64 - 2 ^ 63.

(** [type Shard struct { Tree *trie.Node; Mutations int }] *)
Record Shard : Type := mkShard { Tree : Node; Mutations : Z }.

Definition NewShard : Shard := mkShard NewNode 0.

(** [Apply]: insert and bump the mutation count. *)
Definition Apply (key : list byte) (val : option (list byte)) (s : Shard) : Shard :=
  mkShard (Insert key val (Tree s)) (wrap64 (Mutations s + 1)).

Definition Root (s : Shard) : list byte := RootHash (Tree s).

End shard.

(** ** package state *)

Module state.
Import trie shard.

(** [type RebalanceProof struct] *)
Record RebalanceProof : Type := mkRebalanceProof {
  PreRoots : list (list byte);
  PostRoots : list (list byte);
  Operation : string;
  ShardIndex : list nat
}.

(** [hash/fnv]: the 32-bit FNV-1a hash, [h := fnv.New32a(); h.Write(key);
    h.Sum32()]. *)
Definition fnv32a (key : list byte) : N :=
  foldl (λ h b, (N.lxor h (Byte.to_N b) * 16777619) mod 2 ^ 32)%N 2166136261%N key.

(** [NewManager]: [numShards] empty shards. *)
Definition NewManager (numShards : nat) : list Shard := replicate numShards NewShard.

(** [shardIndex]: [int(h.Sum32()) % len(m.Shards)]; the division panics
    on a manager without shards. *)
Definition shardIndex (key : list byte) (shards : list Shard) : option nat :=
  match shards with
  | [] => None
  | _ => Some (N.to_nat (fnv32a key mod N.of_nat (length shards)))
  end.

(** [ApplyTx]: the key is routed, then written to its shard. *)
Definition ApplyTx (key : list byte) (val : option (list byte)) (shards : list Shard)
    : option (list Shard) :=
  idx ← shardIndex key shards;
  s ← shards !! idx;
  Some (<[idx := Apply key val s]> shards).

(** [CollectStats]: the mutation counts in shard order. *)
Definition CollectStats (shards : list Shard) : list Z := Mutations <$> shards.

(** [ShardRoots]: the root hashes in shard order. *)
Definition ShardRoots (shards : list Shard) : list (list byte) := Root <$> shards.

(** [float64(v)] for an int [v]: round to nearest, ties to even. *)
Definition float64_of_int (z : Z) : float :=
  SF2Prim (binary_normalize prec emax z 0%Z false).

(** [calcStats]: mean and variance of the data, both 0 on no data.  Every
    operation rounds on its own; a target on which Go fuses [ss += d * d]
    into one operation rounds once there.  The statements below either
    do not depend on the value of the variance or are about data on
    which every operation is exact. *)
Definition calcStats (data : list Z) : float * float :=
  let n := float64_of_int (Z.of_nat (length data)) in
  if PrimFloat.eqb n 0%float then (0%float, 0%float)
  else
    let sum := foldl (λ sum v, PrimFloat.add sum (float64_of_int v)) 0%float data in
    let mean := PrimFloat.div sum n in
    let ss := foldl (λ ss v,
                       let d := PrimFloat.sub (float64_of_int v) mean in
                       PrimFloat.add ss (PrimFloat.mul d d))
                    0%float data in
    (mean, PrimFloat.div ss n).

(** [data[i]] inside a loop whose index is in range. *)
Definition at_index (data : list Z) (i : nat) : Z := default 0%Z (data !! i).

(** [indexOfMax]: the first index holding the largest element. *)
Definition indexOfMax (data : list Z) : nat :=
  foldl (λ max iv, if (at_index data max <? iv.2)%Z then iv.1 else max)
        0 (zip (seq 0 (length data)) data).

(** [twoMinIndices]: [data[0]] and [data[1]] are read first, a panic on
    fewer than two elements. *)
Definition twoMinIndices (data : list Z) : option (nat * nat) :=
  d0 ← data !! 0;
  d1 ← data !! 1;
  let start := if (d1 <? d0)%Z then (1, 0) else (0, 1) in
  Some (foldl (λ mins i,
                 if (at_index data i <? at_index data mins.1)%Z then (i, mins.1)
                 else if (at_index data i <? at_index data mins.2)%Z then (mins.1, i)
                 else mins)
              start (seq 2 (length data - 2))).

(** [len(kv.Key) > 0 && kv.Key[0]&0x80 == 0] *)
Definition lowHalf (key : list byte) : bool :=
  match key with
  | [] => false
  | b :: _ => (N.land (Byte.to_N b) 0x80 =? 0)%N
  end.

(** [splitShard]: the shard at [idx] is replaced by two new shards. *)
Definition splitShard (idx : nat) (shards : list Shard) : option (list Shard) :=
  old ← shards !! idx;
  let s12 := foldl (λ s12 kv,
                      if lowHalf (Key kv) then (Apply (Key kv) (KValue kv) s12.1, s12.2)
                      else (s12.1, Apply (Key kv) (KValue kv) s12.2))
                   (NewShard, NewShard) (Traverse (Tree old)) in
  Some (take idx shards ++ [s12.1; s12.2] ++ drop (idx + 1) shards).

(** [mergeShards]: a new shard receives the pairs of both shards and
    stands for [Shards[i1 .. i2]]. *)
Definition mergeShards (i1 i2 : nat) (shards : list Shard) : option (list Shard) :=
  let (i1, i2) := if i2 <? i1 then (i2, i1) else (i1, i2) in
  s1 ← shards !! i1;
  s2 ← shards !! i2;
  let merged := foldl (λ m kv, Apply (Key kv) (KValue kv) m) NewShard (Traverse (Tree s1)) in
  let merged := foldl (λ m kv, Apply (Key kv) (KValue kv) m) merged (Traverse (Tree s2)) in
  Some (take i1 shards ++ [merged] ++ drop (i2 + 1) shards).

(** [RebalanceWithProof] on the shards of the manager, run under its
    lock: the new shards and the proof. *)
Definition RebalanceWithProof (thresholdSplit thresholdMerge : float) (shards : list Shard)
    : option (list Shard * RebalanceProof) :=
  let pre := Root <$> shards in
  let stats := Mutations <$> shards in
  let variance := (calcStats stats).2 in
  if PrimFloat.ltb thresholdSplit variance then
    let i := indexOfMax stats in
    shards' ← splitShard i shards;
    Some (shards', mkRebalanceProof pre (Root <$> shards') "split" [i])
  else if PrimFloat.ltb variance thresholdMerge && (1 <? length shards) then
    '(i1, i2) ← twoMinIndices stats;
    shards' ← mergeShards i1 i2 shards;
    Some (shards', mkRebalanceProof pre (Root <$> shards') "merge" [i1; i2])
  else
    Some (shards, mkRebalanceProof pre (Root <$> shards) "none" []).

(** Every pair recoverable with [Traverse], over all shards. *)
Definition allKVs (shards : list Shard) : list KV :=
  mjoin ((λ s, Traverse (Tree s)) <$> shards).

(** [ShardCount] *)
Definition ShardCount (shards : list Shard) : nat := length shards.

(** [GetTrie]: [m.Shards[shardIdx].Tree], a panic out of range. *)
Definition GetTrie (shardIdx : Z) (shards : list Shard) : option Node :=
  if (shardIdx <? 0)%Z then None else Tree <$> shards !! Z.to_nat shardIdx.

(** [Rebalance]: the rebalance that returns no proof.  The statistics are
    read with [CollectStats]; the decision is that of
    [RebalanceWithProof]. *)
Definition Rebalance (thresholdSplit thresholdMerge : float) (shards : list Shard)
    : option (list Shard) :=
  let stats := CollectStats shards in
  let variance := (calcStats stats).2 in
  if PrimFloat.ltb thresholdSplit variance then
    splitShard (indexOfMax stats) shards
  else if PrimFloat.ltb variance thresholdMerge && (1 <? length shards) then
    '(i1, i2) ← twoMinIndices stats;
    mergeShards i1 i2 shards
  else
    Some shards.

End state.

(** ** package proof *)

Module proof.
Import trie.

(** [type CompressedProof struct] *)
Record CompressedProof : Type := mkCompressedProof {
  CValue : list byte;
  SibKeys : list (list byte);
  SibHashes : list (list (list byte))
}.

(** [if keys[j] < keys[i] { keys[i], keys[j] = keys[j], keys[i] }] *)
Definition swapIfLess (i j : nat) (keys : list byte) : list byte :=
  match keys !! i, keys !! j with
  | Some ki, Some kj => if byte_ltb kj ki then <[j := ki]> (<[i := kj]> keys) else keys
  | _, _ => keys
  end.

(** [for j := i + 1; j < len(keys); j++] *)
Definition innerLoop (i : nat) (keys : list byte) : list byte :=
  foldl (λ ks j, swapIfLess i j ks) keys (seq (S i) (length keys - S i)).

(** The "simple sort" of [CompressProof]: [for i := 0; i < len(keys); i++]. *)
Definition simpleSort (keys : list byte) : list byte :=
  foldl (λ ks i, innerLoop i ks) keys (seq 0 (length keys)).

(** One iteration of the loop of [CompressProof]: the sorted keys of the
    sibling map and the hashes in the same order. *)
Definition compressStep (sibMap : gmap byte (list byte)) : list byte * list (list byte) :=
  let keys := simpleSort (map_to_list sibMap).*1 in
  (keys, (λ k, default [] (sibMap !! k)) <$> keys).

Definition CompressProof (p : TrieProof) : CompressedProof :=
  let cs := compressStep <$> Steps p in
  mkCompressedProof (Value p) (cs.*1) (cs.*2).

(** [for j, k := range cp.SibKeys[i] { m[k] = cp.SibHashes[i][j] }];
    [hashes] is [None] when [cp.SibHashes[i]] is out of range. *)
Fixpoint decompressLoop (j : nat) (keys : list byte) (hashes : option (list (list byte)))
    (m : gmap byte (list byte)) : option (gmap byte (list byte)) :=
  match keys with
  | [] => Some m
  | k :: keys' =>
      h ← hashes ≫= (.!! j);
      decompressLoop (S j) keys' hashes (<[k := h]> m)
  end.

(** [for i := 0; i < steps; i++] *)
Fixpoint decompressSteps (i : nat) (sibKeys : list (list byte)) (sibHashes : list (list (list byte)))
    : option (list (gmap byte (list byte))) :=
  match sibKeys with
  | [] => Some []
  | keys :: rest =>
      m ← decompressLoop 0 keys (sibHashes !! i) ∅;
      ms ← decompressSteps (S i) rest sibHashes;
      Some (m :: ms)
  end.

Definition DecompressProof (cp : CompressedProof) : option TrieProof :=
  steps ← decompressSteps 0 (SibKeys cp) (SibHashes cp);
  Some (mkProof (CValue cp) steps).

(** [type CrossProof struct] *)
Record CrossProof : Type := mkCrossProof {
  SrcShard : Z;
  DstShard : Z;
  SrcKey : list byte;
  DstKey : list byte;
  PreSrcRoot : list byte;
  PreDstRoot : list byte;
  SrcProof : TrieProof;
  DstProof : TrieProof;
  PostSrcRoot : list byte;
  PostDstRoot : list byte
}.

(** The tries [getTrie] hands out, by shard index.  On an index without a
    trie it returns nil, and the method called on it panics. *)
Inductive outcome (A : Type) : Type :=
| Panic : outcome A
| Ret : A → gmap Z Node → outcome A.
Arguments Panic {A}.
Arguments Ret {A} _ _.

Definition M (A : Type) : Type := gmap Z Node → outcome A.

Definition ret {A} (a : A) : M A := λ st, Ret a st.

Definition bind {A B} (m : M A) (k : A → M B) : M B :=
  λ st, match m st with
        | Panic => Panic
        | Ret a st' => k a st'
        end.

Notation "'do' x <- m ; k" := (bind m (λ x, k))
  (at level 10, x name, m at level 100, k at level 200).
Notation "'run' m ; k" := (bind m (λ _, k))
  (at level 10, m at level 100, k at level 200).

(** [getTrie(idx).RootHash()] *)
Definition rootHashOf (idx : Z) : M (list byte) :=
  λ st, match st !! idx with
        | Some t => Ret (RootHash t) st
        | None => Panic
        end.

(** [getTrie(idx).GetProof(key)] *)
Definition getProofOf (idx : Z) (key : list byte) : M (TrieProof + string) :=
  λ st, match st !! idx with
        | Some t => Ret (GetProof t key) st
        | None => Panic
        end.

(** [getTrie(idx).Insert(key, val)]: the trie is updated in place. *)
Definition insertAt (idx : Z) (key : list byte) (val : option (list byte)) : M unit :=
  λ st, match st !! idx with
        | Some t => Ret tt (<[idx := Insert key val t]> st)
        | None => Panic
        end.

(** [GenerateCrossProof]: the result is the proof or the error. *)
Definition GenerateCrossProof (srcShard dstShard : Z) (keyFrom keyTo : list byte)
    (amount : option (list byte)) : M (CrossProof + string) :=
  do srcRoot <- rootHashOf srcShard;
  do dstRoot <- rootHashOf dstShard;
  do r1 <- getProofOf srcShard keyFrom;
  match r1 with
  | inr err => ret (inr ("src proof: " +:+ err))
  | inl srcProof =>
      do r2 <- getProofOf dstShard keyTo;
      match r2 with
      | inr err => ret (inr ("dst proof: " +:+ err))
      | inl dstProof =>
          run insertAt srcShard keyFrom amount;
          run insertAt dstShard keyTo amount;
          do newSrcRoot <- rootHashOf srcShard;
          do newDstRoot <- rootHashOf dstShard;
          ret (inl (mkCrossProof srcShard dstShard keyFrom keyTo srcRoot dstRoot
                                 srcProof dstProof newSrcRoot newDstRoot))
      end
  end.

(** [VerifyCrossProof]: [None] is the nil error. *)
Definition VerifyCrossProof (verifySingle : list byte → list byte → TrieProof → bool)
    (cp : CrossProof) : option string :=
  if negb (verifySingle (PreSrcRoot cp) (SrcKey cp) (SrcProof cp)) then
    Some "invalid source pre‑proof"
  else if negb (verifySingle (PreDstRoot cp) (DstKey cp) (DstProof cp)) then
    Some "invalid dest pre‑proof"
  else if bool_decide (PreSrcRoot cp = PostSrcRoot cp) then
    Some "source root didn’t change"
  else if bool_decide (PreDstRoot cp = PostDstRoot cp) then
    Some "dest root didn’t change"
  else None.

End proof.

(** ** package global *)

Module global.

(** [[]byte{byte(len(r) >> 8), byte(len(r) & 0xff)}] *)
Definition lenPrefix (r : list byte) : list byte :=
  let len := Z.of_nat (length r) in
  [byte_of_int (Z.shiftr len 8); byte_of_int (Z.land len 0xff)].

(** What [BuildGlobalRoot] writes to the hash: every root behind its
    length on two bytes. *)
Definition globalInput (shardRoots : list (list byte)) : list byte :=
  foldl (λ buf r, buf ++ lenPrefix r ++ r) [] shardRoots.

Definition BuildGlobalRoot (shardRoots : list (list byte)) : list byte :=
  sha256.Sum (globalInput shardRoots).

End global.

(** ** package sim *)

Module sim.
Import trie shard state.

(** [type Transaction struct { Key, Value []byte }] *)
Record Transaction : Type := mkTransaction { TxKey : list byte; TxValue : option (list byte) }.

(** [type Scheduler struct]; the channel [txQueue] is the list of the
    transactions it buffers, oldest first. *)
Record Scheduler : Type := mkScheduler {
  mgr : list Shard;
  txQueue : list Transaction;
  tickInterval : Z;
  activeCount : Z;
  cursor : Z;
  splitThreshold : float;
  mergeThreshold : float
}.

(** [make(chan Transaction, 1000)] *)
Definition queueCap : nat := 1000.

Definition NewScheduler (mgr : list Shard) (tickInterval activeCount : Z)
    (splitThreshold mergeThreshold : float) : Scheduler :=
  mkScheduler mgr [] tickInterval activeCount 0 splitThreshold mergeThreshold.

(** [txQueue <- tx]: [None] when the buffer is full and the sender waits. *)
Definition send (tx : Transaction) (queue : list Transaction) : option (list Transaction) :=
  if decide (length queue < queueCap) then Some (queue ++ [tx]) else None.

(** [Submit] *)
Definition Submit (key : list byte) (val : option (list byte)) (s : Scheduler) : option Scheduler :=
  queue ← send (mkTransaction key val) (txQueue s);
  Some (mkScheduler (mgr s) queue (tickInterval s) (activeCount s) (cursor s)
                    (splitThreshold s) (mergeThreshold s)).

(** The active shards of a tick: [active[(s.cursor + i) % total] = true]
    for [i] from 0 below [activeCount].  [%] truncates towards zero. *)
Definition activeShards (cursor activeCount total : Z) : gset Z :=
  list_to_set ((λ i : nat, Z.rem (wrap64 (cursor + Z.of_nat i)) total) <$> seq 0 (Z.to_nat activeCount)).

(** The loop over the [n] transactions queued when the tick began: each
    is received, routed, and applied when its shard is active, sent back
    to the queue otherwise.  [None] is a panic, or a receive or send that
    waits. *)
Fixpoint drain (n : nat) (active : gset Z) (shards : list Shard) (queue : list Transaction)
    : option (list Shard * list Transaction) :=
  match n with
  | O => Some (shards, queue)
  | S n' =>
      match queue with
      | [] => None
      | tx :: queue =>
          shardIdx ← shardIndex (TxKey tx) shards;
          if decide (Z.of_nat shardIdx ∈ active) then
            shards' ← ApplyTx (TxKey tx) (TxValue tx) shards;
            drain n' active shards' queue
          else
            queue' ← send tx queue;
            drain n' active shards queue'
      end
  end.

(** The body of the loop of [Start], one tick; the printing is left out. *)
Definition tick (s : Scheduler) : option Scheduler :=
  let total := Z.of_nat (ShardCount (mgr s)) in
  if (total =? 0)%Z then Some s
  else
    let active := activeShards (cursor s) (activeCount s) total in
    '(shards, queue) ← drain (length (txQueue s)) active (mgr s) (txQueue s);
    '(shards', rp) ← RebalanceWithProof (splitThreshold s) (mergeThreshold s) shards;
    Some (mkScheduler shards' queue (tickInterval s) (activeCount s)
                      (Z.rem (wrap64 (cursor s + activeCount s)) total)
                      (splitThreshold s) (mergeThreshold s)).

End sim.

(** ** Vocabulary of the statements *)

Module spec.
Import trie shard state proof sim.

(** Inserting the pairs of a list one after the other, first pair first. *)
Definition insertAll (kvs : list (list byte * option (list byte))) (n : Node) : Node :=
  foldl (λ t kv, Insert kv.1 kv.2 t) n kvs.

(** The node reached from [n] along [key], if every edge exists. *)
Fixpoint nodeAt (n : Node) (key : list byte) : option Node :=
  match key with
  | [] => Some n
  | b :: rest => children n !! b ≫= λ c, nodeAt c rest
  end.

(** The value stored at [key]: [None] when the node is missing or its
    value is nil. *)
Definition valueAt (n : Node) (key : list byte) : option (list byte) :=
  nodeAt n key ≫= value.

(** Every node of the trie carries the hash of its current content. *)
Definition hashed (n : Node) : Prop :=
  ∀ key n', nodeAt n key = Some n' → hash n' = sha256.Sum (hashInput n').

(** The sibling maps [GetProof] collects along [key]. *)
Fixpoint proofSteps (n : Node) (key : list byte) : list (gmap byte (list byte)) :=
  match key with
  | [] => []
  | b :: rest =>
      siblings b (children n) ::
      match children n !! b with
      | Some c => proofSteps c rest
      | None => []
      end
  end.

(** The element at [a] is at most the element at [b]. *)
Definition le_at (keys : list byte) (a b : nat) : Prop :=
  ∀ x y, keys !! a = Some x → keys !! b = Some y → (Byte.to_N x ≤ Byte.to_N y)%N.

(** Invariant of the outer loop before iteration [k]: each of the first
    [k] positions holds at most what any later position holds. *)
Definition sorted_upto (k : nat) (keys : list byte) : Prop :=
  ∀ a b, a < k → a < b → le_at keys a b.

(** Invariant of the inner loop of iteration [i] before index [j]. *)
Definition min_upto (i j : nat) (keys : list byte) : Prop :=
  sorted_upto i keys ∧ ∀ b, i < b < j → le_at keys i b.

(** A traversed pair as the arguments [Apply] and [Insert] receive. *)
Definition pairOf (kv : KV) : list byte * option (list byte) := (Key kv, KValue kv).

(** The number of nodes of a trie. *)
Fixpoint node_size (n : Node) : nat :=
  match n with
  | mkNode cs _ _ => S (map_fold (λ _ c acc, node_size c + acc) 0 cs)
  end.

(** The pairs [walk] collects below the children of a node. *)
Definition childrenKVs (cs : gmap byte Node) (prefix : list byte) : list KV :=
  map_fold (λ b child acc, walk child (prefix ++ [b]) ++ acc) [] cs.

(** Pairs as a traversal returns them, with no nil value. *)
Definition stored (kvs : list KV) : Prop :=
  Forall (λ kv, ∃ v, KValue kv = Some v ∧ copyBytes v = Some v) kvs.

(** Invariant of the loop of [twoMinIndices] before index [s]: the two
    indices hold the two smallest of the first [s] elements, the first
    of them being the leftmost smallest. *)
Definition two_min_upto (data : list Z) (s : nat) (mins : nat * nat) : Prop :=
  mins.1 ≠ mins.2 ∧ mins.1 < s ∧ mins.2 < s ∧
  (at_index data mins.1 ≤ at_index data mins.2)%Z ∧
  (∀ j, j < s → j ≠ mins.1 → (at_index data mins.2 ≤ at_index data j)%Z) ∧
  (∀ j, j < mins.1 → (at_index data mins.1 < at_index data j)%Z).

(** What [GetProof] finds at a key: the value of the proof, if any. *)
Definition lookupValue (t : Node) (key : list byte) : option (list byte) :=
  match GetProof t key with
  | inl p => Some (Value p)
  | inr _ => None
  end.

(** Whether the shard a transaction is routed to is active. *)
Definition isActive (active : gset Z) (shards : list Shard) (tx : Transaction) : bool :=
  match shardIndex (TxKey tx) shards with
  | Some idx => bool_decide (Z.of_nat idx ∈ active)
  | None => false
  end.

(** The transactions applied to the manager one after the other. *)
Definition applyAll (txs : list Transaction) (shards : list Shard) : option (list Shard) :=
  foldl (λ m tx, m ≫= ApplyTx (TxKey tx) (TxValue tx)) (Some shards) txs.

(** [n] ticks in a row. *)
Fixpoint ticks (n : nat) (s : Scheduler) : option Scheduler :=
  match n with
  | O => Some s
  | S n' => tick s ≫= ticks n'
  end.

End spec.

(** ** Concrete states used by the examples *)

Module examples.
Import trie shard state proof global sim spec.

Definition bs : string → list byte := bytes_of_string.

(** [NewManager(3)] after one write of "a", which is routed to shard 1. *)
Definition m_gap : option (list Shard) :=
  ApplyTx (bs "a") (Some (bs "v")) (NewManager 3).

(** [NewManager(3)] after a write of "eve" (routed to shard 0 of 3), a
    rebalance (which merges the two empty shards) and a second write of
    "eve" (routed to shard 1 of 2): both shards hold the key. *)
Definition m_dup : option (list Shard) :=
  m1 ← ApplyTx (bs "eve") (Some (bs "1")) (NewManager 3);
  r ← RebalanceWithProof 2 0.5 m1;
  ApplyTx (bs "eve") (Some (bs "2")) r.1.

(** The outcome of a rebalance, as an observer sees it: the operation, the
    indices it touched, the number of shards and the pairs left. *)
Definition observe (r : list Shard * RebalanceProof) : string * list nat * nat * list KV :=
  (Operation r.2, ShardIndex r.2, length r.1, allKVs r.1).

(** A shard after [n] writes. *)
Definition written (n : nat) : Shard :=
  Nat.iter n (Apply (bs "k") (Some (bs "v"))) NewShard.

Definition m_skewed : list Shard := [written 10; written 10; written 10; written 40].
Definition m_bimodal : list Shard := [written 1; written 1; written 50; written 50].
Definition m_even : list Shard := [written 10; written 10; written 10; written 10].

(** One shard holding a key below 0x80, a key above it and a key with an
    empty value. *)
Definition m_split : list Shard :=
  [Apply (bs "c") (Some []) (Apply [xe9] (Some (bs "2")) (Apply (bs "a") (Some (bs "1")) NewShard))].

(** Two shards with three distinct keys. *)
Definition m_pair : list Shard :=
  [Apply (bs "b") (Some (bs "2")) (Apply (bs "a") (Some (bs "1")) NewShard);
   Apply (bs "c") (Some (bs "3")) NewShard].

(** The same pairs in two orders; "ab" is written before and after its
    prefix "a". *)
Definition kvs_ab_first : list (list byte * option (list byte)) :=
  [(bs "ab", Some (bs "1")); (bs "a", Some (bs "2")); (bs "b", Some (bs "3"))].
Definition kvs_ab_last : list (list byte * option (list byte)) :=
  [(bs "a", Some (bs "2")); (bs "b", Some (bs "3")); (bs "ab", Some (bs "1"))].

(** Two keys below a node without a value. *)
Definition kvs_siblings : list (list byte * option (list byte)) :=
  [(bs "ab", Some (bs "1")); (bs "ac", Some (bs "2"))].

(** A key stored below another stored key. *)
Definition t_prefix : Node :=
  Insert (bs "ab") (Some (bs "2")) (Insert (bs "a") (Some (bs "1")) NewNode).

(** The tries of two shards; "bob" is in neither. *)
Definition st_alice : gmap Z Node :=
  <[0%Z := Insert (bs "alice") (Some (bs "500")) NewNode]> (<[1%Z := NewNode]> ∅).

(** The tries of two shards, "alice" in the first and "bob" in the second. *)
Definition t_alice : Node := Insert (bs "alice") (Some (bs "500")) NewNode.
Definition t_bob : Node := Insert (bs "bob") (Some (bs "7")) NewNode.
Definition st_both : gmap Z Node := <[0%Z := t_alice]> (<[1%Z := t_bob]> ∅).

(** A scheduler over three shards, one of them active per tick, with two
    transactions queued. *)
Definition s_two : Scheduler :=
  mkScheduler (NewManager 3)
              [mkTransaction (bs "a") (Some (bs "v")); mkTransaction (bs "b") (Some (bs "w"))]
              1000000000 1 0 2 0.5.

(** The same with all three shards active per tick. *)
Definition s_all : Scheduler :=
  mkScheduler (NewManager 3)
              [mkTransaction (bs "a") (Some (bs "v")); mkTransaction (bs "b") (Some (bs "w"))]
              1000000000 3 0 2 0.5.

(** A compressed proof of two depths. *)
Definition cp_two : CompressedProof :=
  mkCompressedProof (bs "v") [bs "ab"; []] [[bs "x"; bs "y"]; []].

End examples.

(** * Properties *)

Import trie shard state proof global sim spec examples.

(** ** Test vectors of the hash *)

Example sha256_empty :
  hex (sha256.Sum []) = "e3b0c44298fc1c149afbf4c8996fb92427ae41e4649b934ca495991b7852b855".
Proof. vm_compute. reflexivity. Qed.

Example sha256_abc :
  hex (sha256.Sum (bytes_of_string "abc")) = "ba7816bf8f01cfea414140de5dae2223b00361a396177a9cb410ff61f20015ad".
Proof. vm_compute. reflexivity. Qed.

Example sha256_two_blocks :
  hex (sha256.Sum (bytes_of_string "abcdbcdecdefdefgefghfghighijhijkijkljklmklmnlmnomnopnopq"))
  = "248d6a61d20638b8e5c026930c3e6039a33ce45964ff2167f6ecedd419db06c1".
Proof. vm_compute. reflexivity. Qed.



(** ** Cross-shard proofs *)

(** C7. [VerifyCrossProof] returns no error exactly when both embedded
    proofs verify against the recorded pre-roots and both roots moved;
    otherwise the first violated condition, in the order source proof,
    destination proof, source root, destination root, names the error. *)
Theorem VerifyCrossProof_spec (verifySingle : list byte → list byte → TrieProof → bool) (cp : CrossProof) :
  let srcOk := verifySingle (PreSrcRoot cp) (SrcKey cp) (SrcProof cp) in
  let dstOk := verifySingle (PreDstRoot cp) (DstKey cp) (DstProof cp) in
  (VerifyCrossProof verifySingle cp = None ↔
     srcOk = true ∧ dstOk = true ∧
     PreSrcRoot cp ≠ PostSrcRoot cp ∧ PreDstRoot cp ≠ PostDstRoot cp) ∧
  (srcOk = false → VerifyCrossProof verifySingle cp = Some "invalid source pre‑proof") ∧
  (srcOk = true → dstOk = false →
     VerifyCrossProof verifySingle cp = Some "invalid dest pre‑proof") ∧
  (srcOk = true → dstOk = true → PreSrcRoot cp = PostSrcRoot cp →
     VerifyCrossProof verifySingle cp = Some "source root didn’t change") ∧
  (srcOk = true → dstOk = true → PreSrcRoot cp ≠ PostSrcRoot cp →
     PreDstRoot cp = PostDstRoot cp →
     VerifyCrossProof verifySingle cp = Some "dest root didn’t change").
Proof.
  intros srcOk dstOk. unfold VerifyCrossProof. fold srcOk dstOk.
  destruct srcOk, dstOk; simpl;
    repeat case_bool_decide; split_and!; try split; intros; destruct_and?;
    try done.
Qed.

Lemma bind_Ret {A B} (m : M A) (k : A → M B) st b st' :
  bind m k st = Ret b st' → ∃ a st1, m st = Ret a st1 ∧ k a st1 = Ret b st'.
Proof. unfold bind. destruct (m st) as [|a st1]; [done|]. eauto. Qed.

Lemma rootHashOf_Ret idx st r st' :
  rootHashOf idx st = Ret r st' → st' = st ∧ RootHash <$> st !! idx = Some r.
Proof. unfold rootHashOf. destruct (st !! idx); naive_solver. Qed.

Lemma getProofOf_Ret idx key st r st' :
  getProofOf idx key st = Ret r st' →
  st' = st ∧ ∃ t, st !! idx = Some t ∧ r = GetProof t key.
Proof. unfold getProofOf. destruct (st !! idx); naive_solver. Qed.

Lemma getProofLoop_error node key steps e :
  getProofLoop node key steps = inr e → e = errNotFound.
Proof.
  revert node steps. induction key as [|b key IH]; intros node steps; simpl.
  - destruct node as [n|]; [destruct (value n)|]; congruence.
  - destruct node as [n|]; [apply IH|congruence].
Qed.

Lemma GetProof_error n key e : GetProof n key = inr e → e = errNotFound.
Proof. apply getProofLoop_error. Qed.

(** C10. When [GenerateCrossProof] returns an error, the tries are the
    ones it was called on, so both root hashes are unchanged; the error
    comes from a key that is absent from its trie. *)
Theorem GenerateCrossProof_error_keeps_tries
    (srcShard dstShard : Z) (keyFrom keyTo : list byte) (amount : option (list byte))
    (st st' : gmap Z Node) (err : string) :
  GenerateCrossProof srcShard dstShard keyFrom keyTo amount st = Ret (inr err) st' →
  st' = st ∧
  RootHash <$> st' !! srcShard = RootHash <$> st !! srcShard ∧
  RootHash <$> st' !! dstShard = RootHash <$> st !! dstShard ∧
  ((∃ t, st !! srcShard = Some t ∧ GetProof t keyFrom = inr errNotFound) ∨
   (∃ t, st !! dstShard = Some t ∧ GetProof t keyTo = inr errNotFound)).
Proof.
  intros Hrun. unfold GenerateCrossProof in Hrun.
  apply bind_Ret in Hrun as (srcRoot & st1 & H1 & Hrun).
  apply rootHashOf_Ret in H1 as [-> Hsrc].
  apply bind_Ret in Hrun as (dstRoot & st1 & H1 & Hrun).
  apply rootHashOf_Ret in H1 as [-> Hdst].
  apply bind_Ret in Hrun as (r1 & st1 & H1 & Hrun).
  apply getProofOf_Ret in H1 as [-> (ts & Hts & ->)].
  destruct (GetProof ts keyFrom) as [srcProof|e1] eqn:Hp1.
  - apply bind_Ret in Hrun as (r2 & st1 & H1 & Hrun).
    apply getProofOf_Ret in H1 as [-> (td & Htd & ->)].
    destruct (GetProof td keyTo) as [dstProof|e2] eqn:Hp2.
    + exfalso.
      apply bind_Ret in Hrun as ([] & st1 & _ & Hrun).
      apply bind_Ret in Hrun as ([] & st2 & _ & Hrun).
      apply bind_Ret in Hrun as (r3 & st3 & _ & Hrun).
      apply bind_Ret in Hrun as (r4 & st4 & _ & Hrun).
      unfold ret in Hrun. congruence.
    + unfold ret in Hrun. injection Hrun as _ <-.
      split_and!; [done..|]. right. exists td. split; [done|].
      by rewrite (GetProof_error _ _ _ Hp2) in Hp2.
  - unfold ret in Hrun. injection Hrun as _ <-.
    split_and!; [done..|]. left. exists ts. split; [done|].
    by rewrite (GetProof_error _ _ _ Hp1) in Hp1.
Qed.

(** An instance: the destination key "bob" is absent. *)
Lemma GenerateCrossProof_error_witness :
  GenerateCrossProof 0 1 (bs "alice") (bs "bob") (Some (bs "50")) st_alice
    = Ret (inr "dst proof: key not found") st_alice ∧
  st_alice = st_alice ∧
  RootHash <$> st_alice !! 0%Z = RootHash <$> st_alice !! 0%Z ∧
  RootHash <$> st_alice !! 1%Z = RootHash <$> st_alice !! 1%Z ∧
  ((∃ t, st_alice !! 0%Z = Some t ∧ GetProof t (bs "alice") = inr errNotFound) ∨
   (∃ t, st_alice !! 1%Z = Some t ∧ GetProof t (bs "bob") = inr errNotFound)).
Proof.
  assert (H : GenerateCrossProof 0 1 (bs "alice") (bs "bob") (Some (bs "50")) st_alice
    = Ret (inr "dst proof: key not found") st_alice) by (vm_compute; reflexivity).
  split; [exact H|].
  exact (GenerateCrossProof_error_keeps_tries 0 1 (bs "alice") (bs "bob") (Some (bs "50"))
           st_alice st_alice "dst proof: key not found" H).
Defined.

(** ** The variance of concrete counters *)

Lemma calcStats_skewed : calcStats [10; 10; 10; 40]%Z = (17.5%float, 168.75%float).
Proof. vm_compute. reflexivity. Qed.
Lemma calcStats_bimodal : calcStats [1; 1; 50; 50]%Z = (25.5%float, 600.25%float).
Proof. vm_compute. reflexivity. Qed.
Lemma calcStats_even : calcStats [10; 10; 10; 10]%Z = (10%float, 0%float).
Proof. vm_compute. reflexivity. Qed.

Lemma fmap_length_4 {A B} (f : A → B) (l : list A) (a b c d : B) :
  f <$> l = [a; b; c; d] → ∃ w x y z, l = [w; x; y; z].
Proof.
  destruct l as [|w [|x [|y [|z [|]]]]]; simpl; intros H; try discriminate.
  eauto.
Qed.

(** ** What a merge drops *)

(** C1, at a failing input.  Of three shards with mutation counters
    [0, 1, 0] the rebalance merges shards 0 and 2; the shard between
    them is dropped with the pair it holds, and one shard is left. *)
Theorem merge_drops_shards_between :
  CollectStats <$> m_gap = Some [0; 1; 0]%Z ∧
  allKVs <$> m_gap = Some [mkKV (bs "a") (Some (bs "v"))] ∧
  observe <$> (m_gap ≫= RebalanceWithProof 2 0.5) = Some ("merge", [0; 2], 1, []).
Proof. split_and!; vm_compute; reflexivity. Qed.

(** Counterexample to C2: two shards hold the key "eve"; the merge keeps
    the value of the second shard only. *)
Lemma merge_loses_duplicate_key :
  let before := [mkKV (bs "eve") (Some (bs "1")); mkKV (bs "eve") (Some (bs "2"))] in
  let after := [mkKV (bs "eve") (Some (bs "2"))] in
  allKVs <$> m_dup = Some before ∧
  observe <$> (m_dup ≫= RebalanceWithProof 2 0.5) = Some ("merge", [0; 1], 1, after) ∧
  mkKV (bs "eve") (Some (bs "1")) ∈ before ∧
  mkKV (bs "eve") (Some (bs "1")) ∉ after.
Proof.
  split_and!.
  - vm_compute. reflexivity.
  - vm_compute. reflexivity.
  - left.
  - intros H. apply list_elem_of_singleton in H. discriminate H.
Qed.

(** Counterexample to C3: with "a" stored, the proof of "ab" does not
    verify against the root. *)
Lemma VerifyProof_rejects_key_below_value :
  ∃ p, GetProof t_prefix (bs "ab") = inl p ∧
       VerifyProof (RootHash t_prefix) (bs "ab") p = Some false.
Proof.
  eexists. split.
  - vm_compute. reflexivity.
  - vm_compute. reflexivity.
Qed.

(** Counterexample to C4: the root hash of a fresh node is not the hash
    of the empty input. *)
Lemma RootHash_NewNode_not_empty_hash : RootHash NewNode ≠ sha256.Sum [].
Proof. vm_compute. discriminate. Qed.

(** ** The trie: insertion *)

Lemma byte_of_int_of_byte (b : byte) : byte_of_int (int_of_byte b) = b.
Proof.
  unfold byte_of_int, int_of_byte, byte_of_N.
  assert (Hlt : (Byte.to_N b < 256)%N) by (pose proof (Byte.to_N_bounded b); lia).
  rewrite Z.mod_small by lia.
  rewrite N2Z.id, N.mod_small by lia.
  by rewrite Byte.of_to_N.
Qed.

#[global] Instance int_of_byte_inj : Inj (=) (=) int_of_byte.
Proof.
  intros a b H. rewrite <-(byte_of_int_of_byte a), <-(byte_of_int_of_byte b).
  by rewrite H.
Qed.

Lemma children_computeHash n : children (computeHash n) = children n.
Proof. done. Qed.

Lemma value_computeHash n : value (computeHash n) = value n.
Proof. done. Qed.

Lemma hash_computeHash n : hash (computeHash n) = sha256.Sum (hashInput n).
Proof. done. Qed.

(** The hash input, hence the node [computeHash] returns, depends on the
    value and the children only. *)
Lemma computeHash_ext cs v h h' : computeHash (mkNode cs v h) = computeHash (mkNode cs v h').
Proof. done. Qed.

Lemma Insert_nil val n : Insert [] val n = computeHash (mkNode (children n) val (hash n)).
Proof. by destruct n. Qed.

Lemma Insert_cons b rest val n :
  Insert (b :: rest) val n =
  computeHash (mkNode (<[b := Insert rest val (default NewNode (children n !! b))]> (children n))
                      (value n) (hash n)).
Proof. simpl. by destruct (children n !! b). Qed.

(** Two inserts at different keys commute, whatever the trie. *)
Lemma Insert_comm k1 v1 k2 v2 n :
  k1 ≠ k2 → Insert k1 v1 (Insert k2 v2 n) = Insert k2 v2 (Insert k1 v1 n).
Proof.
  revert k2 n. induction k1 as [|b1 k1 IH]; intros [|b2 k2] n Hne; [done|..].
  - rewrite !Insert_nil, !Insert_cons. done.
  - rewrite !Insert_nil, !Insert_cons. done.
  - rewrite !Insert_cons. cbn [children value hash computeHash].
    destruct (decide (b1 = b2)) as [->|Hb].
    + rewrite !lookup_insert_eq, !insert_insert_eq. cbn [from_option id].
      rewrite IH by congruence. done.
    + rewrite !lookup_insert_ne by done.
      rewrite (insert_insert_ne _ b1 b2) by done. done.
Qed.

Lemma insertAll_cons kv kvs n : insertAll (kv :: kvs) n = insertAll kvs (Insert kv.1 kv.2 n).
Proof. done. Qed.

Lemma insertAll_app kvs1 kvs2 n : insertAll (kvs1 ++ kvs2) n = insertAll kvs2 (insertAll kvs1 n).
Proof. apply foldl_app. Qed.

(** The trie built from a list of pairs with distinct keys does not
    depend on the order of the list. *)
Lemma insertAll_Permutation kvs1 kvs2 n :
  NoDup kvs1.*1 → kvs1 ≡ₚ kvs2 → insertAll kvs1 n = insertAll kvs2 n.
Proof.
  intros Hnd Hp. revert n Hnd.
  induction Hp as [|kv l1 l2 Hp IH|kv1 kv2 l|l1 l2 l3 Hp1 IH1 Hp2 IH2]; intros n Hnd.
  - done.
  - rewrite !insertAll_cons. apply IH. by apply NoDup_cons_1_2 in Hnd.
  - rewrite !insertAll_cons. f_equal. apply Insert_comm.
    rewrite !fmap_cons in Hnd. apply NoDup_cons_1_1 in Hnd. set_solver.
  - rewrite IH1 by done. apply IH2. by rewrite <-Hp1.
Qed.

(** C5. Pairs with pairwise distinct keys, inserted into a fresh trie in
    any two orders, give the same root hash. *)
Theorem RootHash_insertion_order (kvs1 kvs2 : list (list byte * option (list byte))) :
  NoDup kvs1.*1 → kvs1 ≡ₚ kvs2 →
  RootHash (insertAll kvs1 NewNode) = RootHash (insertAll kvs2 NewNode).
Proof. intros Hnd Hp. by rewrite (insertAll_Permutation kvs1 kvs2). Qed.

(** An instance: three pairs, one key a prefix of another, in two orders. *)
Lemma RootHash_insertion_order_witness :
  NoDup kvs_ab_first.*1 ∧ kvs_ab_first ≡ₚ kvs_ab_last ∧
  RootHash (insertAll kvs_ab_first NewNode) = RootHash (insertAll kvs_ab_last NewNode).
Proof.
  assert (Hnd : NoDup kvs_ab_first.*1).
  { apply (bool_decide_unpack _). vm_compute. exact I. }
  assert (Hp : kvs_ab_first ≡ₚ kvs_ab_last).
  { unfold kvs_ab_first, kvs_ab_last. apply Permutation_cons_append. }
  split; [exact Hnd|]. split; [exact Hp|].
  exact (RootHash_insertion_order kvs_ab_first kvs_ab_last Hnd Hp).
Defined.

(** ** The trie: hashes *)

Lemma be_bytes_length width n : length (sha256.be_bytes width n) = width.
Proof. unfold sha256.be_bytes. by rewrite length_fmap, length_rev, length_seq. Qed.

(** A SHA-256 sum has 32 bytes. *)
Lemma Sum_length msg : length (sha256.Sum msg) = 32.
Proof.
  unfold sha256.Sum, sha256.digest_bytes.
  by rewrite !length_app, !be_bytes_length.
Qed.

Lemma Sum_not_nil msg : sha256.Sum msg ≠ [].
Proof. intros H. pose proof (Sum_length msg) as Hl. by rewrite H in Hl. Qed.

(** [sort.Ints] returns the same slice on two enumerations of one set. *)
Lemma sortInts_Permutation ks1 ks2 : ks1 ≡ₚ ks2 → sortInts ks1 = sortInts ks2.
Proof.
  intros Hp. unfold sortInts.
  apply (StronglySorted_unique Z.le); [apply StronglySorted_merge_sort; apply _..|].
  by rewrite !merge_sort_Permutation.
Qed.

Lemma hashInput_ext cs v h h' : hashInput (mkNode cs v h) = hashInput (mkNode cs v h').
Proof. done. Qed.

Lemma hashInput_computeHash n : hashInput (computeHash n) = hashInput n.
Proof. done. Qed.

Lemma hashInput_leaf v h : hashInput (mkNode ∅ (Some v) h) = [x00] ++ v.
Proof. unfold hashInput. simpl. by rewrite map_to_list_empty. Qed.

Lemma hashInput_NewNode : hashInput NewNode = [].
Proof. unfold hashInput. simpl. by rewrite map_to_list_empty. Qed.

Lemma Insert_hash key val n : hash (Insert key val n) = sha256.Sum (hashInput (Insert key val n)).
Proof. destruct key; simpl; by rewrite hashInput_computeHash. Qed.

Lemma nodeAt_cons n b key : nodeAt n (b :: key) = children n !! b ≫= λ c, nodeAt c key.
Proof. done. Qed.

Lemma nodeAt_nil n n' : nodeAt n [] = Some n' → n' = n.
Proof. simpl. congruence. Qed.

Lemma hashed_child n b c : hashed n → children n !! b = Some c → hashed c.
Proof.
  intros Hn Hc key n' Hk. apply (Hn (b :: key)). by rewrite nodeAt_cons, Hc.
Qed.

Lemma hashed_NewNode_children b c : children NewNode !! b = Some c → hashed c.
Proof. simpl. by rewrite lookup_empty. Qed.

(** An insert leaves every node of the trie with the hash of its content,
    provided the subtries below the root had theirs (the root itself may
    be a fresh node, whose hash was never computed). *)
Lemma hashed_Insert key val n :
  (∀ b c, children n !! b = Some c → hashed c) → hashed (Insert key val n).
Proof.
  revert n. induction key as [|b key IH]; intros n Hn [|b' path] n' Hp.
  - apply nodeAt_nil in Hp as ->. apply Insert_hash.
  - rewrite Insert_nil, nodeAt_cons in Hp. cbn [children computeHash] in Hp.
    destruct (children n !! b') as [c|] eqn:Hc; [|done].
    by apply (Hn _ _ Hc path).
  - apply nodeAt_nil in Hp as ->. apply Insert_hash.
  - rewrite Insert_cons, nodeAt_cons in Hp. cbn [children computeHash] in Hp.
    destruct (decide (b' = b)) as [->|Hb].
    + rewrite lookup_insert_eq in Hp. simpl in Hp.
      refine (IH _ _ path n' Hp).
      destruct (children n !! b) as [c|] eqn:Hc; simpl.
      * intros b2 c2 Hc2. eapply hashed_child; [|exact Hc2]. by eapply Hn.
      * apply hashed_NewNode_children.
    + rewrite lookup_insert_ne in Hp by done.
      destruct (children n !! b') as [c|] eqn:Hc; [|done].
      by apply (Hn _ _ Hc path).
Qed.

Lemma hashed_insertAll kvs n : hashed n → hashed (insertAll kvs n).
Proof.
  revert n. induction kvs as [|kv kvs IH]; intros n Hn; [done|].
  rewrite insertAll_cons. apply IH, hashed_Insert.
  intros b c. by apply hashed_child.
Qed.

Lemma hashed_insertAll_NewNode kvs : kvs ≠ [] → hashed (insertAll kvs NewNode).
Proof.
  destruct kvs as [|kv kvs]; [done|]. intros _.
  rewrite insertAll_cons. apply hashed_insertAll, hashed_Insert.
  apply hashed_NewNode_children.
Qed.

(** C4, amended. The root hash of a fresh node is the empty byte string:
    nothing is hashed before the first insert.  It differs from the hash
    of every node, of a trie built by inserts, that carries a value or
    children.  The hash over the empty input is the one [computeHash]
    gives a node without value and children. *)
Theorem RootHash_NewNode :
  RootHash NewNode = [] ∧
  RootHash (computeHash NewNode) = sha256.Sum [] ∧
  ∀ (kvs : list (list byte * option (list byte))) (key : list byte) (n : Node),
    nodeAt (insertAll kvs NewNode) key = Some n →
    value n ≠ None ∨ children n ≠ ∅ →
    hash n ≠ RootHash NewNode ∧ length (hash n) = 32.
Proof.
  split_and!; [done| |].
  - unfold RootHash. by rewrite hash_computeHash, hashInput_NewNode.
  - intros kvs key n Hn Hcarries.
    destruct kvs as [|kv kvs].
    + destruct key as [|b key]; simpl in Hn.
      * apply nodeAt_nil in Hn as ->. simpl in Hcarries. by destruct Hcarries.
      * by rewrite lookup_empty in Hn.
    + rewrite (hashed_insertAll_NewNode (kv :: kvs) ltac:(done) key n Hn).
      split; [apply Sum_not_nil|apply Sum_length].
Qed.

(** An instance: the root after one insert. *)
Lemma RootHash_NewNode_witness :
  hash (insertAll [(bs "a", Some (bs "1"))] NewNode) ≠ RootHash NewNode ∧
  length (hash (insertAll [(bs "a", Some (bs "1"))] NewNode)) = 32.
Proof.
  destruct RootHash_NewNode as (_ & _ & Hbuilt).
  apply (Hbuilt [(bs "a", Some (bs "1"))] [] (insertAll [(bs "a", Some (bs "1"))] NewNode) eq_refl).
  right. change (bs "a") with [x61]. cbn [insertAll foldl fst snd].
  rewrite Insert_cons. cbn [children computeHash]. apply insert_non_empty.
Defined.

(** ** The trie: inclusion proofs *)

Lemma foldl_ext {A B} (f g : A → B → A) (a : A) (l : list B) :
  (∀ a x, f a x = g a x) → foldl f a l = foldl g a l.
Proof. intros Hfg. revert a. induction l as [|x l IH]; intros a; [done|]. simpl. by rewrite Hfg, IH. Qed.

(** The sibling map of a step holds the hash of every child but the one
    the key follows. *)
Lemma siblings_delete b cs : siblings b cs = hash <$> delete b cs.
Proof.
  unfold siblings.
  apply (map_fold_weak_ind (λ r m, r = hash <$> delete b m)).
  - by rewrite delete_empty, fmap_empty.
  - intros sb sib m r Hsb ->. case_decide as Hne.
    + by rewrite delete_insert_ne, fmap_insert.
    + subst sb. rewrite delete_insert_eq. by rewrite delete_id.
Qed.

Lemma valueAt_nil n : valueAt n [] = value n.
Proof. done. Qed.

Lemma valueAt_cons n b key : valueAt n (b :: key) = children n !! b ≫= λ c, valueAt c key.
Proof. unfold valueAt. simpl. by destruct (children n !! b). Qed.

Lemma valueAt_NewNode key : valueAt NewNode key = None.
Proof.
  destruct key; [done|]. rewrite valueAt_cons. unfold NewNode. cbn [children].
  by rewrite lookup_empty.
Qed.

(** An insert sets the value at its key and no other. *)
Lemma valueAt_Insert key val n key' :
  valueAt (Insert key val n) key' = if decide (key' = key) then val else valueAt n key'.
Proof.
  revert n key'. induction key as [|b key IH]; intros n [|b' key'].
  - by rewrite Insert_nil.
  - rewrite Insert_nil, !valueAt_cons. by case_decide.
  - rewrite Insert_cons. by case_decide.
  - rewrite Insert_cons, !valueAt_cons. cbn [children computeHash].
    destruct (decide (b' = b)) as [->|Hb].
    + rewrite lookup_insert_eq. simpl. rewrite IH.
      destruct (decide (key' = key)) as [->|Hk].
      * by rewrite decide_True.
      * rewrite decide_False by congruence.
        destruct (children n !! b); [done|apply valueAt_NewNode].
    + rewrite lookup_insert_ne by done. rewrite decide_False by congruence. done.
Qed.

Lemma valueAt_insertAll_notin kvs n key :
  key ∉ kvs.*1 → valueAt (insertAll kvs n) key = valueAt n key.
Proof.
  revert n. induction kvs as [|kv kvs IH]; intros n Hk; [done|].
  rewrite fmap_cons, not_elem_of_cons in Hk. destruct Hk as [Hne Hk].
  rewrite insertAll_cons, IH, valueAt_Insert by done.
  by rewrite decide_False.
Qed.

Lemma getProofLoop_None key steps : getProofLoop None key steps = inr errNotFound.
Proof. by destruct key. Qed.

Lemma getProofLoop_Some n key steps :
  getProofLoop (Some n) key steps =
  match valueAt n key with
  | Some v => inl (mkProof v (steps ++ proofSteps n key))
  | None => inr errNotFound
  end.
Proof.
  revert n steps. induction key as [|b key IH]; intros n steps.
  - simpl. rewrite valueAt_nil, app_nil_r. done.
  - simpl. rewrite valueAt_cons.
    destruct (children n !! b) as [c|]; simpl.
    + rewrite IH. destruct (valueAt c key); [|done]. by rewrite <-app_assoc.
    + apply getProofLoop_None.
Qed.

(** [GetProof] succeeds exactly on the keys that hold a value. *)
Lemma GetProof_valueAt n key :
  GetProof n key =
  match valueAt n key with
  | Some v => inl (mkProof v (proofSteps n key))
  | None => inr errNotFound
  end.
Proof. unfold GetProof. by rewrite getProofLoop_Some. Qed.

Lemma proofSteps_length n key : is_Some (nodeAt n key) → length (proofSteps n key) = length key.
Proof.
  revert n. induction key as [|b key IH]; intros n; [done|].
  simpl. destruct (children n !! b) as [c|]; simpl.
  - intros Hc. by rewrite IH.
  - by intros [? ?].
Qed.

(** The climb over [b :: key] is the climb over [key] followed by the
    step at depth 0. *)
Lemma climb_cons b key s steps m current :
  climb (b :: key) (s :: steps) (S m) current =
  climb key steps m current ≫= λ c, Some (verifyStep b s c).
Proof.
  revert current. induction m as [|m IH]; intros current; [done|].
  change (climb (b :: key) (s :: steps) (S (S m)) current) with
    (match steps !! m, key !! m with
     | Some sibMap, Some kb => climb (b :: key) (s :: steps) (S m) (verifyStep kb sibMap current)
     | _, _ => None
     end).
  simpl. destruct (steps !! m), (key !! m); try done. apply IH.
Qed.

(** On a node without a value, the step of the climb recomputes the hash
    input of [computeHash] from the sibling map and the child's hash. *)
Lemma verifyStep_hashInput n b c :
  value n = None → children n !! b = Some c →
  verifyStep b (siblings b (children n)) (hash c) = sha256.Sum (hashInput n).
Proof.
  intros Hv Hc. unfold verifyStep, hashInput. rewrite Hv, siblings_delete.
  f_equal.
  assert (Hks : sortInts (elements
            ({[int_of_byte b]} ∪ list_to_set (int_of_byte <$> (map_to_list (hash <$> delete b (children n))).*1) : gset Z))
          = sortInts (int_of_byte <$> (map_to_list (children n)).*1)).
  { apply sortInts_Permutation, NoDup_Permutation.
    - apply NoDup_elements.
    - apply (NoDup_fmap_2 _), NoDup_fst_map_to_list.
    - intros z. rewrite elem_of_elements, elem_of_union, elem_of_singleton,
        elem_of_list_to_set, <-!list_fmap_compose, !list_elem_of_fmap.
      split.
      + intros [->|([sb h] & -> & Hin)].
        * exists (b, c). split; [done|]. by apply elem_of_map_to_list.
        * apply elem_of_map_to_list in Hin.
          rewrite lookup_fmap, fmap_Some in Hin. destruct Hin as (c' & Hc' & _).
          apply lookup_delete_Some in Hc' as [_ Hc'].
          exists (sb, c'). split; [done|]. by apply elem_of_map_to_list.
      + intros ([sb c'] & -> & Hin). simpl.
        apply elem_of_map_to_list in Hin.
        destruct (decide (sb = b)) as [->|Hne]; [by left|right].
        exists (sb, hash c'). split; [done|]. apply elem_of_map_to_list.
        by rewrite lookup_fmap, lookup_delete_ne, Hin. }
  rewrite Hks. apply foldl_ext. intros buf ki. do 3 f_equal.
  case_decide as Hb.
  - by rewrite Hb, Hc.
  - rewrite lookup_fmap, lookup_delete_ne by done.
    by destruct (children n !! byte_of_int ki).
Qed.

Lemma hashInput_no_children n v : value n = Some v → children n = ∅ → hashInput n = [x00] ++ v.
Proof. intros Hv Hc. unfold hashInput. rewrite Hv, Hc, map_to_list_empty. done. Qed.

(** The climb rebuilds the root hash when the key ends in a node without
    children and passes through nodes without values. *)
Lemma climb_proofSteps n key leaf v :
  hashed n → nodeAt n key = Some leaf → value leaf = Some v → children leaf = ∅ →
  (∀ key', key' ≠ key → key' `prefix_of` key → valueAt n key' = None) →
  climb key (proofSteps n key) (length key) (sha256.Sum ([x00] ++ v)) = Some (hash n).
Proof.
  revert n. induction key as [|b key IH]; intros n Hn Hleaf Hv Hcs Hanc.
  - apply nodeAt_nil in Hleaf as ->. simpl.
    rewrite (Hn [] n) by done. by rewrite (hashInput_no_children n v).
  - rewrite nodeAt_cons in Hleaf.
    destruct (children n !! b) as [c|] eqn:Hc; [|done]. simpl in Hleaf.
    cbn [proofSteps length]. rewrite Hc, climb_cons.
    rewrite (IH c); [|by eapply hashed_child|done|done|done|].
    + simpl. rewrite verifyStep_hashInput; [|by apply (Hanc [] ltac:(done)), prefix_nil|done].
      by rewrite (Hn [] n).
    + intros key' Hne Hpre.
      specialize (Hanc (b :: key') ltac:(congruence) ltac:(by apply prefix_cons)).
      by rewrite valueAt_cons, Hc in Hanc.
Qed.

(** C3, amended. In a trie built by inserts, [GetProof] succeeds on every
    key that holds a value and returns that value with one step per key
    byte; the proof verifies against the root hash when the key's node
    has no children and no proper prefix of the key holds a value.  On a
    key never inserted [GetProof] fails with "key not found". *)
Theorem proof_round_trip (kvs : list (list byte * option (list byte))) (key : list byte) :
  let t := insertAll kvs NewNode in
  (∀ v, valueAt t key = Some v →
     ∃ p, GetProof t key = inl p ∧ Value p = v ∧ length (Steps p) = length key ∧
          ((∀ leaf, nodeAt t key = Some leaf → children leaf = ∅) →
           (∀ key', key' ≠ key → key' `prefix_of` key → valueAt t key' = None) →
           VerifyProof (RootHash t) key p = Some true)) ∧
  (key ∉ kvs.*1 → GetProof t key = inr errNotFound).
Proof.
  intros t. split.
  - intros v Hv. exists (mkProof v (proofSteps t key)).
    assert (∃ leaf, nodeAt t key = Some leaf ∧ value leaf = Some v) as (leaf & Hleaf & Hval).
    { unfold valueAt in Hv. destruct (nodeAt t key) as [leaf|]; [|done]. by exists leaf. }
    split_and!.
    + by rewrite GetProof_valueAt, Hv.
    + done.
    + simpl. apply proofSteps_length. by rewrite Hleaf.
    + intros Hcs Hanc. unfold VerifyProof. cbn [Steps Value].
      rewrite (climb_proofSteps t key leaf v); [| |done|done|by apply Hcs|done].
      * simpl. by rewrite bool_decide_eq_true_2.
      * apply hashed_insertAll_NewNode. intros ->.
        subst t. by rewrite valueAt_NewNode in Hv.
  - intros Hk. rewrite GetProof_valueAt. subst t.
    by rewrite valueAt_insertAll_notin, valueAt_NewNode.
Qed.

(** An instance: "ab" beside "ac", below nodes without values. *)
Lemma proof_round_trip_witness :
  ∃ p, GetProof (insertAll kvs_siblings NewNode) (bs "ab") = inl p ∧
       VerifyProof (RootHash (insertAll kvs_siblings NewNode)) (bs "ab") p = Some true.
Proof.
  destruct (proof_round_trip kvs_siblings (bs "ab")) as [Hpresent _].
  destruct (Hpresent (bs "1")) as (p & Hp & _ & _ & Hverify).
  { vm_compute. reflexivity. }
  exists p. split; [exact Hp|]. apply Hverify.
  - intros leaf Hleaf.
    assert (E : children <$> nodeAt (insertAll kvs_siblings NewNode) (bs "ab") = Some ∅).
    { vm_compute. reflexivity. }
    rewrite Hleaf in E. by injection E.
  - intros key' Hne [rest Hrest].
    destruct key' as [|x [|y [|z key']]].
    + vm_compute. reflexivity.
    + injection Hrest as <- _. vm_compute. reflexivity.
    + injection Hrest as <- <- _. done.
    + discriminate Hrest.
Defined.

(** ** Compressed proofs *)

(** *** The sort of [CompressProof] *)

Lemma insert_replace_Permutation {A} (l : list A) j x y :
  l !! j = Some y → y :: <[j := x]> l ≡ₚ x :: l.
Proof.
  revert j. induction l as [|a l IH]; intros [|j] Hj; try done; simpl in *.
  - injection Hj as ->. apply perm_swap.
  - rewrite (perm_swap a y), (perm_swap a x). by rewrite IH.
Qed.

Lemma insert_swap_Permutation {A} (l : list A) i j x y :
  l !! i = Some x → l !! j = Some y → <[j := x]> (<[i := y]> l) ≡ₚ l.
Proof.
  revert i j. induction l as [|a l IH]; intros [|i] [|j] Hi Hj; try done; simpl in *.
  - by simplify_eq.
  - injection Hi as ->. by apply insert_replace_Permutation.
  - injection Hj as ->. by apply insert_replace_Permutation.
  - by rewrite IH.
Qed.

Lemma swapIfLess_Permutation i j keys : swapIfLess i j keys ≡ₚ keys.
Proof.
  unfold swapIfLess.
  destruct (keys !! i) as [ki|] eqn:Hi, (keys !! j) as [kj|] eqn:Hj; try done.
  destruct (byte_ltb kj ki); [|done]. by apply insert_swap_Permutation.
Qed.

Lemma swapIfLess_length i j keys : length (swapIfLess i j keys) = length keys.
Proof. by rewrite swapIfLess_Permutation. Qed.

Lemma innerLoop_Permutation i keys : innerLoop i keys ≡ₚ keys.
Proof.
  unfold innerLoop. generalize (seq (S i) (length keys - S i)). intros js.
  revert keys. induction js as [|j js IH]; intros keys; [done|].
  simpl. by rewrite IH, swapIfLess_Permutation.
Qed.

Lemma simpleSort_Permutation keys : simpleSort keys ≡ₚ keys.
Proof.
  unfold simpleSort. generalize (seq 0 (length keys)). intros idxs.
  revert keys. induction idxs as [|i idxs IH]; intros keys; [done|].
  simpl. by rewrite IH, innerLoop_Permutation.
Qed.

Lemma lookup_swap (keys : list byte) i j ki kj c :
  i ≠ j → keys !! i = Some ki → keys !! j = Some kj →
  <[j := ki]> (<[i := kj]> keys) !! c =
  if decide (c = j) then Some ki else if decide (c = i) then Some kj else keys !! c.
Proof.
  intros Hij Hi Hj.
  apply lookup_lt_Some in Hi as Hil. apply lookup_lt_Some in Hj as Hjl.
  rewrite !list_lookup_insert, length_insert.
  repeat case_decide; try done; lia.
Qed.

Lemma swapIfLess_min_upto i j keys :
  i < j → min_upto i j keys → min_upto i (S j) (swapIfLess i j keys).
Proof.
  intros Hij [Hsorted Hmin]. unfold swapIfLess.
  destruct (keys !! i) as [ki|] eqn:Hi, (keys !! j) as [kj|] eqn:Hj.
  - destruct (byte_ltb kj ki) eqn:Hlt; unfold byte_ltb in Hlt.
    + apply N.ltb_lt in Hlt. split.
      * intros a b Ha Hab x y.
        rewrite !(lookup_swap keys i j ki kj) by (done || lia).
        rewrite (decide_False (P := a = j)), (decide_False (P := a = i)) by lia.
        intros Hx. repeat case_decide; intros Hy; simplify_eq.
        -- by apply (Hsorted a i Ha ltac:(lia) x y).
        -- by apply (Hsorted a j Ha ltac:(lia) x y).
        -- by apply (Hsorted a b Ha Hab x y).
      * intros b Hb x y.
        rewrite !(lookup_swap keys i j ki kj) by (done || lia).
        rewrite (decide_False (P := i = j)), (decide_True (P := i = i)) by lia.
        intros Hx. repeat case_decide; intros Hy; simplify_eq; try lia.
        pose proof (Hmin b ltac:(lia) ki y Hi Hy). lia.
    + apply N.ltb_ge in Hlt. split; [done|].
      intros b Hb x y Hx Hy.
      destruct (decide (b = j)) as [->|Hne].
      * simplify_eq. done.
      * apply (Hmin b ltac:(lia) x y Hx Hy).
  - split; [done|]. intros b Hb x y Hx Hy.
    destruct (decide (b = j)) as [->|Hne]; [congruence|].
    apply (Hmin b ltac:(lia) x y Hx Hy).
  - split; [done|]. intros b Hb x y Hx Hy. congruence.
  - split; [done|]. intros b Hb x y Hx Hy. congruence.
Qed.

Lemma foldl_swapIfLess_min_upto i j n keys :
  i < j → min_upto i j keys →
  min_upto i (j + n) (foldl (λ ks j, swapIfLess i j ks) keys (seq j n)).
Proof.
  revert j keys. induction n as [|n IH]; intros j keys Hij Hinv.
  - by rewrite Nat.add_0_r.
  - simpl. replace (j + S n) with (S j + n) by lia.
    apply IH; [lia|]. by apply swapIfLess_min_upto.
Qed.

Lemma innerLoop_sorted_upto i keys :
  sorted_upto i keys → sorted_upto (S i) (innerLoop i keys).
Proof.
  intros Hsorted.
  destruct (foldl_swapIfLess_min_upto i (S i) (length keys - S i) keys) as [Hs Hm].
  { lia. }
  { split; [done|]. intros b Hb. lia. }
  fold (innerLoop i keys) in Hs, Hm.
  intros a b Ha Hab x y Hx Hy.
  destruct (decide (a = i)) as [->|Hne].
  - apply (Hm b); [|done..]. split; [done|].
    apply lookup_lt_Some in Hy. rewrite innerLoop_Permutation in Hy. lia.
  - apply (Hs a b); [lia|done..].
Qed.

Lemma foldl_innerLoop_sorted_upto k n keys :
  sorted_upto k keys → sorted_upto (k + n) (foldl (λ ks i, innerLoop i ks) keys (seq k n)).
Proof.
  revert k keys. induction n as [|n IH]; intros k keys Hinv.
  - by rewrite Nat.add_0_r.
  - simpl. replace (k + S n) with (S k + n) by lia.
    apply IH. by apply innerLoop_sorted_upto.
Qed.

Lemma simpleSort_le_at keys a b : a < b → le_at (simpleSort keys) a b.
Proof.
  intros Hab x y Hx Hy.
  pose proof (foldl_innerLoop_sorted_upto 0 (length keys) keys) as Hs.
  fold (simpleSort keys) in Hs.
  apply (Hs ltac:(intros ? ?; lia) a b); [|done..].
  apply lookup_lt_Some in Hx. rewrite simpleSort_Permutation in Hx. lia.
Qed.

Lemma StronglySorted_lookup {A} (R : relation A) (l : list A) :
  (∀ a b x y, a < b → l !! a = Some x → l !! b = Some y → R x y) → StronglySorted R l.
Proof.
  induction l as [|z l IH]; intros H; constructor.
  - apply IH. intros a b x y Hab Hx Hy. by apply (H (S a) (S b) x y); [lia|..].
  - apply Forall_lookup. intros b y Hy. by apply (H 0 (S b) z y); [lia|..].
Qed.

(** The simple sort returns the keys in strictly ascending order when
    they are distinct, as the keys of a map are. *)
Lemma simpleSort_sorted keys : NoDup keys → StronglySorted byte_lt (simpleSort keys).
Proof.
  intros Hnd. apply StronglySorted_lookup. intros a b x y Hab Hx Hy.
  pose proof (simpleSort_le_at keys a b Hab x y Hx Hy) as Hle.
  unfold byte_lt. apply N.le_neq. split; [done|].
  intros Heq. assert (x = y) as ->.
  { apply (inj Some). by rewrite <-(Byte.of_to_N x), <-(Byte.of_to_N y), Heq. }
  rewrite <-simpleSort_Permutation in Hnd.
  pose proof (NoDup_lookup _ _ _ _ Hnd Hx Hy). lia.
Qed.

(** *** Round trip *)

(** The loop of [DecompressProof] over keys whose hashes stand, in the
    same order, behind the first [j] hashes. *)
Lemma decompressLoop_aligned (sibMap m : gmap byte (list byte)) (keys : list byte) pre :
  decompressLoop (length pre) keys
    (Some (pre ++ ((λ k, default [] (sibMap !! k)) <$> keys))) m =
  Some (foldl (λ m k, <[k := default [] (sibMap !! k)]> m) m keys).
Proof.
  revert pre m. induction keys as [|k keys IH]; intros pre m; [done|].
  cbn [decompressLoop foldl fmap list_fmap]. cbn [mbind option_bind].
  rewrite lookup_app_r, Nat.sub_diag by done. cbn [lookup list_lookup mbind option_bind].
  specialize (IH (pre ++ [default [] (sibMap !! k)]) (<[k := default [] (sibMap !! k)]> m)).
  rewrite length_app, Nat.add_1_r, <-app_assoc in IH. apply IH.
Qed.

Lemma lookup_foldl_insert (sibMap m : gmap byte (list byte)) (keys : list byte) (k : byte) :
  foldl (λ m k, <[k := default [] (sibMap !! k)]> m) m keys !! k =
  if decide (k ∈ keys) then Some (default [] (sibMap !! k)) else m !! k.
Proof.
  revert m. induction keys as [|k' keys IH]; intros m; [done|].
  simpl. rewrite IH. destruct (decide (k = k')) as [->|Hne].
  - rewrite lookup_insert_eq, (decide_True (P := k' ∈ k' :: keys)) by left.
    by case_decide.
  - rewrite lookup_insert_ne by done.
    case_decide as Hin.
    + by rewrite decide_True by by right.
    + rewrite decide_False; [done|]. rewrite elem_of_cons. by intros [?|?].
Qed.

(** Decompressing one compressed step gives back the sibling map. *)
Lemma decompressLoop_compressStep (sibMap : gmap byte (list byte)) :
  decompressLoop 0 (compressStep sibMap).1 (Some (compressStep sibMap).2) ∅ = Some sibMap.
Proof.
  unfold compressStep. cbn [fst snd].
  etrans; [exact (decompressLoop_aligned sibMap ∅ _ [])|]. f_equal.
  apply map_eq. intros k. rewrite lookup_foldl_insert, lookup_empty.
  case_decide as Hin.
  - rewrite simpleSort_Permutation in Hin.
    apply list_elem_of_fmap in Hin as ([k' h] & -> & Hin).
    apply elem_of_map_to_list in Hin. cbn [fst]. by rewrite Hin.
  - destruct (sibMap !! k) as [h|] eqn:Hk; [|done].
    exfalso. apply Hin. rewrite simpleSort_Permutation.
    apply list_elem_of_fmap. exists (k, h). split; [done|].
    by apply elem_of_map_to_list.
Qed.

Lemma decompressSteps_compressStep steps (pre : list (list (list byte))) :
  decompressSteps (length pre) ((compressStep <$> steps).*1)
    (pre ++ (compressStep <$> steps).*2) = Some steps.
Proof.
  revert pre. induction steps as [|sibMap steps IH]; intros pre; [done|].
  cbn [fmap list_fmap decompressSteps].
  rewrite lookup_app_r, Nat.sub_diag by done. cbn [lookup list_lookup].
  rewrite decompressLoop_compressStep. cbn [mbind option_bind].
  specialize (IH (pre ++ [(compressStep sibMap).2])).
  rewrite length_app, Nat.add_1_r, <-app_assoc in IH.
  cbn [app] in IH. by rewrite IH.
Qed.

(** C8. Decompressing the compression of a proof gives the proof back:
    the same value, the same number of steps, and at each depth the same
    sibling labels with the same hashes.  In the compressed proof the key
    list of each depth is in ascending order and as long as its hash
    list. *)
Theorem compress_round_trip (p : TrieProof) :
  DecompressProof (CompressProof p) = Some p ∧
  CValue (CompressProof p) = Value p ∧
  length (SibKeys (CompressProof p)) = length (Steps p) ∧
  Forall (StronglySorted byte_lt) (SibKeys (CompressProof p)) ∧
  Forall2 (λ keys hashes, length keys = length hashes)
          (SibKeys (CompressProof p)) (SibHashes (CompressProof p)).
Proof.
  destruct p as [v steps]. unfold CompressProof, DecompressProof. cbn [Value Steps SibKeys SibHashes CValue].
  split_and!.
  - pose proof (decompressSteps_compressStep steps []) as Hs.
    cbn [length app] in Hs. by rewrite Hs.
  - done.
  - by rewrite !length_fmap.
  - apply Forall_fmap, Forall_fmap, Forall_forall. intros sibMap _. simpl.
    apply simpleSort_sorted, NoDup_fst_map_to_list.
  - apply Forall2_fmap, Forall_Forall2_diag, Forall_fmap, Forall_forall.
    intros sibMap _. simpl. by rewrite length_fmap.
Qed.

(** ** Traversal *)

Lemma walk_unfold n prefix :
  walk n prefix =
  match value n with
  | Some x => [mkKV prefix (copyBytes x)]
  | None => []
  end ++ childrenKVs (children n) prefix.
Proof. by destruct n. Qed.

Lemma childrenKVs_concat cs prefix :
  childrenKVs cs prefix = mjoin ((λ bc, walk bc.2 (prefix ++ [bc.1])) <$> map_to_list cs).
Proof.
  unfold childrenKVs. rewrite map_fold_foldr.
  induction (map_to_list cs) as [|[b c] l IH]; [done|]. simpl. by rewrite IH.
Qed.

Lemma childrenKVs_empty prefix : childrenKVs ∅ prefix = [].
Proof. by rewrite childrenKVs_concat, map_to_list_empty. Qed.

Lemma childrenKVs_insert cs b c prefix :
  cs !! b = None →
  childrenKVs (<[b := c]> cs) prefix ≡ₚ walk c (prefix ++ [b]) ++ childrenKVs cs prefix.
Proof.
  intros Hb. rewrite !childrenKVs_concat.
  by rewrite (map_to_list_insert cs b c Hb).
Qed.

(** Replacing or adding the child under [b]. *)
Lemma childrenKVs_insert_default cs b c prefix :
  childrenKVs (<[b := c]> cs) prefix ≡ₚ
  walk c (prefix ++ [b]) ++ childrenKVs (delete b cs) prefix.
Proof.
  rewrite <-(insert_delete_eq cs). apply childrenKVs_insert, lookup_delete_eq.
Qed.

Lemma childrenKVs_lookup cs b c prefix :
  cs !! b = Some c →
  childrenKVs cs prefix ≡ₚ walk c (prefix ++ [b]) ++ childrenKVs (delete b cs) prefix.
Proof.
  intros Hb. rewrite <-(insert_id cs b c Hb) at 1. apply childrenKVs_insert_default.
Qed.

Lemma walk_NewNode prefix : walk NewNode prefix = [].
Proof. unfold NewNode. by rewrite walk_unfold, childrenKVs_empty. Qed.

(** Writing a non-nil value at a key that holds none adds one pair to the
    traversal. *)
Lemma walk_Insert_fresh key v n prefix :
  valueAt n key = None →
  walk (Insert key (Some v) n) prefix ≡ₚ mkKV (prefix ++ key) (copyBytes v) :: walk n prefix.
Proof.
  revert n prefix. induction key as [|b key IH]; intros n prefix Hnone.
  - rewrite Insert_nil, !walk_unfold. cbn [value children computeHash].
    rewrite valueAt_nil in Hnone. by rewrite Hnone, app_nil_r.
  - rewrite Insert_cons, !walk_unfold. cbn [value children computeHash].
    rewrite valueAt_cons in Hnone.
    rewrite childrenKVs_insert_default.
    destruct (children n !! b) as [c|] eqn:Hc; simpl in Hnone |- *.
    + rewrite (IH c) by done. rewrite (childrenKVs_lookup (children n) b c) by done.
      rewrite <-?app_assoc. cbn [app]. symmetry. apply Permutation_middle.
    + rewrite (IH NewNode) by apply valueAt_NewNode.
      rewrite walk_NewNode, delete_id by done.
      rewrite <-?app_assoc. cbn [app]. symmetry. apply Permutation_middle.
Qed.

Lemma node_size_child n b c : children n !! b = Some c → node_size c < node_size n.
Proof.
  destruct n as [cs v h]. cbn [children node_size]. intros Hc.
  rewrite map_fold_foldr. apply elem_of_map_to_list in Hc.
  induction (map_to_list cs) as [|[b' c'] l IH]; [by apply elem_of_nil in Hc|].
  apply elem_of_cons in Hc as [Heq|Hin]; simpl.
  - injection Heq as <- <-. lia.
  - specialize (IH Hin). lia.
Qed.

(** Induction on a trie from its children. *)
Lemma Node_child_ind (P : Node → Prop) :
  (∀ n, (∀ b c, children n !! b = Some c → P c) → P n) → ∀ n, P n.
Proof.
  intros Hstep n. remember (node_size n) as k eqn:Hk. revert n Hk.
  induction k as [k IH] using lt_wf_ind. intros n ->.
  apply Hstep. intros b c Hc.
  apply (IH (node_size c)); [by eapply node_size_child|done].
Qed.

Lemma elem_of_walk n prefix kv :
  kv ∈ walk n prefix ↔
  (∃ x, value n = Some x ∧ kv = mkKV prefix (copyBytes x)) ∨
  (∃ b c, children n !! b = Some c ∧ kv ∈ walk c (prefix ++ [b])).
Proof.
  rewrite walk_unfold, elem_of_app, childrenKVs_concat, list_elem_of_join.
  assert (kv ∈ match value n with
               | Some x => [mkKV prefix (copyBytes x)]
               | None => []
               end ↔ ∃ x, value n = Some x ∧ kv = mkKV prefix (copyBytes x)) as ->.
  { destruct (value n) as [x|].
    - rewrite list_elem_of_singleton.
      split; [intros ->; by exists x|by intros (? & [= <-] & ->)].
    - rewrite elem_of_nil. split; [done|by intros (? & ? & ?)]. }
  assert ((∃ l, kv ∈ l ∧ l ∈ (λ bc : byte * Node, walk bc.2 (prefix ++ [bc.1])) <$> map_to_list (children n))
          ↔ ∃ b c, children n !! b = Some c ∧ kv ∈ walk c (prefix ++ [b])) as ->; [|done].
  split.
  - intros (l & Hkv & Hl). apply list_elem_of_fmap in Hl as ([b c] & -> & Hbc).
    apply elem_of_map_to_list in Hbc. by exists b, c.
  - intros (b & c & Hc & Hkv). exists (walk c (prefix ++ [b])). split; [done|].
    apply list_elem_of_fmap. exists (b, c). split; [done|].
    by apply elem_of_map_to_list.
Qed.

(** The key of a traversed pair extends the prefix of the walk, and its
    value went through [append([]byte(nil), v...)]. *)
Lemma walk_elem n :
  ∀ prefix kv, kv ∈ walk n prefix →
    prefix `prefix_of` Key kv ∧ ∃ x, KValue kv = copyBytes x.
Proof.
  induction n as [n IH] using Node_child_ind. intros prefix kv Hkv.
  apply elem_of_walk in Hkv as [(x & _ & ->)|(b & c & Hc & Hkv)].
  - split; [done|by exists x].
  - destruct (IH b c Hc _ _ Hkv) as [Hpre Hval]. split; [|done].
    etrans; [|exact Hpre]. by apply prefix_app_r.
Qed.

Lemma copyBytes_Some x v : copyBytes x = Some v → copyBytes v = Some v.
Proof. destruct x; [done|]. simpl. by intros [= <-]. Qed.

(** A traversed value that is not nil survives being copied again. *)
Lemma Traverse_KValue n kv v :
  kv ∈ Traverse n → KValue kv = Some v → copyBytes v = Some v.
Proof.
  intros Hkv Hv. apply walk_elem in Hkv as [_ [x Hx]].
  rewrite Hx in Hv. by eapply copyBytes_Some.
Qed.

(** Inserting traversed pairs with distinct keys and non-nil values into
    a fresh trie gives a trie whose traversal is those pairs. *)
Lemma Traverse_insertAll (kvs : list KV) :
  NoDup (Key <$> kvs) →
  stored kvs →
  Traverse (insertAll (pairOf <$> kvs) NewNode) ≡ₚ kvs.
Proof.
  induction kvs as [|kv kvs IH] using rev_ind; intros Hnd Hvals.
  - apply Permutation_refl' , walk_NewNode.
  - rewrite fmap_app, NoDup_app in Hnd. destruct Hnd as (Hnd & Hfresh & _).
    apply Forall_app in Hvals as [Hvals Hkv].
    apply Forall_singleton in Hkv as (v & Hv & Hcopy).
    rewrite fmap_app, insertAll_app. cbn [fmap list_fmap insertAll foldl pairOf fst snd].
    unfold Traverse. rewrite Hv, walk_Insert_fresh.
    + rewrite Hcopy, <-Hv. cbn [app]. destruct kv as [k ov]. cbn [Key KValue].
      rewrite <-Permutation_cons_append. apply perm_skip. by apply IH.
    + rewrite valueAt_insertAll_notin; [apply valueAt_NewNode|].
      rewrite <-list_fmap_compose. intros Hin. apply (Hfresh (Key kv)); [done|].
      apply list_elem_of_singleton. done.
Qed.

Lemma prefix_snoc_inj {A} (p k : list A) (b b' : A) :
  p ++ [b] `prefix_of` k → p ++ [b'] `prefix_of` k → b = b'.
Proof.
  intros [x Hx] [y Hy]. rewrite Hx, <-!app_assoc in Hy.
  apply app_inv_head in Hy. by injection Hy.
Qed.

Lemma NoDup_Key_children (l : list (byte * Node)) prefix :
  NoDup l.*1 →
  (∀ bc, bc ∈ l → ∀ p, NoDup (Key <$> walk bc.2 p)) →
  NoDup (Key <$> mjoin ((λ bc, walk bc.2 (prefix ++ [bc.1])) <$> l)).
Proof.
  induction l as [|[b c] l IH]; intros Hnd Hwalk; [constructor|].
  rewrite fmap_cons in Hnd. apply NoDup_cons in Hnd as [Hb Hnd].
  cbn [fmap list_fmap mjoin list_join fst snd]. rewrite fmap_app, NoDup_app. split_and!.
  - apply (Hwalk (b, c)). left.
  - intros k Hk1 Hk2.
    apply list_elem_of_fmap in Hk1 as (kv1 & -> & Hkv1).
    apply list_elem_of_fmap in Hk2 as (kv2 & Heq & Hkv2).
    apply list_elem_of_join in Hkv2 as (l2 & Hkv2 & Hl2).
    apply list_elem_of_fmap in Hl2 as ([b' c'] & -> & Hbc').
    apply walk_elem in Hkv1 as [Hp1 _]. apply walk_elem in Hkv2 as [Hp2 _].
    rewrite <-Heq in Hp2. cbn [fst snd] in Hp2.
    rewrite (prefix_snoc_inj _ _ _ _ Hp1 Hp2) in Hb.
    apply Hb, list_elem_of_fmap. by exists (b', c').
  - apply IH; [done|]. intros bc Hbc. apply Hwalk. by right.
Qed.

(** A traversal returns each key once. *)
Lemma NoDup_Key_walk n : ∀ prefix, NoDup (Key <$> walk n prefix).
Proof.
  induction n as [n IH] using Node_child_ind. intros prefix.
  rewrite walk_unfold, fmap_app, NoDup_app. split_and!.
  - destruct (value n); [apply NoDup_singleton|constructor].
  - intros k Hk1 Hk2.
    assert (k = prefix) as ->.
    { destruct (value n); [|by apply elem_of_nil in Hk1].
      by apply list_elem_of_singleton in Hk1. }
    apply list_elem_of_fmap in Hk2 as (kv & Heq & Hkv).
    rewrite childrenKVs_concat in Hkv.
    apply list_elem_of_join in Hkv as (l & Hkv & Hl).
    apply list_elem_of_fmap in Hl as ([b c] & -> & _).
    apply walk_elem in Hkv as [[x Hx] _]. cbn [fst snd] in Hx.
    rewrite <-Heq, <-app_assoc in Hx.
    apply (f_equal length) in Hx. rewrite !length_app in Hx. simpl in Hx. lia.
  - rewrite childrenKVs_concat. apply NoDup_Key_children.
    + apply NoDup_fst_map_to_list.
    + intros [b c] Hbc. apply elem_of_map_to_list in Hbc. by apply (IH b c).
Qed.

Lemma NoDup_Key_Traverse n : NoDup (Key <$> Traverse n).
Proof. apply NoDup_Key_walk. Qed.

(** ** Rebalancing keeps the stored pairs *)

Lemma allKVs_app m1 m2 : allKVs (m1 ++ m2) = allKVs m1 ++ allKVs m2.
Proof. unfold allKVs. by rewrite fmap_app, join_app. Qed.

Lemma allKVs_cons s m : allKVs (s :: m) = Traverse (Tree s) ++ allKVs m.
Proof. done. Qed.

Lemma allKVs_nil : allKVs [] = [].
Proof. done. Qed.

Lemma Tree_foldl_Apply kvs s :
  Tree (foldl (λ m kv, Apply (Key kv) (KValue kv) m) s kvs) = insertAll (pairOf <$> kvs) (Tree s).
Proof. revert s. induction kvs as [|kv kvs IH]; intros s; [done|]. simpl. by rewrite IH. Qed.

(** The loop of [splitShard] sends the pairs with a low first key byte to
    the first shard and the others to the second. *)
Lemma split_foldl kvs s1 s2 :
  foldl (λ s12 kv,
           if lowHalf (Key kv) then (Apply (Key kv) (KValue kv) s12.1, s12.2)
           else (s12.1, Apply (Key kv) (KValue kv) s12.2))
        (s1, s2) kvs =
  (foldl (λ m kv, Apply (Key kv) (KValue kv) m) s1 (filter (λ kv, lowHalf (Key kv)) kvs),
   foldl (λ m kv, Apply (Key kv) (KValue kv) m) s2 (filter (λ kv, ¬ lowHalf (Key kv)) kvs)).
Proof.
  revert s1 s2. induction kvs as [|kv kvs IH]; intros s1 s2; [done|].
  cbn [foldl fst snd]. destruct (lowHalf (Key kv)) eqn:Hlow.
  - rewrite IH, filter_cons_True, filter_cons_False by (rewrite Hlow; naive_solver). done.
  - rewrite IH, filter_cons_False, filter_cons_True by (rewrite Hlow; naive_solver). done.
Qed.

Lemma stored_Traverse n :
  Forall (λ kv, is_Some (KValue kv)) (Traverse n) → stored (Traverse n).
Proof.
  intros Hsome. apply Forall_forall. intros kv Hkv.
  rewrite Forall_forall in Hsome. destruct (Hsome kv Hkv) as [v Hv].
  exists v. split; [done|]. by eapply Traverse_KValue.
Qed.

Lemma stored_app kvs1 kvs2 : stored kvs1 → stored kvs2 → stored (kvs1 ++ kvs2).
Proof. apply Forall_app_2. Qed.

Lemma stored_filter (P : KV → Prop) `{∀ kv, Decision (P kv)} kvs : stored kvs → stored (filter P kvs).
Proof.
  unfold stored. rewrite !Forall_forall. intros Hs kv Hkv.
  apply list_elem_of_filter in Hkv as [_ Hkv]. by apply Hs.
Qed.

Lemma NoDup_Key_filter (P : KV → Prop) `{∀ kv, Decision (P kv)} kvs :
  NoDup (Key <$> kvs) → NoDup (Key <$> filter P kvs).
Proof.
  intros Hnd. apply (sublist_NoDup _ (Key <$> kvs)); [done|].
  apply fmap_sublist, sublist_filter.
Qed.

(** A split keeps the pairs of the shard it splits. *)
Lemma splitShard_allKVs idx m m' old :
  splitShard idx m = Some m' → m !! idx = Some old →
  Forall (λ kv, is_Some (KValue kv)) (Traverse (Tree old)) →
  allKVs m' ≡ₚ allKVs m.
Proof.
  intros Hsplit Hold Hsome. unfold splitShard in Hsplit.
  pose proof (NoDup_Key_Traverse (Tree old)) as Hnd.
  rewrite Hold in Hsplit. cbn [mbind option_bind] in Hsplit.
  injection Hsplit as <-. rewrite split_foldl. cbn [fst snd].
  rewrite <-(take_drop_middle m idx old Hold) at 3.
  rewrite Nat.add_1_r, !allKVs_app, !allKVs_cons, !Tree_foldl_Apply.
  apply stored_Traverse in Hsome.
  rewrite !Traverse_insertAll by (by apply NoDup_Key_filter || by apply stored_filter).
  rewrite (app_assoc (filter _ _)), filter_app_complement. done.
Qed.

(** A merge of two neighbouring shards whose keys are distinct keeps
    their pairs. *)
Lemma mergeShards_adjacent_allKVs i m m' :
  mergeShards i (S i) m = Some m' →
  NoDup (Key <$> allKVs m) →
  Forall (λ kv, is_Some (KValue kv)) (allKVs m) →
  allKVs m' ≡ₚ allKVs m.
Proof.
  intros Hmerge Hnd Hsome. unfold mergeShards in Hmerge.
  rewrite (proj2 (Nat.ltb_ge _ _)) in Hmerge by lia.
  destruct (m !! i) as [s1|] eqn:H1; [|done].
  destruct (m !! S i) as [s2|] eqn:H2; [|done].
  cbn [mbind option_bind] in Hmerge. injection Hmerge as <-.
  rewrite <-foldl_app.
  assert (Hm : m = take i m ++ s1 :: s2 :: drop (S i + 1) m).
  { rewrite <-(take_drop_middle m i s1 H1) at 1. do 2 f_equal.
    rewrite Nat.add_1_r. by apply drop_S. }
  rewrite Hm in Hnd, Hsome. rewrite Hm at 3.
  rewrite !allKVs_app, !allKVs_cons, ?Tree_foldl_Apply in *.
  rewrite !fmap_app, !NoDup_app in Hnd. destruct Hnd as (_ & _ & Hnd1 & Hd12 & Hnd2 & _ & _).
  rewrite !Forall_app in Hsome. destruct Hsome as (_ & Hs1 & Hs2 & _).
  rewrite Traverse_insertAll.
  - by rewrite <-app_assoc.
  - rewrite fmap_app, NoDup_app. split_and!; [done| |done].
    intros k Hk1 Hk2. apply (Hd12 k Hk1). rewrite elem_of_app. by left.
  - apply stored_app; by apply stored_Traverse.
Qed.

(** What [mergeShards] returns: every shard from [i1] to [i2] gives way
    to the merged one, so [i2 - i1] positions disappear. *)
Lemma mergeShards_length i1 i2 m m' :
  i1 ≤ i2 → mergeShards i1 i2 m = Some m' → length m' = length m - (i2 - i1).
Proof.
  intros Hle Hmerge. unfold mergeShards in Hmerge.
  rewrite (proj2 (Nat.ltb_ge _ _)) in Hmerge by lia.
  destruct (m !! i1) as [s1|] eqn:H1; [|done].
  destruct (m !! i2) as [s2|] eqn:H2; [|done].
  cbn [mbind option_bind] in Hmerge. injection Hmerge as <-.
  apply lookup_lt_Some in H1, H2.
  rewrite length_app, length_take. simpl. rewrite length_drop. lia.
Qed.

Lemma mergeShards_comm i1 i2 m : mergeShards i1 i2 m = mergeShards i2 i1 m.
Proof.
  unfold mergeShards.
  destruct (i2 <? i1) eqn:H21, (i1 <? i2) eqn:H12; try done.
  - apply Nat.ltb_lt in H21, H12. lia.
  - apply Nat.ltb_ge in H21, H12. by replace i2 with i1 by lia.
Qed.

(** C2, amended. When the keys recoverable over all shards are pairwise
    distinct and no stored value is empty, a rebalance that splits, does
    nothing, or merges two neighbouring shards leaves the pairs
    recoverable over all shards the same: none lost, none duplicated. *)
Theorem rebalance_keeps_pairs (thresholdSplit thresholdMerge : float)
    (m m' : list Shard) (rp : RebalanceProof) :
  RebalanceWithProof thresholdSplit thresholdMerge m = Some (m', rp) →
  NoDup (Key <$> allKVs m) →
  Forall (λ kv, is_Some (KValue kv)) (allKVs m) →
  (Operation rp = "merge" → ∃ i, ShardIndex rp = [i; S i] ∨ ShardIndex rp = [S i; i]) →
  allKVs m' ≡ₚ allKVs m.
Proof.
  intros Hrun Hnd Hsome Hadj. unfold RebalanceWithProof in Hrun.
  destruct (PrimFloat.ltb thresholdSplit _).
  - destruct (splitShard _ m) as [m1|] eqn:Hsplit; [|done].
    cbn [mbind option_bind] in Hrun. injection Hrun as <- <-.
    set (idx := indexOfMax (Mutations <$> m)) in *.
    assert (∃ old, m !! idx = Some old) as [old Hold].
    { unfold splitShard in Hsplit. destruct (m !! idx) as [old|]; [by exists old|done]. }
    apply (splitShard_allKVs idx m m1 old Hsplit Hold).
    rewrite <-(take_drop_middle m idx old Hold), allKVs_app, allKVs_cons in Hsome.
    rewrite !Forall_app in Hsome. by destruct Hsome as (_ & Hsome & _).
  - destruct (PrimFloat.ltb _ thresholdMerge && (1 <? length m)).
    + destruct (twoMinIndices _) as [[i1 i2]|]; [|done].
      cbn [mbind option_bind] in Hrun.
      destruct (mergeShards i1 i2 m) as [m1|] eqn:Hmerge; [|done].
      cbn [mbind option_bind] in Hrun. injection Hrun as <- <-.
      destruct (Hadj eq_refl) as [i [[= -> ->]|[= -> ->]]].
      * by apply (mergeShards_adjacent_allKVs i m m1).
      * rewrite mergeShards_comm in Hmerge.
        by apply (mergeShards_adjacent_allKVs i m m1).
    + by injection Hrun as <- <-.
Qed.

(** An instance: two neighbouring shards with distinct keys are merged. *)
Lemma rebalance_keeps_pairs_witness :
  ∃ m' rp, RebalanceWithProof 2 0.5 m_pair = Some (m', rp) ∧
           Operation rp = "merge" ∧ ShardIndex rp = [1; 0] ∧
           allKVs m' ≡ₚ allKVs m_pair.
Proof.
  eassert (Hrun : RebalanceWithProof 2 0.5 m_pair = Some (_, _)).
  { vm_compute. reflexivity. }
  eexists _, _. split; [exact Hrun|]. split; [reflexivity|]. split; [reflexivity|].
  apply (rebalance_keeps_pairs _ _ _ _ _ Hrun).
  - apply (bool_decide_unpack _). vm_compute. exact I.
  - apply (bool_decide_unpack _). vm_compute. exact I.
  - intros _. exists 0. by right.
Defined.

(** * Further properties *)

(** ** The trie: writes and reads *)

(** X1. After [Insert(key, val)], [GetProof(key)] returns [val] when it is
    not nil and fails with "key not found" when it is nil; on every other
    key [GetProof] succeeds or fails as before, with the same value. *)
Theorem Insert_GetProof (key : list byte) (val : option (list byte)) (t : Node) :
  (∀ v, val = Some v → ∃ p, GetProof (Insert key val t) key = inl p ∧ Value p = v) ∧
  (val = None → GetProof (Insert key val t) key = inr errNotFound) ∧
  (∀ key', key' ≠ key →
     match GetProof (Insert key val t) key', GetProof t key' with
     | inl p, inl p' => Value p = Value p'
     | inr e, inr e' => e = e'
     | _, _ => False
     end).
Proof.
  split_and!.
  - intros v ->. rewrite GetProof_valueAt, valueAt_Insert, decide_True by done. eauto.
  - intros ->. by rewrite GetProof_valueAt, valueAt_Insert, decide_True.
  - intros key' Hne. rewrite !GetProof_valueAt, valueAt_Insert, decide_False by done.
    by destruct (valueAt t key').
Qed.

(** X2. The last write to a key wins: an earlier write to the same key
    leaves no trace in the trie, hashes included. *)
Theorem Insert_Insert (key : list byte) (val val' : option (list byte)) (t : Node) :
  Insert key val (Insert key val' t) = Insert key val t.
Proof.
  revert t. induction key as [|b key IH]; intros t.
  - by rewrite !Insert_nil.
  - rewrite !Insert_cons. cbn [children value hash computeHash].
    rewrite lookup_insert_eq, insert_insert_eq. cbn [from_option id].
    by rewrite IH.
Qed.

Lemma Node_eta n : mkNode (children n) (value n) (hash n) = n.
Proof. by destruct n. Qed.

Lemma computeHash_hashed n : hash n = sha256.Sum (hashInput n) → computeHash n = n.
Proof. intros Hn. unfold computeHash. rewrite <-Hn. apply Node_eta. Qed.

Lemma Insert_stored key v t : hashed t → valueAt t key = Some v → Insert key (Some v) t = t.
Proof.
  revert t. induction key as [|b key IH]; intros t Ht Hv.
  - rewrite Insert_nil. rewrite valueAt_nil in Hv. rewrite <-Hv, Node_eta.
    apply computeHash_hashed, (Ht [] t eq_refl).
  - rewrite Insert_cons. rewrite valueAt_cons in Hv.
    destruct (children t !! b) as [c|] eqn:Hc; [|done]. simpl in Hv.
    cbn [from_option id]. rewrite (IH c) by (by eapply hashed_child || done).
    rewrite insert_id, Node_eta by done.
    apply computeHash_hashed, (Ht [] t eq_refl).
Qed.

(** X3. In a trie built by inserts, writing to a key the value
    [GetProof] returns for it changes nothing: the trie, with its root
    hash, stays the same. *)
Theorem Insert_stored_value (kvs : list (list byte * option (list byte)))
    (key : list byte) (p : TrieProof) :
  GetProof (insertAll kvs NewNode) key = inl p →
  Insert key (Some (Value p)) (insertAll kvs NewNode) = insertAll kvs NewNode.
Proof.
  intros Hp. rewrite GetProof_valueAt in Hp.
  destruct (valueAt (insertAll kvs NewNode) key) as [v|] eqn:Hv; [|done].
  injection Hp as <-. cbn [Value].
  apply Insert_stored; [|done]. apply hashed_insertAll_NewNode.
  intros ->. by rewrite valueAt_NewNode in Hv.
Qed.

(** An instance: "ab" is written again with the value it holds. *)
Lemma Insert_stored_value_witness :
  Insert (bs "ab") (Some (bs "1")) (insertAll kvs_siblings NewNode) = insertAll kvs_siblings NewNode.
Proof.
  assert (Hp : GetProof (insertAll kvs_siblings NewNode) (bs "ab")
               = inl (mkProof (bs "1") (proofSteps (insertAll kvs_siblings NewNode) (bs "ab")))).
  { vm_compute. reflexivity. }
  exact (Insert_stored_value kvs_siblings (bs "ab") _ Hp).
Defined.

(** ** The trie: hashes and proofs *)

(** X4. Once a trie has been inserted into, every node of it carries the
    SHA-256 sum of its current value and children, 32 bytes long. *)
Theorem hashes_consistent (kvs : list (list byte * option (list byte))) (key : list byte) (n : Node) :
  kvs ≠ [] → nodeAt (insertAll kvs NewNode) key = Some n →
  hash n = sha256.Sum (hashInput n) ∧ length (hash n) = 32.
Proof.
  intros Hne Hn. rewrite (hashed_insertAll_NewNode kvs Hne key n Hn).
  split; [done|apply Sum_length].
Qed.

(** An instance: the root after "ab" and "ac" were inserted. *)
Lemma hashes_consistent_witness :
  hash (insertAll kvs_siblings NewNode) = sha256.Sum (hashInput (insertAll kvs_siblings NewNode)) ∧
  length (hash (insertAll kvs_siblings NewNode)) = 32.
Proof.
  exact (hashes_consistent kvs_siblings [] (insertAll kvs_siblings NewNode) ltac:(done) eq_refl).
Defined.

Lemma proofSteps_lookup t key i b n :
  key !! i = Some b → nodeAt t (take i key) = Some n →
  proofSteps t key !! i = Some (hash <$> delete b (children n)).
Proof.
  revert t i. induction key as [|b' key IH]; intros t [|i] Hb Hn; try done.
  - injection Hb as ->. apply nodeAt_nil in Hn as ->. simpl. by rewrite siblings_delete.
  - simpl in Hb, Hn. cbn [proofSteps].
    destruct (children t !! b') as [c|]; [|done]. simpl in Hn.
    by apply (IH c).
Qed.

(** X5. A proof returned by [GetProof] has one step per key byte, and the
    step of depth [i] maps exactly the labels of the children of the
    node at that depth, other than the key's own byte, to their hashes. *)
Theorem GetProof_steps (t : Node) (key : list byte) (p : TrieProof) :
  GetProof t key = inl p →
  length (Steps p) = length key ∧
  ∀ i b n, key !! i = Some b → nodeAt t (take i key) = Some n →
    Steps p !! i = Some (hash <$> delete b (children n)).
Proof.
  intros Hp. rewrite GetProof_valueAt in Hp.
  destruct (valueAt t key) as [v|] eqn:Hv; [|done]. injection Hp as <-. cbn [Steps].
  split.
  - apply proofSteps_length. unfold valueAt in Hv. by destruct (nodeAt t key).
  - intros i b n. apply proofSteps_lookup.
Qed.

(** An instance: the proof of "ab" beside "ac". *)
Lemma GetProof_steps_witness :
  length (proofSteps (insertAll kvs_siblings NewNode) (bs "ab")) = length (bs "ab") ∧
  ∀ i b n, bs "ab" !! i = Some b →
    nodeAt (insertAll kvs_siblings NewNode) (take i (bs "ab")) = Some n →
    proofSteps (insertAll kvs_siblings NewNode) (bs "ab") !! i = Some (hash <$> delete b (children n)).
Proof.
  assert (Hp : GetProof (insertAll kvs_siblings NewNode) (bs "ab")
               = inl (mkProof (bs "1") (proofSteps (insertAll kvs_siblings NewNode) (bs "ab")))).
  { vm_compute. reflexivity. }
  exact (GetProof_steps _ _ _ Hp).
Defined.

Lemma climb_Some key steps n current :
  n ≤ length key → n ≤ length steps → is_Some (climb key steps n current).
Proof.
  revert current. induction n as [|n IH]; intros current Hk Hs; [by eexists|].
  simpl. destruct (lookup_lt_is_Some_2 steps n ltac:(lia)) as [sibMap ->].
  destruct (lookup_lt_is_Some_2 key n ltac:(lia)) as [kb ->].
  apply IH; lia.
Qed.

Lemma climb_None key steps n current :
  length steps < n → climb key steps n current = None.
Proof.
  intros Hs. destruct n as [|n]; [lia|]. simpl.
  by rewrite (lookup_ge_None_2 steps n) by lia.
Qed.

Lemma climb_app key steps extra n current :
  n ≤ length steps → climb key (steps ++ extra) n current = climb key steps n current.
Proof.
  revert current. induction n as [|n IH]; intros current Hs; [done|].
  simpl. rewrite lookup_app_l by lia.
  destruct (steps !! n), (key !! n); try done. apply IH. lia.
Qed.

(** X6. [VerifyProof] panics exactly when the proof has fewer steps than
    the key has bytes, and steps beyond the length of the key are never
    read: appending any to a proof does not change the verdict. *)
Theorem VerifyProof_steps_bounds (rootHash key : list byte) (p : TrieProof) :
  (VerifyProof rootHash key p = None ↔ length (Steps p) < length key) ∧
  (∀ extra, length key ≤ length (Steps p) →
     VerifyProof rootHash key (mkProof (Value p) (Steps p ++ extra)) = VerifyProof rootHash key p).
Proof.
  split.
  - unfold VerifyProof. split.
    + intros Hnone. destruct (decide (length (Steps p) < length key)) as [|Hge]; [done|].
      destruct (climb_Some key (Steps p) (length key) (sha256.Sum ([x00] ++ Value p)))
        as [c Hc]; [lia..|].
      by rewrite Hc in Hnone.
    + intros Hlt. by rewrite climb_None.
  - intros extra Hle. unfold VerifyProof. cbn [Value Steps]. by rewrite climb_app.
Qed.

(** ** The trie: traversal *)

Lemma elem_of_walk_valueAt n :
  ∀ prefix kv, kv ∈ walk n prefix ↔
    ∃ suffix v, Key kv = prefix ++ suffix ∧ valueAt n suffix = Some v ∧ KValue kv = copyBytes v.
Proof.
  induction n as [n IH] using Node_child_ind. intros prefix kv.
  rewrite elem_of_walk. split.
  - intros [(x & Hx & ->)|(b & c & Hc & Hkv)].
    + exists [], x. by rewrite app_nil_r, valueAt_nil.
    + apply (IH b c Hc) in Hkv as (suffix & v & Hkey & Hv & Hcopy).
      exists (b :: suffix), v. rewrite valueAt_cons, Hc. simpl.
      by rewrite Hkey, <-app_assoc.
  - intros ([|b suffix] & v & Hkey & Hv & Hcopy).
    + left. exists v. rewrite valueAt_nil in Hv. split; [done|].
      destruct kv as [k ov]. simpl in *. by rewrite Hkey, Hcopy, app_nil_r.
    + right. rewrite valueAt_cons in Hv.
      destruct (children n !! b) as [c|] eqn:Hc; [|done]. simpl in Hv.
      exists b, c. split; [done|]. apply (IH b c Hc).
      exists suffix, v. by rewrite Hkey, <-app_assoc.
Qed.

Lemma elem_of_Traverse_valueAt t kv :
  kv ∈ Traverse t ↔ ∃ v, valueAt t (Key kv) = Some v ∧ KValue kv = copyBytes v.
Proof.
  unfold Traverse. rewrite elem_of_walk_valueAt. split.
  - intros (suffix & v & Hkey & Hv & Hcopy). simpl in Hkey. subst suffix. eauto.
  - intros (v & Hv & Hcopy). by exists (Key kv), v.
Qed.

(** X7. [Traverse] returns a pair for exactly the keys on which [GetProof]
    succeeds, with a copy of the value [GetProof] returns: nil when that
    value is empty. *)
Theorem Traverse_GetProof (t : Node) (kv : KV) :
  kv ∈ Traverse t ↔ ∃ p, GetProof t (Key kv) = inl p ∧ KValue kv = copyBytes (Value p).
Proof.
  unfold Traverse. rewrite elem_of_walk_valueAt. split.
  - intros (suffix & v & Hkey & Hv & Hcopy). simpl in Hkey. subst suffix.
    exists (mkProof v (proofSteps t (Key kv))). by rewrite GetProof_valueAt, Hv.
  - intros (p & Hp & Hcopy). rewrite GetProof_valueAt in Hp.
    destruct (valueAt t (Key kv)) as [v|] eqn:Hv; [|done]. injection Hp as <-.
    by exists (Key kv), v.
Qed.

(** X8. [Traverse] returns every key once. *)
Theorem Traverse_keys_distinct (t : Node) : NoDup (Key <$> Traverse t).
Proof. apply NoDup_Key_walk. Qed.

Lemma valueAt_insertAll_NoDup kvs n key ov :
  NoDup kvs.*1 → (key, ov) ∈ kvs → valueAt (insertAll kvs n) key = ov.
Proof.
  revert n. induction kvs as [|kv kvs IH]; intros n Hnd Hin; [by apply elem_of_nil in Hin|].
  rewrite fmap_cons in Hnd. apply NoDup_cons in Hnd as [Hfresh Hnd].
  rewrite insertAll_cons. apply elem_of_cons in Hin as [<-|Hin].
  - rewrite valueAt_insertAll_notin by done. cbn [fst snd].
    by rewrite valueAt_Insert, decide_True.
  - by apply IH.
Qed.

(** The value a key holds once the pairs of a traversal were inserted
    into a fresh trie. *)
Lemma valueAt_reinserted t key :
  valueAt (insertAll (pairOf <$> Traverse t) NewNode) key = valueAt t key ≫= copyBytes.
Proof.
  destruct (valueAt t key) as [v|] eqn:Hv; simpl.
  - apply valueAt_insertAll_NoDup.
    + rewrite <-list_fmap_compose. apply NoDup_Key_walk.
    + apply list_elem_of_fmap. exists (mkKV key (copyBytes v)). split; [done|].
      apply elem_of_Traverse_valueAt. by exists v.
  - rewrite valueAt_insertAll_notin; [apply valueAt_NewNode|].
    rewrite <-list_fmap_compose. intros Hin.
    apply list_elem_of_fmap in Hin as (kv & -> & Hkv).
    apply elem_of_Traverse_valueAt in Hkv as (v & Hv' & _).
    cbn [pairOf fst compose] in Hv. by rewrite Hv in Hv'.
Qed.

(** X9. Copying a trie the way split and merge do, by inserting the pairs
    of its traversal into a fresh trie, keeps every key with a non-empty
    value and its value, and drops every key whose value is empty: such a
    key is no longer found.  No key is added. *)
Theorem reinsert_Traverse (t : Node) (key : list byte) :
  let copy := insertAll (pairOf <$> Traverse t) NewNode in
  match GetProof t key with
  | inl p =>
      if decide (Value p = []) then GetProof copy key = inr errNotFound
      else ∃ p', GetProof copy key = inl p' ∧ Value p' = Value p
  | inr _ => GetProof copy key = inr errNotFound
  end.
Proof.
  intros copy. subst copy. rewrite !GetProof_valueAt, valueAt_reinserted.
  destruct (valueAt t key) as [v|]; simpl; [|done].
  destruct v as [|b v]; simpl; [done|]. eauto.
Qed.

(** ** The shard manager: routing and writes *)

Lemma shardIndex_lt key shards idx : shardIndex key shards = Some idx → idx < length shards.
Proof.
  unfold shardIndex. destruct shards as [|s shards]; [done|]. intros [= <-].
  pose proof (N.mod_upper_bound (fnv32a key) (N.of_nat (length (s :: shards)))
                ltac:(simpl; lia)) as Hub.
  simpl in *. lia.
Qed.

Lemma shardIndex_length key shards shards' :
  length shards' = length shards → shardIndex key shards' = shardIndex key shards.
Proof.
  unfold shardIndex. intros Hlen.
  destruct shards as [|s shards], shards' as [|s' shards']; try done.
  by rewrite Hlen.
Qed.

Lemma shardIndex_is_Some key shards : shards ≠ [] → is_Some (shardIndex key shards).
Proof. destruct shards; [done|]. by eexists. Qed.

(** What [ApplyTx] returns on a manager with a shard. *)
Lemma ApplyTx_Some key val shards :
  shards ≠ [] →
  ∃ idx s, shardIndex key shards = Some idx ∧ shards !! idx = Some s ∧
           ApplyTx key val shards = Some (<[idx := Apply key val s]> shards).
Proof.
  intros Hne. destruct (shardIndex_is_Some key shards Hne) as [idx Hidx].
  pose proof (shardIndex_lt _ _ _ Hidx) as Hlt.
  destruct (lookup_lt_is_Some_2 shards idx Hlt) as [s Hs].
  exists idx, s. unfold ApplyTx. rewrite Hidx. cbn [mbind option_bind].
  by rewrite Hs.
Qed.

(** X10. [ApplyTx] panics on a manager without shards.  On any other
    manager it returns, keeps the number of shards and therefore the
    routing of every key, and changes the routed shard only: the key is
    inserted into its trie and its counter goes up by one (wrapping). *)
Theorem ApplyTx_routed (key : list byte) (val : option (list byte)) (shards : list Shard) :
  (shards = [] → ApplyTx key val shards = None) ∧
  (shards ≠ [] →
   ∃ idx s shards',
     ApplyTx key val shards = Some shards' ∧
     shardIndex key shards = Some idx ∧ shards !! idx = Some s ∧
     length shards' = length shards ∧
     (∀ key', shardIndex key' shards' = shardIndex key' shards) ∧
     shards' !! idx = Some (mkShard (Insert key val (Tree s)) (wrap64 (Mutations s + 1))) ∧
     (∀ j, j ≠ idx → shards' !! j = shards !! j)).
Proof.
  split; [by intros ->|]. intros Hne.
  destruct (ApplyTx_Some key val shards Hne) as (idx & s & Hidx & Hs & Happly).
  pose proof (shardIndex_lt _ _ _ Hidx) as Hlt.
  exists idx, s, (<[idx := Apply key val s]> shards).
  split_and!; try done.
  - apply length_insert.
  - intros key'. apply shardIndex_length, length_insert.
  - by rewrite list_lookup_insert_eq.
  - intros j Hj. by rewrite list_lookup_insert_ne.
Qed.

(** An instance: a write to a manager of three fresh shards. *)
Lemma ApplyTx_routed_witness :
  ∃ idx s shards',
    ApplyTx (bs "a") (Some (bs "v")) (NewManager 3) = Some shards' ∧
    shardIndex (bs "a") (NewManager 3) = Some idx ∧ NewManager 3 !! idx = Some s ∧
    length shards' = length (NewManager 3) ∧
    (∀ key', shardIndex key' shards' = shardIndex key' (NewManager 3)) ∧
    shards' !! idx = Some (mkShard (Insert (bs "a") (Some (bs "v")) (Tree s)) (wrap64 (Mutations s + 1))) ∧
    (∀ j, j ≠ idx → shards' !! j = NewManager 3 !! j).
Proof.
  exact (proj2 (ApplyTx_routed (bs "a") (Some (bs "v")) (NewManager 3)) ltac:(done)).
Defined.

(** X11. A value written with [ApplyTx] is read back: [GetProof] on the
    trie that [GetTrie] returns for the key's shard index finds it. *)
Theorem ApplyTx_read_back (key v : list byte) (shards : list Shard) :
  shards ≠ [] →
  ∃ shards' idx t p,
    ApplyTx key (Some v) shards = Some shards' ∧
    shardIndex key shards' = Some idx ∧
    GetTrie (Z.of_nat idx) shards' = Some t ∧
    GetProof t key = inl p ∧ Value p = v.
Proof.
  intros Hne.
  destruct (ApplyTx_Some key (Some v) shards Hne) as (idx & s & Hidx & Hs & Happly).
  pose proof (shardIndex_lt _ _ _ Hidx) as Hlt.
  exists (<[idx := Apply key (Some v) s]> shards), idx, (Insert key (Some v) (Tree s)),
         (mkProof v (proofSteps (Insert key (Some v) (Tree s)) key)).
  split_and!; try done.
  - rewrite <-Hidx. apply shardIndex_length, length_insert.
  - unfold GetTrie. rewrite (proj2 (Z.ltb_ge _ _)) by lia.
    by rewrite Nat2Z.id, list_lookup_insert_eq.
  - by rewrite GetProof_valueAt, valueAt_Insert, decide_True.
Qed.

(** An instance on a manager of three fresh shards. *)
Lemma ApplyTx_read_back_witness :
  ∃ shards' idx t p,
    ApplyTx (bs "a") (Some (bs "v")) (NewManager 3) = Some shards' ∧
    shardIndex (bs "a") shards' = Some idx ∧
    GetTrie (Z.of_nat idx) shards' = Some t ∧
    GetProof t (bs "a") = inl p ∧ Value p = bs "v".
Proof. exact (ApplyTx_read_back (bs "a") (bs "v") (NewManager 3) ltac:(done)). Defined.

(** ** The shard manager: choosing shards *)

Lemma at_index_lookup data i x : data !! i = Some x → at_index data i = x.
Proof. unfold at_index. by intros ->. Qed.

Lemma indexOfMax_inv (data pre l : list Z) (m : nat) :
  data = pre ++ l →
  (m = 0 ∨ m < length pre) →
  (∀ j x, j < length pre → data !! j = Some x → (x ≤ at_index data m)%Z) →
  (∀ j x, j < m → data !! j = Some x → (x < at_index data m)%Z) →
  let m' := foldl (λ max iv, if (at_index data max <? iv.2)%Z then iv.1 else max)
                  m (zip (seq (length pre) (length l)) l) in
  (m' = 0 ∨ m' < length data) ∧
  (∀ j x, data !! j = Some x → (x ≤ at_index data m')%Z) ∧
  (∀ j x, j < m' → data !! j = Some x → (x < at_index data m')%Z).
Proof.
  revert pre m. induction l as [|v l IH]; intros pre m Hdata Hm Hmax Hfirst.
  - simpl. rewrite Hdata, app_nil_r in *. split_and!; [lia| |done].
    intros j x Hj. apply (Hmax j x); [|done]. by apply lookup_lt_Some in Hj.
  - cbn [length seq zip zip_with foldl fst snd].
    assert (Hv : data !! length pre = Some v).
    { rewrite Hdata, lookup_app_r, Nat.sub_diag by done. done. }
    specialize (IH (pre ++ [v])). rewrite length_app, Nat.add_1_r in IH.
    destruct (at_index data m <? v)%Z eqn:Hlt.
    + apply Z.ltb_lt in Hlt. apply IH.
      * by rewrite <-app_assoc.
      * right. lia.
      * rewrite (at_index_lookup _ _ _ Hv). intros j x Hj Hx.
        destruct (decide (j = length pre)) as [->|Hne]; [by simplify_eq|].
        specialize (Hmax j x ltac:(lia) Hx). lia.
      * rewrite (at_index_lookup _ _ _ Hv). intros j x Hj Hx.
        specialize (Hmax j x ltac:(lia) Hx). lia.
    + apply Z.ltb_ge in Hlt. apply IH.
      * by rewrite <-app_assoc.
      * lia.
      * intros j x Hj Hx.
        destruct (decide (j = length pre)) as [->|Hne]; [by simplify_eq|].
        apply (Hmax j x); [lia|done].
      * done.
Qed.

(** X12. On non-empty data [indexOfMax] returns an index in range that
    holds a largest element, and the first such index: every element
    before it is strictly smaller.  On no data it returns 0. *)
Theorem indexOfMax_first_max (data : list Z) :
  (data = [] → indexOfMax data = 0) ∧
  (data ≠ [] →
   indexOfMax data < length data ∧
   (∀ j x, data !! j = Some x → (x ≤ at_index data (indexOfMax data))%Z) ∧
   (∀ j x, j < indexOfMax data → data !! j = Some x → (x < at_index data (indexOfMax data))%Z)).
Proof.
  split; [by intros ->|]. intros Hne.
  destruct (indexOfMax_inv data [] data 0 eq_refl) as (Hrange & Hmax & Hfirst).
  { by left. } { simpl. lia. } { lia. }
  change (length (@nil Z)) with 0 in Hrange, Hmax, Hfirst.
  fold (indexOfMax data) in Hrange, Hmax, Hfirst.
  split_and!; [|done..].
  destruct Hrange as [->|?]; [|done]. destruct data; [done|]. simpl. lia.
Qed.

(** An instance with a tie for the largest element. *)
Lemma indexOfMax_first_max_witness :
  indexOfMax [3; 7; 7]%Z < 3 ∧
  (∀ j x, [3; 7; 7]%Z !! j = Some x → (x ≤ at_index [3; 7; 7]%Z (indexOfMax [3; 7; 7]%Z))%Z) ∧
  (∀ j x, j < indexOfMax [3; 7; 7]%Z → [3; 7; 7]%Z !! j = Some x →
          (x < at_index [3; 7; 7]%Z (indexOfMax [3; 7; 7]%Z))%Z).
Proof. exact (proj2 (indexOfMax_first_max [3; 7; 7]%Z) ltac:(done)). Defined.

(** ** The shard manager: the two least-written shards *)

Lemma twoMin_step data s mins :
  two_min_upto data s mins →
  two_min_upto data (S s)
    (if (at_index data s <? at_index data mins.1)%Z then (s, mins.1)
     else if (at_index data s <? at_index data mins.2)%Z then (mins.1, s)
     else mins).
Proof.
  destruct mins as [m1 m2]. unfold two_min_upto. cbn [fst snd].
  intros (Hne & H1 & H2 & Hle & Hrest & Hfirst).
  destruct (at_index data s <? at_index data m1)%Z eqn:Hlt1; cbn [fst snd].
  - apply Z.ltb_lt in Hlt1. split_and!; try lia.
    + intros j Hj Hjs. destruct (decide (j = m1)) as [->|Hjm]; [lia|].
      specialize (Hrest j ltac:(lia) Hjm). lia.
    + intros j Hj. destruct (decide (j = m1)) as [->|Hjm]; [lia|].
      specialize (Hrest j ltac:(lia) Hjm). lia.
  - apply Z.ltb_ge in Hlt1.
    destruct (at_index data s <? at_index data m2)%Z eqn:Hlt2; cbn [fst snd].
    + apply Z.ltb_lt in Hlt2. split_and!; try lia; [|done].
      intros j Hj Hjm. destruct (decide (j = s)) as [->|Hjs]; [lia|].
      specialize (Hrest j ltac:(lia) Hjm). lia.
    + apply Z.ltb_ge in Hlt2. split_and!; try lia; [|done].
      intros j Hj Hjm. destruct (decide (j = s)) as [->|Hjs]; [lia|].
      apply Hrest; [lia|done].
Qed.

Lemma twoMin_foldl data s n mins :
  two_min_upto data s mins →
  two_min_upto data (s + n)
    (foldl (λ mins i,
              if (at_index data i <? at_index data mins.1)%Z then (i, mins.1)
              else if (at_index data i <? at_index data mins.2)%Z then (mins.1, i)
              else mins)
           mins (seq s n)).
Proof.
  revert s mins. induction n as [|n IH]; intros s mins Hinv.
  - by rewrite Nat.add_0_r.
  - simpl. replace (s + S n) with (S s + n) by lia.
    apply IH. by apply twoMin_step.
Qed.

(** X13. [twoMinIndices] panics exactly on fewer than two elements.
    Otherwise it returns two different indices in range: the first holds
    a smallest element and is the leftmost to do so, and the second
    holds a smallest element among all the other positions. *)
Theorem twoMinIndices_two_smallest (data : list Z) :
  (twoMinIndices data = None ↔ length data < 2) ∧
  (∀ i1 i2, twoMinIndices data = Some (i1, i2) →
     i1 ≠ i2 ∧ i1 < length data ∧ i2 < length data ∧
     (at_index data i1 ≤ at_index data i2)%Z ∧
     (∀ j, j < length data → j ≠ i1 → (at_index data i2 ≤ at_index data j)%Z) ∧
     (∀ j, j < i1 → (at_index data i1 < at_index data j)%Z)).
Proof.
  unfold twoMinIndices.
  destruct (data !! 0) as [d0|] eqn:H0; cbn [mbind option_bind].
  2: { apply lookup_ge_None in H0. split; [split; [lia|done]|done]. }
  destruct (data !! 1) as [d1|] eqn:H1; cbn [mbind option_bind].
  2: { apply lookup_ge_None in H1. split; [split; [lia|done]|done]. }
  apply lookup_lt_Some in H1 as Hlen. split; [split; [done|lia]|].
  intros i1 i2 [= Hfold].
  pose proof (twoMin_foldl data 2 (length data - 2)
                (if (d1 <? d0)%Z then (1, 0) else (0, 1))) as Hinv.
  rewrite Hfold in Hinv. replace (2 + (length data - 2)) with (length data) in Hinv by lia.
  apply Hinv. clear Hinv Hfold.
  assert (Ha0 : at_index data 0 = d0) by by apply at_index_lookup.
  assert (Ha1 : at_index data 1 = d1) by by apply at_index_lookup.
  destruct (d1 <? d0)%Z eqn:Hlt; unfold two_min_upto; cbn [fst snd].
  - apply Z.ltb_lt in Hlt. split_and!; try lia.
    + intros j Hj Hne. assert (j = 0) as -> by lia. done.
    + intros j Hj. assert (j = 0) as -> by lia. lia.
  - apply Z.ltb_ge in Hlt. split_and!; try lia.
    intros j Hj Hne. assert (j = 1) as -> by lia. done.
Qed.

(** ** The shard manager: split *)

Lemma wrap64_add_l a b : wrap64 (wrap64 a + b) = wrap64 (a + b).
Proof.
  unfold wrap64. f_equal.
  replace ((a + 2 ^ 63) `mod` 2 ^ 64 - 2 ^ 63 + b + 2 ^ 63)%Z
    with ((a + 2 ^ 63) `mod` 2 ^ 64 + b)%Z by lia.
  rewrite Zplus_mod_idemp_l. f_equal. lia.
Qed.

(** The counter of a new shard after a run of [Apply]. *)
Lemma Mutations_foldl_Apply_NewShard kvs :
  Mutations (foldl (λ m kv, Apply (Key kv) (KValue kv) m) NewShard kvs) =
  wrap64 (Z.of_nat (length kvs)).
Proof.
  induction kvs as [|kv kvs IH] using rev_ind; [done|].
  rewrite foldl_app. cbn [foldl Apply Mutations].
  rewrite IH, wrap64_add_l, length_app. simpl. f_equal. lia.
Qed.

Lemma lookupValue_valueAt t key : lookupValue t key = valueAt t key.
Proof. unfold lookupValue. rewrite GetProof_valueAt. by destruct (valueAt t key). Qed.

Lemma valueAt_insertAll_pairs (kvs : list KV) n kv :
  NoDup (Key <$> kvs) → kv ∈ kvs → valueAt (insertAll (pairOf <$> kvs) n) (Key kv) = KValue kv.
Proof.
  intros Hnd Hin. apply valueAt_insertAll_NoDup.
  - by rewrite <-list_fmap_compose.
  - apply list_elem_of_fmap. by exists kv.
Qed.

Lemma valueAt_insertAll_pairs_notin (kvs : list KV) n key :
  key ∉ Key <$> kvs → valueAt (insertAll (pairOf <$> kvs) n) key = valueAt n key.
Proof. intros Hk. apply valueAt_insertAll_notin. by rewrite <-list_fmap_compose. Qed.

Lemma KV_eq kv1 kv2 : Key kv1 = Key kv2 → KValue kv1 = KValue kv2 → kv1 = kv2.
Proof. destruct kv1, kv2. simpl. by intros -> ->. Qed.

(** The pairs of a trie rebuilt from the pairs of [t] that satisfy [P]. *)
Lemma elem_of_Traverse_filtered (P : KV → Prop) `{∀ kv, Decision (P kv)} t kv :
  kv ∈ Traverse (insertAll (pairOf <$> filter P (Traverse t)) NewNode) ↔
  kv ∈ Traverse t ∧ P kv ∧ is_Some (KValue kv).
Proof.
  assert (Hnd : NoDup (Key <$> filter P (Traverse t))).
  { apply NoDup_Key_filter, NoDup_Key_walk. }
  rewrite elem_of_Traverse_valueAt. split.
  - intros (v & Hv & Hcopy).
    destruct (decide (Key kv ∈ Key <$> filter P (Traverse t))) as [Hin|Hnotin].
    + apply list_elem_of_fmap in Hin as (kv0 & Hkey & Hkv0).
      rewrite Hkey, (valueAt_insertAll_pairs _ _ _ Hnd Hkv0) in Hv.
      apply list_elem_of_filter in Hkv0 as [HP Hkv0].
      assert (kv = kv0) as ->.
      { apply KV_eq; [done|]. rewrite Hcopy, Hv. by eapply Traverse_KValue. }
      split_and!; [done..|]. by rewrite Hv.
    + rewrite valueAt_insertAll_pairs_notin, valueAt_NewNode in Hv by done. done.
  - intros (Hkv & HP & [v Hv]). exists v.
    rewrite (valueAt_insertAll_pairs _ _ kv Hnd) by by apply list_elem_of_filter.
    split; [done|]. rewrite Hv. symmetry. by eapply Traverse_KValue.
Qed.

Lemma splitShard_Some idx shards old :
  shards !! idx = Some old →
  splitShard idx shards =
  Some (take idx shards ++
        [foldl (λ m kv, Apply (Key kv) (KValue kv) m) NewShard
               (filter (λ kv, lowHalf (Key kv)) (Traverse (Tree old)));
         foldl (λ m kv, Apply (Key kv) (KValue kv) m) NewShard
               (filter (λ kv, ¬ lowHalf (Key kv)) (Traverse (Tree old)))] ++
        drop (S idx) shards).
Proof.
  intros Hold. unfold splitShard. rewrite Hold. cbn [mbind option_bind].
  by rewrite split_foldl, Nat.add_1_r.
Qed.

(** X14. [splitShard] panics exactly on an index out of range.  Otherwise
    one shard is added: the shards before the index keep their
    positions and the shards after it move up by one. *)
Theorem splitShard_positions (idx : nat) (shards : list Shard) :
  (splitShard idx shards = None ↔ length shards ≤ idx) ∧
  (∀ shards', splitShard idx shards = Some shards' →
     length shards' = S (length shards) ∧
     (∀ j, j < idx → shards' !! j = shards !! j) ∧
     (∀ j, idx < j → shards' !! S j = shards !! j)).
Proof.
  destruct (shards !! idx) as [old|] eqn:Hold.
  - apply lookup_lt_Some in Hold as Hlt. rewrite (splitShard_Some _ _ _ Hold). split.
    + split; [done|lia].
    + intros shards' [= <-]. split_and!.
      * rewrite length_app, length_take. simpl. rewrite length_drop. lia.
      * intros j Hj. rewrite lookup_app_l by (rewrite length_take; lia).
        by rewrite lookup_take_lt.
      * intros j Hj. rewrite lookup_app_r by (rewrite length_take; lia).
        rewrite length_take, Nat.min_l by lia.
        replace (S j - idx) with (S (S (j - S idx))) by lia. cbn [app lookup list_lookup].
        etrans; [apply lookup_drop|]. f_equal. lia.
  - apply lookup_ge_None in Hold as Hge. unfold splitShard. rewrite Hold. split; [done|].
    intros shards' [=].
Qed.

(** X15. The two shards a split puts in place of the old one hold the
    pairs of its traversal that have a non-nil value: the first those
    whose key starts with a byte below 0x80, the second all others, the
    empty key among them.  Their counters restart from the number of
    pairs each was handed, pairs with a nil value included. *)
Theorem splitShard_partition (idx : nat) (shards shards' : list Shard) (old : Shard) :
  splitShard idx shards = Some shards' → shards !! idx = Some old →
  ∃ s1 s2,
    shards' !! idx = Some s1 ∧ shards' !! S idx = Some s2 ∧
    (∀ kv, kv ∈ Traverse (Tree s1) ↔
           kv ∈ Traverse (Tree old) ∧ lowHalf (Key kv) ∧ is_Some (KValue kv)) ∧
    (∀ kv, kv ∈ Traverse (Tree s2) ↔
           kv ∈ Traverse (Tree old) ∧ ¬ lowHalf (Key kv) ∧ is_Some (KValue kv)) ∧
    Mutations s1 =
      wrap64 (Z.of_nat (length (filter (λ kv, lowHalf (Key kv)) (Traverse (Tree old))))) ∧
    Mutations s2 =
      wrap64 (Z.of_nat (length (filter (λ kv, ¬ lowHalf (Key kv)) (Traverse (Tree old))))).
Proof.
  intros Hsplit Hold. rewrite (splitShard_Some _ _ _ Hold) in Hsplit. injection Hsplit as <-.
  apply lookup_lt_Some in Hold as Hlt.
  eexists _, _. split_and!.
  - rewrite lookup_app_r by (rewrite length_take; lia).
    rewrite length_take, Nat.min_l, Nat.sub_diag by lia. done.
  - rewrite lookup_app_r by (rewrite length_take; lia).
    rewrite length_take, Nat.min_l by lia.
    replace (S idx - idx) with 1 by lia. done.
  - intros kv. rewrite Tree_foldl_Apply.
    apply (elem_of_Traverse_filtered (λ kv, lowHalf (Key kv))).
  - intros kv. rewrite Tree_foldl_Apply.
    apply (elem_of_Traverse_filtered (λ kv, ¬ lowHalf (Key kv))).
  - apply Mutations_foldl_Apply_NewShard.
  - apply Mutations_foldl_Apply_NewShard.
Qed.

(** An instance: a shard with one key on each side and one empty value. *)
Lemma splitShard_partition_witness :
  ∃ shards' old s1 s2,
    splitShard 0 m_split = Some shards' ∧ m_split !! 0 = Some old ∧
    shards' !! 0 = Some s1 ∧ shards' !! 1 = Some s2 ∧
    (∀ kv, kv ∈ Traverse (Tree s1) ↔
           kv ∈ Traverse (Tree old) ∧ lowHalf (Key kv) ∧ is_Some (KValue kv)) ∧
    (∀ kv, kv ∈ Traverse (Tree s2) ↔
           kv ∈ Traverse (Tree old) ∧ ¬ lowHalf (Key kv) ∧ is_Some (KValue kv)) ∧
    Mutations s1 =
      wrap64 (Z.of_nat (length (filter (λ kv, lowHalf (Key kv)) (Traverse (Tree old))))) ∧
    Mutations s2 =
      wrap64 (Z.of_nat (length (filter (λ kv, ¬ lowHalf (Key kv)) (Traverse (Tree old))))).
Proof.
  destruct (m_split !! 0) as [old|] eqn:Hold; [|done].
  pose proof (splitShard_Some 0 m_split old Hold) as Hsplit.
  destruct (splitShard_partition 0 m_split _ old Hsplit Hold) as (s1 & s2 & H).
  eexists _, old, s1, s2. split; [exact Hsplit|]. split; [done|]. exact H.
Defined.

(** ** The shard manager: merge *)

Lemma mergeShards_Some i1 i2 shards s1 s2 :
  i1 ≤ i2 → shards !! i1 = Some s1 → shards !! i2 = Some s2 →
  mergeShards i1 i2 shards =
  Some (take i1 shards ++
        [foldl (λ m kv, Apply (Key kv) (KValue kv) m) NewShard
               (Traverse (Tree s1) ++ Traverse (Tree s2))] ++
        drop (S i2) shards).
Proof.
  intros Hle H1 H2. unfold mergeShards.
  rewrite (proj2 (Nat.ltb_ge _ _)) by lia. rewrite H1, H2. cbn [mbind option_bind].
  by rewrite foldl_app, Nat.add_1_r.
Qed.

Lemma mergeShards_None i1 i2 shards :
  i1 ≤ i2 → (mergeShards i1 i2 shards = None ↔ length shards ≤ i2).
Proof.
  intros Hle.
  destruct (shards !! i2) as [s2|] eqn:H2.
  - apply lookup_lt_Some in H2 as Hlt.
    destruct (lookup_lt_is_Some_2 shards i1 ltac:(lia)) as [s1 H1].
    rewrite (mergeShards_Some _ _ _ _ _ Hle H1 H2). split; [done|lia].
  - apply lookup_ge_None in H2 as Hge. split; [done|]. intros _.
    unfold mergeShards. rewrite (proj2 (Nat.ltb_ge _ _)) by lia. rewrite H2.
    by destruct (shards !! i1).
Qed.

Lemma mergeShards_Some_inv i1 i2 shards shards' :
  i1 ≤ i2 → mergeShards i1 i2 shards = Some shards' →
  ∃ s1 s2, shards !! i1 = Some s1 ∧ shards !! i2 = Some s2.
Proof.
  intros Hle Hmerge. unfold mergeShards in Hmerge.
  rewrite (proj2 (Nat.ltb_ge _ _)) in Hmerge by lia.
  destruct (shards !! i1) as [s1|]; [|done].
  destruct (shards !! i2) as [s2|]; [|done]. eauto.
Qed.

(** X16. [mergeShards] does not depend on the order of its two indices
    and panics exactly when the larger is out of range.  Otherwise the
    shards before the smaller index keep their positions, one merged
    shard stands at the smaller index, and the shards after the larger
    index follow it: the result has no place for a shard between the
    two, and is shorter by the distance of the indices. *)
Theorem mergeShards_positions (i1 i2 : nat) (shards : list Shard) :
  mergeShards i1 i2 shards = mergeShards i2 i1 shards ∧
  (mergeShards i1 i2 shards = None ↔ length shards ≤ i1 `max` i2) ∧
  (∀ shards', i1 ≤ i2 → mergeShards i1 i2 shards = Some shards' →
     length shards' = length shards - (i2 - i1) ∧
     (∀ j, j < i1 → shards' !! j = shards !! j) ∧
     (∀ j, i2 < j → shards' !! (j - (i2 - i1)) = shards !! j)).
Proof.
  split_and!.
  - apply mergeShards_comm.
  - destruct (decide (i1 ≤ i2)) as [Hle|Hgt].
    + rewrite mergeShards_None by done. by rewrite Nat.max_r.
    + rewrite mergeShards_comm, mergeShards_None by lia. by rewrite Nat.max_l by lia.
  - intros shards' Hle Hmerge. split_and!.
    + by apply mergeShards_length.
    + intros j Hj.
      destruct (mergeShards_Some_inv _ _ _ _ Hle Hmerge) as (s1 & s2 & H1 & H2).
      apply lookup_lt_Some in H2 as Hlt.
      rewrite (mergeShards_Some _ _ _ _ _ Hle H1 H2) in Hmerge. injection Hmerge as <-.
      rewrite lookup_app_l by (rewrite length_take; lia). by rewrite lookup_take_lt.
    + intros j Hj.
      destruct (mergeShards_Some_inv _ _ _ _ Hle Hmerge) as (s1 & s2 & H1 & H2).
      apply lookup_lt_Some in H2 as Hlt.
      rewrite (mergeShards_Some _ _ _ _ _ Hle H1 H2) in Hmerge. injection Hmerge as <-.
      rewrite lookup_app_r by (rewrite length_take; lia).
      rewrite length_take, Nat.min_l by lia.
      replace (j - (i2 - i1) - i1) with (S (j - S i2)) by lia. cbn [app lookup list_lookup].
      etrans; [apply lookup_drop|]. f_equal. lia.
Qed.

(** The value a key holds once the pairs of a traversal were inserted
    into a trie [n]: a key of the traversal gets the copy of its value,
    nil for an empty one, and any other key keeps what it held. *)
Lemma valueAt_insertAll_Traverse t n key :
  valueAt (insertAll (pairOf <$> Traverse t) n) key =
  match valueAt t key with
  | Some v => copyBytes v
  | None => valueAt n key
  end.
Proof.
  destruct (valueAt t key) as [v|] eqn:Hv.
  - apply (valueAt_insertAll_pairs _ _ (mkKV key (copyBytes v))).
    + apply NoDup_Key_walk.
    + apply elem_of_Traverse_valueAt. by exists v.
  - apply valueAt_insertAll_pairs_notin. intros Hin.
    apply list_elem_of_fmap in Hin as (kv & -> & Hkv).
    apply elem_of_Traverse_valueAt in Hkv as (v & Hv' & _). congruence.
Qed.

(** X17. The shard a merge builds holds, for every key, what the second
    shard held for it, and what the first shard held only when the
    second had nothing: on a key both shards hold, the value of the
    first is lost.  A value that is empty becomes nil on the way, so its
    key is no longer found, even when the first shard held a value for
    it.  The counter restarts from the number of pairs traversed. *)
Theorem mergeShards_content (i1 i2 : nat) (shards shards' : list Shard) (s1 s2 : Shard) :
  i1 ≤ i2 → mergeShards i1 i2 shards = Some shards' →
  shards !! i1 = Some s1 → shards !! i2 = Some s2 →
  ∃ merged,
    shards' !! i1 = Some merged ∧
    (∀ key, lookupValue (Tree merged) key =
            match lookupValue (Tree s2) key with
            | Some v => copyBytes v
            | None => lookupValue (Tree s1) key ≫= copyBytes
            end) ∧
    Mutations merged =
      wrap64 (Z.of_nat (length (Traverse (Tree s1)) + length (Traverse (Tree s2)))).
Proof.
  intros Hle Hmerge H1 H2.
  rewrite (mergeShards_Some _ _ _ _ _ Hle H1 H2) in Hmerge. injection Hmerge as <-.
  apply lookup_lt_Some in H1 as Hlt.
  eexists. split_and!.
  - rewrite lookup_app_r by (rewrite length_take; lia).
    rewrite length_take, Nat.min_l, Nat.sub_diag by lia. done.
  - intros key. rewrite !lookupValue_valueAt, Tree_foldl_Apply, fmap_app, insertAll_app.
    rewrite !valueAt_insertAll_Traverse, valueAt_NewNode.
    by destruct (valueAt (Tree s1) key).
  - by rewrite Mutations_foldl_Apply_NewShard, length_app.
Qed.

(** An instance: the two shards of [m_pair]. *)
Lemma mergeShards_content_witness :
  ∃ shards' s1 s2 merged,
    mergeShards 0 1 m_pair = Some shards' ∧ m_pair !! 0 = Some s1 ∧ m_pair !! 1 = Some s2 ∧
    shards' !! 0 = Some merged ∧
    (∀ key, lookupValue (Tree merged) key =
            match lookupValue (Tree s2) key with
            | Some v => copyBytes v
            | None => lookupValue (Tree s1) key ≫= copyBytes
            end) ∧
    Mutations merged =
      wrap64 (Z.of_nat (length (Traverse (Tree s1)) + length (Traverse (Tree s2)))).
Proof.
  destruct (m_pair !! 0) as [s1|] eqn:H1; [|done].
  destruct (m_pair !! 1) as [s2|] eqn:H2; [|done].
  pose proof (mergeShards_Some 0 1 m_pair s1 s2 ltac:(lia) H1 H2) as Hmerge.
  destruct (mergeShards_content 0 1 m_pair _ s1 s2 ltac:(lia) Hmerge H1 H2) as (merged & H).
  eexists _, s1, s2, merged. split; [exact Hmerge|]. split; [done|]. split; [done|]. exact H.
Defined.

(** ** Rebalancing on concrete counters *)

(** C6. Counters [10, 10, 10, 40] with split threshold 2.0: the shard
    at index 3 is split; the manager then has five shards, the first
    three as before and behind them the two halves of the old fourth.
    Counters [1, 1, 50, 50] with merge threshold 0.1: no merge; either
    the split threshold lies below the variance 600.25 and the shard at
    index 2 is split, or nothing is done and the shards stay as they are.
    Counters [10, 10, 10, 10] with merge threshold 0.5 and a split
    threshold the variance 0 does not exceed: the shards at indices 0
    and 1 are merged; the manager then has three shards, the merged one
    in front of the old third and fourth. *)
Theorem variance_thresholds (shards : list Shard) :
  (Mutations <$> shards = [10; 10; 10; 40]%Z →
   ∀ thresholdMerge, ∃ shards' rp old s1 s2,
     RebalanceWithProof 2 thresholdMerge shards = Some (shards', rp) ∧
     Operation rp = "split" ∧ ShardIndex rp = [3] ∧
     splitShard 3 shards = Some shards' ∧
     shards !! 3 = Some old ∧
     shards' = take 3 shards ++ [s1; s2] ∧
     (∀ kv, kv ∈ Traverse (Tree s1) ↔
            kv ∈ Traverse (Tree old) ∧ lowHalf (Key kv) ∧ is_Some (KValue kv)) ∧
     (∀ kv, kv ∈ Traverse (Tree s2) ↔
            kv ∈ Traverse (Tree old) ∧ ¬ lowHalf (Key kv) ∧ is_Some (KValue kv)) ∧
     PreRoots rp = ShardRoots shards ∧ PostRoots rp = ShardRoots shards') ∧
  (Mutations <$> shards = [1; 1; 50; 50]%Z →
   ∀ thresholdSplit, ∃ shards' rp,
     RebalanceWithProof thresholdSplit 0.1 shards = Some (shards', rp) ∧
     Operation rp ≠ "merge" ∧
     PreRoots rp = ShardRoots shards ∧ PostRoots rp = ShardRoots shards' ∧
     if PrimFloat.ltb thresholdSplit 600.25 then
       Operation rp = "split" ∧ ShardIndex rp = [2] ∧
       ∃ s1 s2, shards' = take 2 shards ++ [s1; s2] ++ drop 3 shards
     else
       Operation rp = "none" ∧ ShardIndex rp = [] ∧ shards' = shards) ∧
  (Mutations <$> shards = [10; 10; 10; 10]%Z →
   ∀ thresholdSplit, PrimFloat.ltb thresholdSplit 0 = false →
   ∃ shards' rp s1 s2 merged,
     RebalanceWithProof thresholdSplit 0.5 shards = Some (shards', rp) ∧
     Operation rp = "merge" ∧ ShardIndex rp = [0; 1] ∧
     mergeShards 0 1 shards = Some shards' ∧
     shards !! 0 = Some s1 ∧ shards !! 1 = Some s2 ∧
     shards' = merged :: drop 2 shards ∧
     (∀ key, lookupValue (Tree merged) key =
             match lookupValue (Tree s2) key with
             | Some v => copyBytes v
             | None => lookupValue (Tree s1) key ≫= copyBytes
             end) ∧
     PreRoots rp = ShardRoots shards ∧ PostRoots rp = ShardRoots shards').
Proof.
  split_and!.
  - intros Hst tm. destruct (fmap_length_4 _ _ _ _ _ _ Hst) as (w & x & y & z & ->).
    unfold RebalanceWithProof. rewrite Hst, calcStats_skewed.
    change (PrimFloat.ltb 2 (17.5%float, 168.75%float).2) with true.
    change (indexOfMax [10; 10; 10; 40]%Z) with 3. cbv iota.
    rewrite (splitShard_Some 3 [w; x; y; z] z eq_refl). cbn [mbind option_bind].
    eexists _, _, z, _, _. split_and!; [reflexivity|done|done|done|done|reflexivity| | |done|done].
    + intros kv. rewrite Tree_foldl_Apply.
      apply (elem_of_Traverse_filtered (λ kv, lowHalf (Key kv))).
    + intros kv. rewrite Tree_foldl_Apply.
      apply (elem_of_Traverse_filtered (λ kv, ¬ lowHalf (Key kv))).
  - intros Hst ts. destruct (fmap_length_4 _ _ _ _ _ _ Hst) as (w & x & y & z & ->).
    unfold RebalanceWithProof. rewrite Hst, calcStats_bimodal.
    change ((25.5%float, 600.25%float).2) with 600.25%float.
    change (PrimFloat.ltb 600.25 0.1) with false.
    change (indexOfMax [1; 1; 50; 50]%Z) with 2.
    destruct (PrimFloat.ltb ts 600.25).
    + rewrite (splitShard_Some 2 [w; x; y; z] y eq_refl). cbn [mbind option_bind].
      eexists _, _. split_and!; [reflexivity|done|done|done|done|done|].
      eexists _, _. reflexivity.
    + cbn [andb]. eexists _, _. split_and!; [reflexivity|done..].
  - intros Hst ts Hts. destruct (fmap_length_4 _ _ _ _ _ _ Hst) as (w & x & y & z & ->).
    unfold RebalanceWithProof. rewrite Hst, calcStats_even.
    change ((10%float, 0%float).2) with 0%float. rewrite Hts.
    change (PrimFloat.ltb 0 0.5) with true.
    change (twoMinIndices [10; 10; 10; 10]%Z) with (Some (0, 1)).
    change (1 <? length [w; x; y; z]) with true. cbn [andb mbind option_bind]. cbv iota.
    rewrite (mergeShards_Some 0 1 [w; x; y; z] w x ltac:(lia) eq_refl eq_refl).
    cbn [mbind option_bind].
    eexists _, _, w, x, _. split_and!; [reflexivity|done|done|done|done|done|reflexivity| |done|done].
    intros key. rewrite !lookupValue_valueAt, Tree_foldl_Apply, fmap_app, insertAll_app.
    rewrite !valueAt_insertAll_Traverse, valueAt_NewNode.
    by destruct (valueAt (Tree w) key).
Qed.

(** The three cases on shards that were written to that many times. *)
Lemma variance_thresholds_witness :
  (∃ shards' rp old s1 s2,
     RebalanceWithProof 2 0.5 m_skewed = Some (shards', rp) ∧
     Operation rp = "split" ∧ ShardIndex rp = [3] ∧
     splitShard 3 m_skewed = Some shards' ∧
     m_skewed !! 3 = Some old ∧
     shards' = take 3 m_skewed ++ [s1; s2] ∧
     (∀ kv, kv ∈ Traverse (Tree s1) ↔
            kv ∈ Traverse (Tree old) ∧ lowHalf (Key kv) ∧ is_Some (KValue kv)) ∧
     (∀ kv, kv ∈ Traverse (Tree s2) ↔
            kv ∈ Traverse (Tree old) ∧ ¬ lowHalf (Key kv) ∧ is_Some (KValue kv)) ∧
     PreRoots rp = ShardRoots m_skewed ∧ PostRoots rp = ShardRoots shards') ∧
  (∃ shards' rp,
     RebalanceWithProof 700 0.1 m_bimodal = Some (shards', rp) ∧
     Operation rp ≠ "merge" ∧
     PreRoots rp = ShardRoots m_bimodal ∧ PostRoots rp = ShardRoots shards' ∧
     Operation rp = "none" ∧ ShardIndex rp = [] ∧ shards' = m_bimodal) ∧
  (∃ shards' rp s1 s2 merged,
     RebalanceWithProof 2 0.5 m_even = Some (shards', rp) ∧
     Operation rp = "merge" ∧ ShardIndex rp = [0; 1] ∧
     mergeShards 0 1 m_even = Some shards' ∧
     m_even !! 0 = Some s1 ∧ m_even !! 1 = Some s2 ∧
     shards' = merged :: drop 2 m_even ∧
     (∀ key, lookupValue (Tree merged) key =
             match lookupValue (Tree s2) key with
             | Some v => copyBytes v
             | None => lookupValue (Tree s1) key ≫= copyBytes
             end) ∧
     PreRoots rp = ShardRoots m_even ∧ PostRoots rp = ShardRoots shards').
Proof.
  assert (H1 : Mutations <$> m_skewed = [10; 10; 10; 40]%Z) by (vm_compute; reflexivity).
  assert (H2 : Mutations <$> m_bimodal = [1; 1; 50; 50]%Z) by (vm_compute; reflexivity).
  assert (H3 : Mutations <$> m_even = [10; 10; 10; 10]%Z) by (vm_compute; reflexivity).
  split; [|split].
  - exact (proj1 (variance_thresholds m_skewed) H1 0.5%float).
  - exact (proj1 (proj2 (variance_thresholds m_bimodal)) H2 700%float).
  - exact (proj2 (proj2 (variance_thresholds m_even)) H3 2%float eq_refl).
Defined.

(** ** The shard manager: the rebalance as a whole *)

Lemma indexOfMax_lt data : data ≠ [] → indexOfMax data < length data.
Proof.
  intros Hne.
  destruct (indexOfMax_inv data [] data 0 eq_refl) as ([Hz|Hlt] & _ & _).
  { by left. } { simpl. lia. } { lia. }
  - change (length (@nil Z)) with 0 in Hz. fold (indexOfMax data) in Hz.
    rewrite Hz. destruct data; [done|]. simpl. lia.
  - done.
Qed.

Lemma twoMinIndices_Some data :
  1 < length data →
  ∃ i1 i2, twoMinIndices data = Some (i1, i2) ∧ i1 ≠ i2 ∧ i1 < length data ∧ i2 < length data.
Proof.
  intros Hlen. unfold twoMinIndices.
  destruct (lookup_lt_is_Some_2 data 0 ltac:(lia)) as [d0 H0].
  destruct (lookup_lt_is_Some_2 data 1 ltac:(lia)) as [d1 H1].
  rewrite H0, H1. cbn [mbind option_bind].
  pose proof (twoMin_foldl data 2 (length data - 2)
                (if (d1 <? d0)%Z then (1, 0) else (0, 1))) as Hinv.
  replace (2 + (length data - 2)) with (length data) in Hinv by lia.
  destruct (foldl _ _ _) as [i1 i2]. exists i1, i2. split; [done|].
  destruct Hinv as (Hne & Hi1 & Hi2 & _).
  - destruct (d1 <? d0)%Z eqn:Hlt; unfold two_min_upto; cbn [fst snd];
      rewrite ?(at_index_lookup _ _ _ H0), ?(at_index_lookup _ _ _ H1).
    + apply Z.ltb_lt in Hlt. split_and!; try lia.
      * intros j Hj Hne. assert (j = 0) as -> by lia.
        by rewrite (at_index_lookup _ _ _ H0).
      * intros j Hj. assert (j = 0) as -> by lia.
        rewrite (at_index_lookup _ _ _ H0). lia.
    + apply Z.ltb_ge in Hlt. split_and!; try lia.
      intros j Hj Hne. assert (j = 1) as -> by lia.
      by rewrite (at_index_lookup _ _ _ H1).
  - done.
Qed.

(** A rebalance of a manager with a shard returns, with a shard left. *)
Lemma RebalanceWithProof_Some thresholdSplit thresholdMerge shards :
  shards ≠ [] →
  ∃ shards' rp,
    RebalanceWithProof thresholdSplit thresholdMerge shards = Some (shards', rp) ∧
    shards' ≠ [].
Proof.
  intros Hne. unfold RebalanceWithProof.
  destruct (PrimFloat.ltb thresholdSplit _).
  - assert (indexOfMax (Mutations <$> shards) < length shards) as Hlt.
    { rewrite <-(length_fmap Mutations). apply indexOfMax_lt. by destruct shards. }
    destruct (lookup_lt_is_Some_2 shards _ Hlt) as [old Hold].
    rewrite (splitShard_Some _ _ _ Hold). cbn [mbind option_bind].
    eexists _, _. split; [done|]. intros Hnil.
    apply (f_equal length) in Hnil. rewrite length_app in Hnil. simpl in Hnil. lia.
  - destruct (PrimFloat.ltb _ thresholdMerge && (1 <? length shards)) eqn:Hmerge.
    + apply andb_prop in Hmerge as [_ Hlen]. apply Nat.ltb_lt in Hlen.
      destruct (twoMinIndices_Some (Mutations <$> shards)) as (i1 & i2 & -> & _ & Hi1 & Hi2).
      { by rewrite length_fmap. }
      rewrite length_fmap in Hi1, Hi2. cbn [mbind option_bind].
      assert (∃ shards', mergeShards i1 i2 shards = Some shards' ∧ shards' ≠ []) as (shards' & -> & Hne').
      { destruct (mergeShards i1 i2 shards) as [shards'|] eqn:Hm.
        - exists shards'. split; [done|]. intros ->.
          destruct (decide (i1 ≤ i2)) as [Hle|Hgt].
          + destruct (mergeShards_Some_inv _ _ _ _ Hle Hm) as (s1 & s2 & H1 & H2).
            rewrite (mergeShards_Some _ _ _ _ _ Hle H1 H2) in Hm. injection Hm as Hm.
            apply (f_equal length) in Hm. rewrite length_app in Hm. simpl in Hm. lia.
          + rewrite mergeShards_comm in Hm. assert (Hle : i2 ≤ i1) by lia.
            destruct (mergeShards_Some_inv _ _ _ _ Hle Hm) as (s1 & s2 & H1 & H2).
            rewrite (mergeShards_Some _ _ _ _ _ Hle H1 H2) in Hm. injection Hm as Hm.
            apply (f_equal length) in Hm. rewrite length_app in Hm. simpl in Hm. lia.
        - exfalso. destruct (decide (i1 ≤ i2)) as [Hle|Hgt].
          + apply (mergeShards_None _ _ _ Hle) in Hm. lia.
          + rewrite mergeShards_comm in Hm.
            apply (mergeShards_None i2 i1) in Hm; lia. }
      cbn [mbind option_bind]. eauto.
    + eauto.
Qed.

(** X18. On a manager with at least one shard [RebalanceWithProof] never
    panics, whatever the thresholds, and leaves at least one shard. *)
Theorem RebalanceWithProof_total (thresholdSplit thresholdMerge : float) (shards : list Shard) :
  shards ≠ [] →
  ∃ shards' rp,
    RebalanceWithProof thresholdSplit thresholdMerge shards = Some (shards', rp) ∧
    shards' ≠ [].
Proof. apply RebalanceWithProof_Some. Qed.

(** An instance: the manager of three shards after one write. *)
Lemma RebalanceWithProof_total_witness :
  ∃ shards' rp, RebalanceWithProof 2 0.5 m_pair = Some (shards', rp) ∧ shards' ≠ [].
Proof. exact (RebalanceWithProof_total 2 0.5 m_pair ltac:(done)). Defined.

(** X19. The proof [RebalanceWithProof] returns records the root hashes of
    all shards before and after the call, and one of three operations:
    "split" with the one index split, in range, and one shard more;
    "merge" with two different indices in range and fewer shards; or
    "none" with no index, the shards untouched and equal root lists. *)
Theorem RebalanceWithProof_record (thresholdSplit thresholdMerge : float)
    (shards shards' : list Shard) (rp : RebalanceProof) :
  RebalanceWithProof thresholdSplit thresholdMerge shards = Some (shards', rp) →
  PreRoots rp = ShardRoots shards ∧ PostRoots rp = ShardRoots shards' ∧
  ((Operation rp = "split" ∧
    ∃ i, ShardIndex rp = [i] ∧ i < length shards ∧ length shards' = S (length shards)) ∨
   (Operation rp = "merge" ∧
    ∃ i1 i2, ShardIndex rp = [i1; i2] ∧ i1 ≠ i2 ∧ i1 < length shards ∧ i2 < length shards ∧
             length shards' < length shards) ∨
   (Operation rp = "none" ∧ ShardIndex rp = [] ∧ shards' = shards ∧
    PostRoots rp = PreRoots rp)).
Proof.
  unfold RebalanceWithProof. intros Hrun.
  destruct (PrimFloat.ltb thresholdSplit _).
  - destruct (splitShard _ shards) as [shards1|] eqn:Hsplit; [|done].
    cbn [mbind option_bind] in Hrun. injection Hrun as <- <-. cbn.
    split_and!; [done..|]. left. split; [done|].
    eexists. split; [done|].
    destruct (shards !! indexOfMax (Mutations <$> shards)) as [old|] eqn:Hold.
    + apply lookup_lt_Some in Hold as Hlt. split; [done|].
      rewrite (splitShard_Some _ _ _ Hold) in Hsplit. injection Hsplit as <-.
      rewrite length_app, length_take. simpl. rewrite length_drop. lia.
    + unfold splitShard in Hsplit. by rewrite Hold in Hsplit.
  - destruct (PrimFloat.ltb _ thresholdMerge && (1 <? length shards)) eqn:Hmerge.
    + apply andb_prop in Hmerge as [_ Hlen]. apply Nat.ltb_lt in Hlen.
      destruct (twoMinIndices_Some (Mutations <$> shards)) as (i1 & i2 & Htwo & Hne & Hi1 & Hi2).
      { by rewrite length_fmap. }
      rewrite length_fmap in Hi1, Hi2. rewrite Htwo in Hrun. cbn [mbind option_bind] in Hrun.
      destruct (mergeShards i1 i2 shards) as [shards1|] eqn:Hm; [|done].
      cbn [mbind option_bind] in Hrun. injection Hrun as <- <-. cbn.
      split_and!; [done..|]. right. left. split; [done|].
      exists i1, i2. split_and!; [done..|].
      destruct (decide (i1 ≤ i2)) as [Hle|Hgt].
      * rewrite (mergeShards_length _ _ _ _ Hle Hm). lia.
      * rewrite mergeShards_comm in Hm.
        rewrite (mergeShards_length i2 i1 _ _ ltac:(lia) Hm). lia.
    + injection Hrun as <- <-. cbn. split_and!; [done..|]. right. right. done.
Qed.

(** An instance: the merge of the two shards of [m_pair]. *)
Lemma RebalanceWithProof_record_witness :
  ∃ shards' rp,
    RebalanceWithProof 2 0.5 m_pair = Some (shards', rp) ∧
    PreRoots rp = ShardRoots m_pair ∧ PostRoots rp = ShardRoots shards' ∧
    ((Operation rp = "split" ∧
      ∃ i, ShardIndex rp = [i] ∧ i < length m_pair ∧ length shards' = S (length m_pair)) ∨
     (Operation rp = "merge" ∧
      ∃ i1 i2, ShardIndex rp = [i1; i2] ∧ i1 ≠ i2 ∧ i1 < length m_pair ∧ i2 < length m_pair ∧
               length shards' < length m_pair) ∨
     (Operation rp = "none" ∧ ShardIndex rp = [] ∧ shards' = m_pair ∧
      PostRoots rp = PreRoots rp)).
Proof.
  destruct (RebalanceWithProof 2 0.5 m_pair) as [[shards' rp]|] eqn:Hrun.
  - exists shards', rp. split; [done|].
    exact (RebalanceWithProof_record 2 0.5 m_pair shards' rp Hrun).
  - exfalso. by destruct (RebalanceWithProof_Some 2 0.5 m_pair ltac:(done)) as (? & ? & ? & _).
Defined.

(** X20. On a manager without shards [RebalanceWithProof] panics when the
    split threshold is negative: the variance 0 exceeds it and the
    shard at index 0 does not exist.  With any other split threshold it
    does nothing and records "none". *)
Theorem RebalanceWithProof_no_shards (thresholdSplit thresholdMerge : float) :
  RebalanceWithProof thresholdSplit thresholdMerge [] =
  if PrimFloat.ltb thresholdSplit 0 then None
  else Some ([], mkRebalanceProof [] [] "none" []).
Proof.
  unfold RebalanceWithProof.
  change ((calcStats (Mutations <$> [])).2) with 0%float.
  destruct (PrimFloat.ltb thresholdSplit 0); [done|].
  by rewrite andb_false_r.
Qed.

(** X21. [Rebalance] changes the shards exactly as [RebalanceWithProof]
    does, and panics when it does. *)
Theorem Rebalance_RebalanceWithProof (thresholdSplit thresholdMerge : float) (shards : list Shard) :
  Rebalance thresholdSplit thresholdMerge shards =
  fst <$> RebalanceWithProof thresholdSplit thresholdMerge shards.
Proof.
  unfold Rebalance, RebalanceWithProof, CollectStats.
  destruct (PrimFloat.ltb thresholdSplit _).
  - by destruct (splitShard _ shards).
  - destruct (PrimFloat.ltb _ thresholdMerge && (1 <? length shards)); [|done].
    destruct (twoMinIndices _) as [[i1 i2]|]; [|done]. cbn [mbind option_bind].
    by destruct (mergeShards i1 i2 shards).
Qed.

(** ** Proof compression: the way back *)

Lemma foldl_insert_reverse (m : gmap byte (list byte)) (l : list (byte * list byte)) :
  foldl (λ m kh, <[kh.1 := kh.2]> m) m l = foldr (λ kh m, <[kh.1 := kh.2]> m) m (reverse l).
Proof.
  revert m. induction l as [|x l IH]; intros m; [done|].
  simpl. by rewrite IH, reverse_cons, foldr_app.
Qed.

(** When the inner loop of [DecompressProof] returns: there is a hash at
    every index it reads. *)
Lemma decompressLoop_is_Some j keys hashes m :
  is_Some (decompressLoop j keys hashes m) ↔
  keys = [] ∨ j + length keys ≤ length (default [] hashes).
Proof.
  revert j m. induction keys as [|k keys IH]; intros j m.
  - simpl. split; [by left|by eexists].
  - cbn [decompressLoop]. destruct hashes as [hs|]; cbn [mbind option_bind default from_option id length] in *.
    + destruct (hs !! j) as [h|] eqn:Hh; cbn [mbind option_bind].
      * rewrite IH. apply lookup_lt_Some in Hh. split.
        -- intros [->|Hle]; right; simpl; lia.
        -- intros [?|Hle]; [done|]. right. lia.
      * apply lookup_ge_None in Hh. split; [by intros [? ?]|].
        intros [?|Hle]; [done|]. lia.
    + split; [by intros [? ?]|]. intros [?|Hle]; [done|]. lia.
Qed.

(** What it returns: every key is set to the hash at its index, in order. *)
Lemma decompressLoop_Some j keys hashes m m' :
  decompressLoop j keys hashes m = Some m' →
  m' = foldl (λ m kh, <[kh.1 := kh.2]> m) m (zip keys (drop j (default [] hashes))).
Proof.
  revert j m. induction keys as [|k keys IH]; intros j m Hrun.
  - by injection Hrun as <-.
  - cbn [decompressLoop] in Hrun. destruct hashes as [hs|]; [|done].
    cbn [mbind option_bind default from_option id] in *.
    destruct (hs !! j) as [h|] eqn:Hh; [|done]. cbn [mbind option_bind] in Hrun.
    rewrite (drop_S _ _ _ Hh). cbn [zip zip_with foldl fst snd].
    by apply IH.
Qed.

Lemma decompressSteps_is_Some i sibKeys sibHashes :
  is_Some (decompressSteps i sibKeys sibHashes) ↔
  ∀ k keys, sibKeys !! k = Some keys →
            length keys ≤ length (default [] (sibHashes !! (i + k))).
Proof.
  revert i. induction sibKeys as [|keys rest IH]; intros i.
  - split; [by intros _ k keys|by eexists].
  - cbn [decompressSteps]. split.
    + intros [steps Hrun] k keys' Hk.
      destruct (decompressLoop 0 keys (sibHashes !! i) ∅) as [m|] eqn:Hm; [|done].
      cbn [mbind option_bind] in Hrun.
      destruct (decompressSteps (S i) rest sibHashes) as [ms|] eqn:Hms; [|done].
      destruct k as [|k].
      * injection Hk as <-. rewrite Nat.add_0_r.
        destruct (proj1 (decompressLoop_is_Some 0 keys (sibHashes !! i) ∅)) as [->|Hle];
          [by eexists|simpl; lia|done].
      * replace (i + S k) with (S i + k) by lia.
        apply (proj1 (IH (S i))); [by eexists|done].
    + intros Hall.
      destruct (proj2 (decompressLoop_is_Some 0 keys (sibHashes !! i) ∅)) as [m ->].
      { right. specialize (Hall 0 keys eq_refl). by rewrite Nat.add_0_r in Hall. }
      cbn [mbind option_bind].
      destruct (proj2 (IH (S i))) as [ms ->]; [|by eexists].
      intros k keys' Hk. specialize (Hall (S k) keys' Hk).
      by replace (i + S k) with (S i + k) in Hall by lia.
Qed.

Lemma decompressSteps_None i sibKeys sibHashes :
  decompressSteps i sibKeys sibHashes = None →
  ∃ k keys, sibKeys !! k = Some keys ∧
            length (default [] (sibHashes !! (i + k))) < length keys.
Proof.
  revert i. induction sibKeys as [|keys rest IH]; intros i Hrun; [done|].
  cbn [decompressSteps] in Hrun.
  destruct (decompressLoop 0 keys (sibHashes !! i) ∅) as [m|] eqn:Hm.
  - cbn [mbind option_bind] in Hrun.
    destruct (decompressSteps (S i) rest sibHashes) as [ms|] eqn:Hms; [done|].
    destruct (IH _ Hms) as (k & keys' & Hk & Hlt).
    exists (S k), keys'. split; [done|]. by replace (i + S k) with (S i + k) by lia.
  - exists 0, keys. split; [done|]. rewrite Nat.add_0_r.
    destruct (decide (length keys ≤ length (default [] (sibHashes !! i)))) as [Hle|]; [|lia].
    destruct (proj2 (decompressLoop_is_Some 0 keys (sibHashes !! i) ∅)) as [m' Hm'];
      [by right|congruence].
Qed.

Lemma decompressSteps_Some i sibKeys sibHashes steps :
  decompressSteps i sibKeys sibHashes = Some steps →
  length steps = length sibKeys ∧
  ∀ k keys, sibKeys !! k = Some keys →
    steps !! k = Some (list_to_map (reverse (zip keys (default [] (sibHashes !! (i + k)))))).
Proof.
  revert i steps. induction sibKeys as [|keys rest IH]; intros i steps Hrun.
  - injection Hrun as <-. by split.
  - cbn [decompressSteps] in Hrun.
    destruct (decompressLoop 0 keys (sibHashes !! i) ∅) as [m|] eqn:Hm; [|done].
    cbn [mbind option_bind] in Hrun.
    destruct (decompressSteps (S i) rest sibHashes) as [ms|] eqn:Hms; [|done].
    injection Hrun as <-. destruct (IH _ _ Hms) as [Hlen Hsteps].
    split; [simpl; by rewrite Hlen|].
    intros [|k] keys' Hk.
    + injection Hk as <-. rewrite Nat.add_0_r. cbn [lookup list_lookup]. f_equal.
      apply decompressLoop_Some in Hm. rewrite drop_0, foldl_insert_reverse in Hm.
      by rewrite Hm.
    + replace (i + S k) with (S i + k) by lia. by apply Hsteps.
Qed.

(** X22. [DecompressProof] panics exactly when some depth has more keys
    than hashes.  When it returns, the proof has the value of the
    compressed proof and one step per key list, each the map from its
    keys to the hashes at the same positions; of a key that occurs twice
    the later hash is kept, and hashes beyond the keys are ignored. *)
Theorem DecompressProof_panics (cp : CompressedProof) :
  (DecompressProof cp = None ↔
   ∃ i keys, SibKeys cp !! i = Some keys ∧
             length (default [] (SibHashes cp !! i)) < length keys) ∧
  (∀ p, DecompressProof cp = Some p →
     Value p = CValue cp ∧ length (Steps p) = length (SibKeys cp) ∧
     ∀ i keys, SibKeys cp !! i = Some keys →
       Steps p !! i =
       Some (list_to_map (reverse (zip keys (default [] (SibHashes cp !! i)))))).
Proof.
  unfold DecompressProof. split.
  - pose proof (decompressSteps_is_Some 0 (SibKeys cp) (SibHashes cp)) as Hiff.
    cbn [Nat.add] in Hiff. split.
    + intros Hnone. apply (decompressSteps_None 0).
      by destruct (decompressSteps 0 (SibKeys cp) (SibHashes cp)).
    + intros (i & keys & Hk & Hlt).
      destruct (decompressSteps 0 (SibKeys cp) (SibHashes cp)) as [steps|] eqn:Hsteps; [|done].
      exfalso. pose proof (proj1 Hiff ltac:(by eexists) i keys Hk). lia.
  - intros p Hp.
    destruct (decompressSteps 0 (SibKeys cp) (SibHashes cp)) as [steps|] eqn:Hsteps; [|done].
    injection Hp as <-. cbn [Value Steps].
    destruct (decompressSteps_Some _ _ _ _ Hsteps) as [Hlen Hall]. done.
Qed.

Lemma StronglySorted_byte_lt_NoDup keys : StronglySorted byte_lt keys → NoDup keys.
Proof.
  induction 1 as [|k keys _ IH Hall]; constructor; [|done].
  intros Hin. rewrite Forall_forall in Hall. specialize (Hall k Hin).
  unfold byte_lt in Hall. lia.
Qed.

(** Compressing the map built from sorted keys and as many hashes gives
    the keys and the hashes back. *)
Lemma compressStep_list_to_map keys (hashes : list (list byte)) :
  StronglySorted byte_lt keys → length keys = length hashes →
  compressStep (list_to_map (reverse (zip keys hashes))) = (keys, hashes).
Proof.
  intros Hsorted Hlen. pose proof (StronglySorted_byte_lt_NoDup _ Hsorted) as Hnd.
  assert (Hfst : (reverse (zip keys hashes)).*1 = reverse keys).
  { rewrite fmap_reverse, fst_zip; [done|lia]. }
  assert (Hnd' : NoDup (reverse (zip keys hashes)).*1).
  { by rewrite Hfst, reverse_Permutation. }
  set (m := list_to_map (reverse (zip keys hashes)) : gmap byte (list byte)).
  assert (Hkeys : simpleSort (map_to_list m).*1 = keys).
  { assert (Hperm : simpleSort (map_to_list m).*1 ≡ₚ keys).
    { rewrite simpleSort_Permutation. subst m.
      rewrite (map_to_list_to_map _ Hnd'), Hfst. apply reverse_Permutation. }
    apply (StronglySorted_unique_strong byte_lt); [| |done|done].
    - intros x1 x2 _ _. unfold byte_lt. lia.
    - apply simpleSort_sorted, NoDup_fst_map_to_list. }
  unfold compressStep. fold m. rewrite Hkeys. f_equal.
  apply list_eq. intros i. rewrite list_lookup_fmap.
  destruct (keys !! i) as [k|] eqn:Hk; simpl.
  - destruct (lookup_lt_is_Some_2 hashes i) as [h Hh].
    { rewrite <-Hlen. by eapply lookup_lt_Some. }
    rewrite Hh. f_equal.
    assert (m !! k = Some h) as ->; [|done].
    apply elem_of_list_to_map_1; [done|]. apply elem_of_reverse.
    apply list_elem_of_lookup. exists i. rewrite lookup_zip_with, Hk. simpl. by rewrite Hh.
  - symmetry. apply lookup_ge_None. apply lookup_ge_None in Hk. lia.
Qed.

(** X23. A compressed proof whose key lists are strictly ascending and
    as long as their hash lists is the compression of the proof it
    decompresses to.  With C8 this makes [CompressProof] and
    [DecompressProof] inverse to each other on such proofs. *)
Theorem Compress_Decompress (cp : CompressedProof) :
  Forall (StronglySorted byte_lt) (SibKeys cp) →
  Forall2 (λ keys hashes, length keys = length hashes) (SibKeys cp) (SibHashes cp) →
  ∃ p, DecompressProof cp = Some p ∧ CompressProof p = cp.
Proof.
  destruct cp as [v sibKeys sibHashes]. cbn [SibKeys SibHashes]. intros Hsorted Hlens.
  unfold DecompressProof. cbn [SibKeys SibHashes CValue].
  pose proof (Forall2_length _ _ _ Hlens) as Hlen.
  destruct (proj2 (decompressSteps_is_Some 0 sibKeys sibHashes)) as [steps Hsteps].
  { intros k keys Hk. cbn [Nat.add].
    destruct (Forall2_lookup_l _ _ _ _ _ Hlens Hk) as (hashes & -> & Heq). simpl. lia. }
  rewrite Hsteps. cbn [mbind option_bind]. eexists. split; [done|].
  destruct (decompressSteps_Some _ _ _ _ Hsteps) as [Hslen Hall]. cbn [Nat.add] in Hall.
  unfold CompressProof. cbn [Value Steps].
  assert (Hzip : compressStep <$> steps = zip sibKeys sibHashes).
  { apply list_eq. intros i. rewrite list_lookup_fmap, lookup_zip_with.
    destruct (sibKeys !! i) as [keys|] eqn:Hk; simpl.
    - destruct (Forall2_lookup_l _ _ _ _ _ Hlens Hk) as (hashes & Hh & Heq).
      rewrite (Hall _ _ Hk), Hh. simpl. f_equal.
      apply compressStep_list_to_map; [|done].
      rewrite Forall_lookup in Hsorted. by eapply Hsorted.
    - apply lookup_ge_None in Hk.
      rewrite (proj2 (lookup_ge_None steps i)) by lia. done. }
  rewrite Hzip, fst_zip, snd_zip by lia. done.
Qed.

(** An instance: two keys at the first depth, none at the second. *)
Lemma Compress_Decompress_witness :
  ∃ p, DecompressProof cp_two = Some p ∧ CompressProof p = cp_two.
Proof.
  apply Compress_Decompress.
  - repeat constructor; unfold byte_lt; simpl; lia.
  - repeat constructor.
Defined.

(** ** Cross-shard proofs: a transfer that goes through *)

Lemma bind_eq {A B} (m : M A) (k : A → M B) st a st1 :
  m st = Ret a st1 → bind m k st = k a st1.
Proof. unfold bind. by intros ->. Qed.

Lemma rootHashOf_eq idx st t : st !! idx = Some t → rootHashOf idx st = Ret (RootHash t) st.
Proof. unfold rootHashOf. by intros ->. Qed.

Lemma getProofOf_eq idx key st t :
  st !! idx = Some t → getProofOf idx key st = Ret (GetProof t key) st.
Proof. unfold getProofOf. by intros ->. Qed.

Lemma insertAt_eq idx key val st t :
  st !! idx = Some t → insertAt idx key val st = Ret tt (<[idx := Insert key val t]> st).
Proof. unfold insertAt. by intros ->. Qed.

(** What [GenerateCrossProof] returns when both keys are found: the
    destination trie is read after the write to the source. *)
Lemma GenerateCrossProof_Ret srcShard dstShard keyFrom keyTo amount st ts td p1 p2 :
  st !! srcShard = Some ts → st !! dstShard = Some td →
  GetProof ts keyFrom = inl p1 → GetProof td keyTo = inl p2 →
  let ts1 := Insert keyFrom amount ts in
  let td1 := Insert keyTo amount (if decide (srcShard = dstShard) then ts1 else td) in
  let st' := <[dstShard := td1]> (<[srcShard := ts1]> st) in
  GenerateCrossProof srcShard dstShard keyFrom keyTo amount st =
  Ret (inl (mkCrossProof srcShard dstShard keyFrom keyTo (RootHash ts) (RootHash td) p1 p2
                         (RootHash (if decide (srcShard = dstShard) then td1 else ts1))
                         (RootHash td1))) st'.
Proof.
  intros Hs Hd Hp1 Hp2 ts1 td1 st'. unfold GenerateCrossProof.
  rewrite (bind_eq _ _ _ _ _ (rootHashOf_eq _ _ _ Hs)).
  rewrite (bind_eq _ _ _ _ _ (rootHashOf_eq _ _ _ Hd)).
  rewrite (bind_eq _ _ _ _ _ (getProofOf_eq _ keyFrom _ _ Hs)), Hp1.
  rewrite (bind_eq _ _ _ _ _ (getProofOf_eq _ keyTo _ _ Hd)), Hp2.
  rewrite (bind_eq _ _ _ _ _ (insertAt_eq _ keyFrom amount _ _ Hs)). fold ts1.
  assert (Hd1 : <[srcShard := ts1]> st !! dstShard =
                Some (if decide (srcShard = dstShard) then ts1 else td)).
  { case_decide as Heq; [subst; apply lookup_insert_eq|by rewrite lookup_insert_ne]. }
  rewrite (bind_eq _ _ _ _ _ (insertAt_eq _ keyTo amount _ _ Hd1)). fold td1 st'.
  assert (Hs2 : st' !! srcShard = Some (if decide (srcShard = dstShard) then td1 else ts1)).
  { subst st'. case_decide as Heq; [subst; apply lookup_insert_eq|].
    by rewrite lookup_insert_ne, lookup_insert_eq. }
  assert (Hd2 : st' !! dstShard = Some td1) by apply lookup_insert_eq.
  rewrite (bind_eq _ _ _ _ _ (rootHashOf_eq _ _ _ Hs2)).
  by rewrite (bind_eq _ _ _ _ _ (rootHashOf_eq _ _ _ Hd2)).
Qed.

(** X24. When both shards have a trie and both keys are found,
    [GenerateCrossProof] returns a proof: it records the root hashes and
    key proofs of the tries as they were, writes the amount to both keys
    and records the root hashes of the tries as they are afterwards, also
    when both shards are the same.  Both keys then read back the amount,
    and a nil amount makes them absent.  No other trie changes. *)
Theorem GenerateCrossProof_success (srcShard dstShard : Z) (keyFrom keyTo : list byte)
    (amount : option (list byte)) (st : gmap Z Node) (ts td : Node) (p1 p2 : TrieProof) :
  st !! srcShard = Some ts → st !! dstShard = Some td →
  GetProof ts keyFrom = inl p1 → GetProof td keyTo = inl p2 →
  ∃ cp st' ts' td',
    GenerateCrossProof srcShard dstShard keyFrom keyTo amount st = Ret (inl cp) st' ∧
    st' !! srcShard = Some ts' ∧ st' !! dstShard = Some td' ∧
    (∀ idx, idx ≠ srcShard → idx ≠ dstShard → st' !! idx = st !! idx) ∧
    PreSrcRoot cp = RootHash ts ∧ PreDstRoot cp = RootHash td ∧
    SrcProof cp = p1 ∧ DstProof cp = p2 ∧
    PostSrcRoot cp = RootHash ts' ∧ PostDstRoot cp = RootHash td' ∧
    lookupValue ts' keyFrom = amount ∧ lookupValue td' keyTo = amount.
Proof.
  intros Hs Hd Hp1 Hp2.
  pose proof (GenerateCrossProof_Ret _ _ _ _ amount _ _ _ _ _ Hs Hd Hp1 Hp2) as Hrun.
  cbv zeta in Hrun. eexists _, _, _, _. split; [exact Hrun|]. cbn [PreSrcRoot PreDstRoot
    SrcProof DstProof PostSrcRoot PostDstRoot].
  split_and!; try done.
  - case_decide as Heq; [subst; apply lookup_insert_eq|].
    by rewrite lookup_insert_ne, lookup_insert_eq.
  - apply lookup_insert_eq.
  - intros idx H1 H2. by rewrite !lookup_insert_ne.
  - rewrite lookupValue_valueAt. case_decide as Heq.
    + rewrite !valueAt_Insert. by repeat case_decide.
    + by rewrite valueAt_Insert, decide_True.
  - by rewrite lookupValue_valueAt, valueAt_Insert, decide_True.
Qed.

(** An instance: "alice" in shard 0 pays "bob" in shard 1. *)
Lemma GenerateCrossProof_success_witness :
  ∃ cp st' ts' td',
    GenerateCrossProof 0 1 (bs "alice") (bs "bob") (Some (bs "50")) st_both = Ret (inl cp) st' ∧
    st' !! 0%Z = Some ts' ∧ st' !! 1%Z = Some td' ∧
    (∀ idx, idx ≠ 0%Z → idx ≠ 1%Z → st' !! idx = st_both !! idx) ∧
    PreSrcRoot cp = RootHash t_alice ∧ PreDstRoot cp = RootHash t_bob ∧
    SrcProof cp = mkProof (bs "500") (proofSteps t_alice (bs "alice")) ∧
    DstProof cp = mkProof (bs "7") (proofSteps t_bob (bs "bob")) ∧
    PostSrcRoot cp = RootHash ts' ∧ PostDstRoot cp = RootHash td' ∧
    lookupValue ts' (bs "alice") = Some (bs "50") ∧ lookupValue td' (bs "bob") = Some (bs "50").
Proof.
  apply (GenerateCrossProof_success 0 1 (bs "alice") (bs "bob") (Some (bs "50")) st_both
           t_alice t_bob).
  - reflexivity.
  - reflexivity.
  - rewrite GetProof_valueAt. unfold t_alice. by rewrite valueAt_Insert, decide_True.
  - rewrite GetProof_valueAt. unfold t_bob. by rewrite valueAt_Insert, decide_True.
Defined.

(** X25. A transfer between two different shards whose amount is the
    value one of the keys already holds, in tries built by inserts,
    leaves that trie as it was: [GenerateCrossProof] returns a proof with
    equal pre- and post-root on that side, which [VerifyCrossProof]
    rejects whatever the single-proof verifier says. *)
Theorem GenerateCrossProof_same_value (srcShard dstShard : Z) (keyFrom keyTo : list byte)
    (amount : list byte) (st : gmap Z Node)
    (kvs1 kvs2 : list (list byte * option (list byte))) (p1 p2 : TrieProof) :
  srcShard ≠ dstShard →
  st !! srcShard = Some (insertAll kvs1 NewNode) →
  st !! dstShard = Some (insertAll kvs2 NewNode) →
  GetProof (insertAll kvs1 NewNode) keyFrom = inl p1 →
  GetProof (insertAll kvs2 NewNode) keyTo = inl p2 →
  Value p1 = amount ∨ Value p2 = amount →
  ∃ cp st',
    GenerateCrossProof srcShard dstShard keyFrom keyTo (Some amount) st = Ret (inl cp) st' ∧
    (Value p1 = amount → PostSrcRoot cp = PreSrcRoot cp ∧ st' !! srcShard = st !! srcShard) ∧
    (Value p2 = amount → PostDstRoot cp = PreDstRoot cp ∧ st' !! dstShard = st !! dstShard) ∧
    ∀ verifySingle, is_Some (VerifyCrossProof verifySingle cp).
Proof.
  intros Hne Hs Hd Hp1 Hp2 Hsame.
  pose proof (GenerateCrossProof_Ret _ _ _ _ (Some amount) _ _ _ _ _ Hs Hd Hp1 Hp2) as Hrun.
  cbv zeta in Hrun. rewrite !decide_False in Hrun by done.
  assert (Hstored : ∀ kvs key p, GetProof (insertAll kvs NewNode) key = inl p →
            Value p = amount →
            Insert key (Some amount) (insertAll kvs NewNode) = insertAll kvs NewNode).
  { intros kvs key p Hp <-. rewrite GetProof_valueAt in Hp.
    destruct (valueAt (insertAll kvs NewNode) key) as [v|] eqn:Hv; [|done].
    injection Hp as <-. cbn [Value].
    apply Insert_stored; [|done]. apply hashed_insertAll_NewNode.
    intros ->. by rewrite valueAt_NewNode in Hv. }
  eexists _, _. split; [exact Hrun|]. cbn [PreSrcRoot PreDstRoot PostSrcRoot PostDstRoot].
  assert (H1 : Value p1 = amount →
          RootHash (Insert keyFrom (Some amount) (insertAll kvs1 NewNode)) =
          RootHash (insertAll kvs1 NewNode)).
  { intros Hv. by rewrite (Hstored _ _ _ Hp1 Hv). }
  assert (H2 : Value p2 = amount →
          RootHash (Insert keyTo (Some amount) (insertAll kvs2 NewNode)) =
          RootHash (insertAll kvs2 NewNode)).
  { intros Hv. by rewrite (Hstored _ _ _ Hp2 Hv). }
  split_and!.
  - intros Hv. split; [by apply H1|].
    by rewrite lookup_insert_ne, lookup_insert_eq, (Hstored _ _ _ Hp1 Hv).
  - intros Hv. split; [by apply H2|].
    by rewrite lookup_insert_eq, (Hstored _ _ _ Hp2 Hv).
  - intros verifySingle. unfold VerifyCrossProof.
    cbn [PreSrcRoot PreDstRoot PostSrcRoot PostDstRoot SrcKey DstKey SrcProof DstProof].
    destruct (verifySingle _ keyFrom p1); [|by eexists].
    destruct (verifySingle _ keyTo p2); [|by eexists]. cbn [negb].
    case_bool_decide as E1; [by eexists|].
    case_bool_decide as E2; [by eexists|].
    exfalso. destruct Hsame as [Hv|Hv]; [apply E1|apply E2]; symmetry; auto.
Qed.

(** An instance: "alice" holds 500 and sends 500. *)
Lemma GenerateCrossProof_same_value_witness :
  ∃ cp st',
    GenerateCrossProof 0 1 (bs "alice") (bs "bob") (Some (bs "500")) st_both = Ret (inl cp) st' ∧
    (bs "500" = bs "500" → PostSrcRoot cp = PreSrcRoot cp ∧ st' !! 0%Z = st_both !! 0%Z) ∧
    (bs "7" = bs "500" → PostDstRoot cp = PreDstRoot cp ∧ st' !! 1%Z = st_both !! 1%Z) ∧
    ∀ verifySingle, is_Some (VerifyCrossProof verifySingle cp).
Proof.
  apply (GenerateCrossProof_same_value 0 1 (bs "alice") (bs "bob") (bs "500") st_both
           [(bs "alice", Some (bs "500"))] [(bs "bob", Some (bs "7"))]
           (mkProof (bs "500") (proofSteps t_alice (bs "alice")))
           (mkProof (bs "7") (proofSteps t_bob (bs "bob")))).
  - done.
  - reflexivity.
  - reflexivity.
  - change (insertAll [(bs "alice", Some (bs "500"))] NewNode) with t_alice.
    rewrite GetProof_valueAt. unfold t_alice. by rewrite valueAt_Insert, decide_True.
  - change (insertAll [(bs "bob", Some (bs "7"))] NewNode) with t_bob.
    rewrite GetProof_valueAt. unfold t_bob. by rewrite valueAt_Insert, decide_True.
  - by left.
Defined.

(** X26. [GenerateCrossProof] panics exactly when one of the two shards
    has no trie; it then never returns an error instead. *)
Theorem GenerateCrossProof_panics (srcShard dstShard : Z) (keyFrom keyTo : list byte)
    (amount : option (list byte)) (st : gmap Z Node) :
  GenerateCrossProof srcShard dstShard keyFrom keyTo amount st = Panic ↔
  st !! srcShard = None ∨ st !! dstShard = None.
Proof.
  split.
  - intros Hrun.
    destruct (st !! srcShard) as [ts|] eqn:Hs; [|by left].
    destruct (st !! dstShard) as [td|] eqn:Hd; [|by right]. exfalso.
    unfold GenerateCrossProof in Hrun.
    rewrite (bind_eq _ _ _ _ _ (rootHashOf_eq _ _ _ Hs)) in Hrun.
    rewrite (bind_eq _ _ _ _ _ (rootHashOf_eq _ _ _ Hd)) in Hrun.
    rewrite (bind_eq _ _ _ _ _ (getProofOf_eq _ keyFrom _ _ Hs)) in Hrun.
    destruct (GetProof ts keyFrom) as [p1|e1] eqn:Hp1; [|done].
    rewrite (bind_eq _ _ _ _ _ (getProofOf_eq _ keyTo _ _ Hd)) in Hrun.
    destruct (GetProof td keyTo) as [p2|e2] eqn:Hp2; [|done].
    pose proof (GenerateCrossProof_Ret _ _ _ _ amount _ _ _ _ _ Hs Hd Hp1 Hp2) as Hret.
    cbv zeta in Hret. unfold GenerateCrossProof in Hret.
    rewrite (bind_eq _ _ _ _ _ (rootHashOf_eq _ _ _ Hs)) in Hret.
    rewrite (bind_eq _ _ _ _ _ (rootHashOf_eq _ _ _ Hd)) in Hret.
    rewrite (bind_eq _ _ _ _ _ (getProofOf_eq _ keyFrom _ _ Hs)), Hp1 in Hret.
    rewrite (bind_eq _ _ _ _ _ (getProofOf_eq _ keyTo _ _ Hd)), Hp2 in Hret.
    by rewrite Hret in Hrun.
  - unfold GenerateCrossProof, bind, rootHashOf. intros [Hs|Hd].
    + by rewrite Hs.
    + destruct (st !! srcShard); [|done]. by rewrite Hd.
Qed.

(** ** The global root *)

Lemma int_of_byte_of_int z : (0 ≤ z < 256)%Z → int_of_byte (byte_of_int z) = z.
Proof.
  intros Hz. unfold byte_of_int, int_of_byte, byte_of_N.
  rewrite Z.mod_small by lia. rewrite N.mod_small by lia.
  destruct (Byte.of_N (Z.to_N z)) as [b|] eqn:Hb.
  - apply Byte.to_of_N in Hb. lia.
  - apply Byte.of_N_None_iff in Hb. lia.
Qed.

(** The two bytes in front of a root give its length back, when the
    length fits them. *)
Lemma lenPrefix_length r1 r2 :
  (Z.of_nat (length r1) < 65536)%Z → (Z.of_nat (length r2) < 65536)%Z → lenPrefix r1 = lenPrefix r2 → length r1 = length r2.
Proof.
  unfold lenPrefix. intros H1 H2 [= Hhi Hlo].
  apply (f_equal int_of_byte) in Hhi, Hlo.
  change 255%Z with (Z.ones 8) in Hlo.
  rewrite !Z.land_ones in Hlo by lia. rewrite !Z.shiftr_div_pow2 in Hhi by lia.
  assert (Hdiv : ∀ n, (Z.of_nat n < 65536)%Z → (0 ≤ Z.of_nat n `div` 2 ^ 8 < 256)%Z).
  { intros n Hn. split; [apply Z.div_pos; lia|apply Z.div_lt_upper_bound; lia]. }
  assert (Hmod : ∀ n, (0 ≤ Z.of_nat n `mod` 2 ^ 8 < 256)%Z).
  { intros n. apply Z.mod_pos_bound. lia. }
  rewrite (int_of_byte_of_int _ (Hdiv _ H1)), (int_of_byte_of_int _ (Hdiv _ H2)) in Hhi.
  rewrite (int_of_byte_of_int _ (Hmod _)), (int_of_byte_of_int _ (Hmod _)) in Hlo.
  pose proof (Z.div_mod (Z.of_nat (length r1)) (2 ^ 8) ltac:(lia)).
  pose proof (Z.div_mod (Z.of_nat (length r2)) (2 ^ 8) ltac:(lia)). lia.
Qed.

Lemma globalInput_foldl buf roots :
  foldl (λ buf r, buf ++ lenPrefix r ++ r) buf roots = buf ++ globalInput roots.
Proof.
  unfold globalInput. revert buf. induction roots as [|r roots IH]; intros buf.
  - by rewrite app_nil_r.
  - simpl. rewrite IH, (IH (_ :: _ :: r)). by rewrite <-app_assoc.
Qed.

Lemma globalInput_cons r roots :
  globalInput (r :: roots) = lenPrefix r ++ r ++ globalInput roots.
Proof.
  unfold globalInput at 1. cbn [foldl]. rewrite globalInput_foldl. by rewrite <-app_assoc.
Qed.

(** X27. What [BuildGlobalRoot] hashes determines the list of roots, their
    number and order included, as long as every root is shorter than
    65536 bytes, the most its two length bytes can tell: two different
    lists of such roots are never hashed from the same bytes. *)
Theorem globalInput_inj (roots1 roots2 : list (list byte)) :
  Forall (λ r, (Z.of_nat (length r) < 65536)%Z) roots1 →
  Forall (λ r, (Z.of_nat (length r) < 65536)%Z) roots2 →
  globalInput roots1 = globalInput roots2 → roots1 = roots2.
Proof.
  intros H1. revert roots2. induction H1 as [|r1 roots1 Hr1 _ IH]; intros roots2 H2 Heq.
  - destruct roots2 as [|r2 roots2]; [done|]. by rewrite globalInput_cons in Heq.
  - destruct H2 as [|r2 roots2 Hr2 H2]; [by rewrite globalInput_cons in Heq|].
    rewrite !globalInput_cons in Heq.
    assert (Hpre : lenPrefix r1 = lenPrefix r2).
    { unfold lenPrefix in *. cbn [app] in Heq. by injection Heq as -> -> _. }
    rewrite Hpre in Heq. apply app_inv_head in Heq.
    apply app_inj_1 in Heq as [-> Heq]; [|by apply lenPrefix_length].
    f_equal. by apply IH.
Qed.

(** An instance: two short roots. *)
Lemma globalInput_inj_witness : [bs "ab"; bs "c"] = [bs "ab"; bs "c"].
Proof.
  apply globalInput_inj.
  - repeat constructor; simpl; lia.
  - repeat constructor; simpl; lia.
  - reflexivity.
Defined.

(** ** The scheduler: one tick *)

Lemma isActive_length active shards shards' tx :
  length shards' = length shards → isActive active shards' tx = isActive active shards tx.
Proof. intros Hlen. unfold isActive. by rewrite (shardIndex_length _ _ _ Hlen). Qed.

Lemma applyAll_foldl_None txs :
  foldl (λ m tx, m ≫= ApplyTx (TxKey tx) (TxValue tx)) None txs = None.
Proof. by induction txs. Qed.

Lemma applyAll_cons tx txs shards :
  applyAll (tx :: txs) shards = ApplyTx (TxKey tx) (TxValue tx) shards ≫= applyAll txs.
Proof.
  unfold applyAll. cbn [foldl mbind option_bind].
  destruct (ApplyTx (TxKey tx) (TxValue tx) shards); [done|apply applyAll_foldl_None].
Qed.

(** The loop of a tick over the transactions [q] queued in front of the
    re-queued ones [acc]. *)
Lemma drain_app active q acc shards :
  shards ≠ [] → length q + length acc ≤ queueCap →
  ∃ shards',
    drain (length q) active shards (q ++ acc) =
      Some (shards', acc ++ filter (λ tx, ¬ isActive active shards tx) q) ∧
    applyAll (filter (λ tx, isActive active shards tx) q) shards = Some shards' ∧
    length shards' = length shards.
Proof.
  revert shards acc. induction q as [|tx q IH]; intros shards acc Hne Hcap.
  - exists shards. by rewrite app_nil_r.
  - cbn [length drain app].
    destruct (ApplyTx_Some (TxKey tx) (TxValue tx) shards Hne) as (idx & s & Hidx & Hs & Happly).
    rewrite Hidx. cbn [mbind option_bind].
    assert (Hact : isActive active shards tx = bool_decide (Z.of_nat idx ∈ active)).
    { unfold isActive. by rewrite Hidx. }
    destruct (decide (Z.of_nat idx ∈ active)) as [Hin|Hin].
    + rewrite Happly. cbn [mbind option_bind].
      set (shards1 := <[idx := Apply (TxKey tx) (TxValue tx) s]> shards) in *.
      assert (Hlen : length shards1 = length shards) by apply length_insert.
      destruct (IH shards1 acc) as (shards' & Hrun & Hall & Hlen').
      { intros E. rewrite E in Hlen. by destruct shards. }
      { simpl in Hcap. lia. }
      exists shards'. rewrite Hrun.
      rewrite filter_cons_False by (rewrite Hact, bool_decide_eq_true_2 by done; auto).
      rewrite filter_cons_True by (by rewrite Hact, bool_decide_eq_true_2).
      rewrite applyAll_cons, Happly. cbn [mbind option_bind]. fold shards1.
      split_and!.
      * do 3 f_equal. apply list_filter_iff. intros tx'. by rewrite (isActive_length _ _ _ _ Hlen).
      * rewrite <-Hall. f_equal. apply list_filter_iff. intros tx'. by rewrite (isActive_length _ _ _ _ Hlen).
      * lia.
    + unfold send. rewrite decide_True by (rewrite length_app; simpl in Hcap; lia).
      cbn [mbind option_bind]. rewrite <-app_assoc.
      destruct (IH shards (acc ++ [tx]) Hne) as (shards' & Hrun & Hall & Hlen').
      { rewrite length_app. simpl in *. lia. }
      exists shards'. rewrite Hrun.
      assert (Hoff : ¬ isActive active shards tx).
      { rewrite Hact. by intros ?%bool_decide_unpack. }
      rewrite filter_cons_True by done. rewrite filter_cons_False by done.
      by rewrite <-app_assoc.
Qed.

(** X28. The loop of a tick over a queue within the channel's capacity,
    on a manager with a shard, neither blocks nor panics: it applies the
    transactions routed to an active shard, in queue order, and leaves
    the others in the queue, in their order.  The number of shards, and
    with it the routing, stays the same. *)
Theorem drain_spec (active : gset Z) (shards : list Shard) (queue : list Transaction) :
  shards ≠ [] → length queue ≤ queueCap →
  ∃ shards',
    drain (length queue) active shards queue =
      Some (shards', filter (λ tx, ¬ isActive active shards tx) queue) ∧
    applyAll (filter (λ tx, isActive active shards tx) queue) shards = Some shards' ∧
    length shards' = length shards.
Proof.
  intros Hne Hcap.
  destruct (drain_app active queue [] shards Hne) as (shards' & Hrun & Hall & Hlen).
  { simpl. lia. }
  exists shards'. by rewrite app_nil_r in Hrun.
Qed.

(** An instance: two transactions on three shards, shard 0 active. *)
Lemma drain_spec_witness :
  ∃ shards',
    drain (length (txQueue s_two)) {[0%Z]} (mgr s_two) (txQueue s_two) =
      Some (shards', filter (λ tx, ¬ isActive {[0%Z]} (mgr s_two) tx) (txQueue s_two)) ∧
    applyAll (filter (λ tx, isActive {[0%Z]} (mgr s_two) tx) (txQueue s_two)) (mgr s_two)
      = Some shards' ∧
    length shards' = length (mgr s_two).
Proof.
  apply drain_spec.
  - done.
  - unfold queueCap. simpl. lia.
Defined.

(** One tick on a manager with a shard and a queue within capacity. *)
Lemma tick_Some s :
  mgr s ≠ [] → length (txQueue s) ≤ queueCap →
  ∃ shards shards' rp,
    let total := Z.of_nat (length (mgr s)) in
    let active := activeShards (cursor s) (activeCount s) total in
    applyAll (filter (λ tx, isActive active (mgr s) tx) (txQueue s)) (mgr s) = Some shards ∧
    RebalanceWithProof (splitThreshold s) (mergeThreshold s) shards = Some (shards', rp) ∧
    shards' ≠ [] ∧
    tick s = Some (mkScheduler shards' (filter (λ tx, ¬ isActive active (mgr s) tx) (txQueue s))
                               (tickInterval s) (activeCount s)
                               (Z.rem (wrap64 (cursor s + activeCount s)) total)
                               (splitThreshold s) (mergeThreshold s)).
Proof.
  intros Hne Hcap. cbv zeta. unfold tick, ShardCount.
  destruct (Z.eqb_spec (Z.of_nat (length (mgr s))) 0) as [E|_].
  { destruct (mgr s); [done|]. simpl in E. lia. }
  destruct (drain_spec (activeShards (cursor s) (activeCount s) (Z.of_nat (length (mgr s))))
              (mgr s) (txQueue s) Hne Hcap) as (shards & Hrun & Hall & Hlen).
  rewrite Hrun. cbn [mbind option_bind].
  destruct (RebalanceWithProof_Some (splitThreshold s) (mergeThreshold s) shards)
    as (shards' & rp & Hreb & Hne').
  { intros E. rewrite E in Hlen. by destruct (mgr s). }
  rewrite Hreb. cbn [mbind option_bind]. by exists shards, shards', rp.
Qed.

(** X29. A scheduler whose manager has a shard and whose queue is within
    the channel's capacity runs any number of ticks without a panic and
    without waiting on its queue.  The manager keeps a shard, and the
    queue is what is left of the first queue, in its order. *)
Theorem ticks_total (n : nat) (s : Scheduler) :
  mgr s ≠ [] → length (txQueue s) ≤ queueCap →
  ∃ s', ticks n s = Some s' ∧ mgr s' ≠ [] ∧ txQueue s' `sublist_of` txQueue s.
Proof.
  revert s. induction n as [|n IH]; intros s Hne Hcap.
  - by exists s.
  - destruct (tick_Some s Hne Hcap) as (shards & shards' & rp & _ & _ & Hne' & Htick).
    cbn [ticks]. rewrite Htick. cbn [mbind option_bind].
    match goal with |- ∃ s', ticks n ?s1 = _ ∧ _ => destruct (IH s1) as (s' & Hrun & Hs' & Hsub) end.
    + done.
    + cbn [txQueue]. etrans; [apply length_filter|done].
    + exists s'. split_and!; [done..|]. etrans; [exact Hsub|]. apply sublist_filter.
Qed.

(** An instance: three ticks of the scheduler with two transactions. *)
Lemma ticks_total_witness :
  ∃ s', ticks 3 s_two = Some s' ∧ mgr s' ≠ [] ∧ txQueue s' `sublist_of` txQueue s_two.
Proof.
  apply ticks_total.
  - done.
  - unfold queueCap. simpl. lia.
Defined.

Lemma filter_all {A} (P : A → Prop) `{∀ x, Decision (P x)} (l : list A) :
  (∀ x, P x) → filter P l = l.
Proof.
  intros HP. induction l as [|x l IH]; [done|]. by rewrite filter_cons_True, IH.
Qed.

Lemma filter_none {A} (P : A → Prop) `{∀ x, Decision (P x)} (l : list A) :
  (∀ x, ¬ P x) → filter P l = [].
Proof.
  intros HP. induction l as [|x l IH]; [done|]. by rewrite filter_cons_False.
Qed.

Lemma wrap64_small z : (- 2 ^ 63 ≤ z < 2 ^ 63)%Z → wrap64 z = z.
Proof. intros Hz. unfold wrap64. rewrite Z.mod_small; lia. Qed.

(** With a cursor that is not negative and as many active shards as there
    are shards, every shard is active. *)
Lemma elem_of_activeShards_all cursor activeCount total idx :
  (0 ≤ cursor)%Z → (total ≤ activeCount)%Z → (cursor + activeCount < 2 ^ 63)%Z →
  (0 ≤ idx < total)%Z → idx ∈ activeShards cursor activeCount total.
Proof.
  intros Hc Hcount Hmax Hidx. unfold activeShards.
  apply elem_of_list_to_set, list_elem_of_fmap.
  pose proof (Z.mod_pos_bound (idx - cursor) total ltac:(lia)) as Hi.
  exists (Z.to_nat ((idx - cursor) mod total)). split.
  - rewrite Z2Nat.id by lia. rewrite wrap64_small by lia.
    rewrite Z.rem_mod_nonneg by lia.
    rewrite Zplus_mod_idemp_r. replace (cursor + (idx - cursor))%Z with idx by lia.
    by rewrite Z.mod_small.
  - apply elem_of_seq. lia.
Qed.

(** X30. When the cursor is not negative and the number of active shards
    per tick is at least the number of shards (and their sum does not
    overflow), one tick applies every queued transaction, in queue
    order, before it rebalances: the queue is empty afterwards. *)
Theorem tick_all_active (s : Scheduler) :
  mgr s ≠ [] → length (txQueue s) ≤ queueCap →
  (0 ≤ cursor s)%Z → (Z.of_nat (length (mgr s)) ≤ activeCount s)%Z →
  (cursor s + activeCount s < 2 ^ 63)%Z →
  ∃ s' shards rp,
    tick s = Some s' ∧ txQueue s' = [] ∧
    applyAll (txQueue s) (mgr s) = Some shards ∧
    RebalanceWithProof (splitThreshold s) (mergeThreshold s) shards = Some (mgr s', rp).
Proof.
  intros Hne Hcap Hc Hcount Hmax.
  destruct (tick_Some s Hne Hcap) as (shards & shards' & rp & Hall & Hreb & _ & Htick).
  cbv zeta in *.
  assert (Hact : ∀ tx, isActive (activeShards (cursor s) (activeCount s)
                                   (Z.of_nat (length (mgr s)))) (mgr s) tx).
  { intros tx. unfold isActive.
    destruct (shardIndex_is_Some (TxKey tx) (mgr s) Hne) as [idx Hidx]. rewrite Hidx.
    apply bool_decide_pack, elem_of_activeShards_all; [done..|].
    apply shardIndex_lt in Hidx. lia. }
  eexists _, shards, rp. split; [exact Htick|]. cbn [txQueue mgr]. split_and!.
  - apply filter_none. intros tx Hno. apply Hno, Hact.
  - by rewrite filter_all in Hall.
  - done.
Qed.

(** An instance: every shard of three is active. *)
Lemma tick_all_active_witness :
  ∃ s' shards rp,
    tick s_all = Some s' ∧ txQueue s' = [] ∧
    applyAll (txQueue s_all) (mgr s_all) = Some shards ∧
    RebalanceWithProof (splitThreshold s_all) (mergeThreshold s_all) shards = Some (mgr s', rp).
Proof.
  apply tick_all_active.
  - done.
  - unfold queueCap. simpl. lia.
  - simpl. lia.
  - simpl. lia.
  - simpl. lia.
Defined.

